(** * tpexternal.c: the transversal-property checker

    A shallow embedding of [src/tpexternal.c] (integer lists, [Binomial],
    [Combinations], [TransversalProperty] and the driver [main]) together
    with the properties of the specification that were checked against it.

    Conventions of the embedding.
    - A C [int] is a [Z]; the result of every [+], [-], [*] and [/] of the
      source on [int] operands goes through [CInt.wrap], the 32-bit
      two's-complement wrap-around.  Counting loops [for(i=lo;i<=hi;i++)]
      are iterations over the index range.
    - An [intlist] is the raw array: cell 0 holds the length, the elements
      follow.  Arrays of pointers and of [bool], whose cell 0 the program
      never initialises, are lists of their cells [1..].
    - An access outside an array, the use of a variable that was never
      assigned, reading past the end of the input and reading a number
      that is not in the range of [int] are [Undef].
    - [exit] ends the run with its status; [malloc] succeeds or fails as
      the next entry of the oracle [mallocs] of the world says.
    - Recursion of [TransversalProperty] is by fuel: the number of nested
      calls still allowed. *)

From Stdlib Require Import ZArith List Bool Lia String Ascii Sorted.
Import ListNotations.
Open Scope Z_scope.

(** ** C integers *)

Module CInt.

Definition INT_MAX : Z := 2147483647.
Definition INT_MIN : Z := -2147483648.

Definition wrap (z : Z) : Z := (z + 2 ^ 31) mod 2 ^ 32 - 2 ^ 31.

Definition add (a b : Z) : Z := wrap (a + b).
Definition sub (a b : Z) : Z := wrap (a - b).
Definition mul (a b : Z) : Z := wrap (a * b).
(** C division truncates toward zero. *)
Definition div (a b : Z) : Z := wrap (Z.quot a b).
(** The conversion [(unsigned)x]. *)
Definition to_unsigned (z : Z) : Z := z mod 2 ^ 32.

Definition in_range (z : Z) : Prop := INT_MIN <= z <= INT_MAX.
Definition in_rangeb (z : Z) : bool := (INT_MIN <=? z) && (z <=? INT_MAX).

End CInt.

Infix "+i" := CInt.add (at level 50, left associativity).
Infix "-i" := CInt.sub (at level 50, left associativity).
Infix "*i" := CInt.mul (at level 40, left associativity).
Infix "/i" := CInt.div (at level 40, left associativity).

(** ** The world, outcomes and the monad of the program *)

Record world : Type := World {
  mallocs : list bool;   (* results of the coming calls of malloc: false is NULL;
                            once exhausted every call succeeds *)
  stdin : list Z;        (* the numbers still to be read by scanf("%d") *)
  stdout : list string;  (* the lines printed so far *)
  stderr : list string   (* the diagnostics printed so far *)
}.

Inductive outcome (X : Type) : Type :=
| Ret (x : X) (w : world)          (* normal return *)
| Exited (status : Z) (w : world)  (* the process called exit(status) *)
| Undef                            (* behaviour the C standard leaves undefined *)
| NoFuel.                          (* the fuel of the embedding ran out *)

Arguments Ret {X} x w.
Arguments Exited {X} status w.
Arguments Undef {X}.
Arguments NoFuel {X}.

Definition M (X : Type) : Type := world -> outcome X.

Definition ret {X} (x : X) : M X := fun w => Ret x w.

Definition bind {X Y} (m : M X) (f : X -> M Y) : M Y :=
  fun w => match m w with
           | Ret x w' => f x w'
           | Exited s w' => Exited s w'
           | Undef => Undef
           | NoFuel => NoFuel
           end.

Declare Scope prog_scope.
Delimit Scope prog_scope with prog.
Notation "x <- m ;; f" := (bind m (fun x => f))
  (at level 100, m at next level, right associativity) : prog_scope.
Notation "m ;;; f" := (bind m (fun _ => f))
  (at level 100, right associativity) : prog_scope.

Definition undef {X} : M X := fun _ => Undef.
Definition out_of_fuel {X} : M X := fun _ => NoFuel.

(** A partial pure computation run inside the program. *)
Definition lift {X} (o : option X) : M X :=
  match o with Some x => ret x | None => undef end.

Definition EXIT_SUCCESS : Z := 0.
Definition EXIT_FAILURE : Z := 1.

Definition nl : string := String (ascii_of_nat 10) EmptyString.

(** [fprintf(stderr,"\n<msg>\n"); exit(EXIT_FAILURE);] *)
Definition fatal {X} (msg : string) : M X :=
  fun w => Exited EXIT_FAILURE
             (World (mallocs w) (stdin w) (stdout w)
                    (stderr w ++ [(nl ++ msg ++ nl)%string])).

(** [exit(status)] *)
Definition exit {X} (status : Z) : M X := fun w => Exited status w.

(** [malloc]: true when the block was obtained, false for NULL. *)
Definition malloc : M bool :=
  fun w => match mallocs w with
           | [] => Ret true w
           | b :: bs => Ret b (World bs (stdin w) (stdout w) (stderr w))
           end.

(** [scanf("%d",&x)] followed by a use of [x]; the behaviour is undefined
    when the number read is not in the range of [int]. *)
Definition scan_int : M Z :=
  fun w => match stdin w with
           | [] => Undef
           | z :: zs =>
               if CInt.in_rangeb z
               then Ret z (World (mallocs w) zs (stdout w) (stderr w))
               else Undef
           end.

(** [printf("%d\n",b)] for a [bool] b. *)
Definition show_bool (b : bool) : string := if b then "1"%string else "0"%string.

Definition print_bool (b : bool) : M unit :=
  fun w => Ret tt (World (mallocs w) (stdin w)
                         (stdout w ++ [(show_bool b ++ nl)%string]) (stderr w)).

(** ** Arrays *)

Definition intlist : Type := list Z.

(** [x[i]] on a raw array, cell 0 included. *)
Definition geti (x : intlist) (i : Z) : option Z :=
  if i <? 0 then None else nth_error x (Z.to_nat i).

Fixpoint replace_nth {T} (l : list T) (i : nat) (v : T) : option (list T) :=
  match l, i with
  | [], _ => None
  | _ :: t, O => Some (v :: t)
  | h :: t, S i' => option_map (cons h) (replace_nth t i' v)
  end.

(** [x[i]=v] on a raw array. *)
Definition seti (x : intlist) (i v : Z) : option intlist :=
  if i <? 0 then None else replace_nth x (Z.to_nat i) v.

(** [x[i]] and [x[i]=v] on an array given by its cells [1..]. *)
Definition get1 {T} (x : list T) (i : Z) : option T :=
  if i <? 1 then None else nth_error x (Z.to_nat (i - 1)).

Definition set1 {T} (x : list T) (i : Z) (v : T) : option (list T) :=
  if i <? 1 then None else replace_nth x (Z.to_nat (i - 1)) v.

(** [Length(x)] *)
Definition Length (x : intlist) : option Z := geti x 0.

(** [SetLength(x,length)] *)
Definition SetLength (x : intlist) (length : Z) : option intlist := seti x 0 length.

(** The integer list with the given elements. *)
Definition intlist_of (l : list Z) : intlist := Z.of_nat (List.length l) :: l.

Definition obind {X Y} (o : option X) (f : X -> option Y) : option Y :=
  match o with Some x => f x | None => None end.

Notation "x <-? o ;; f" := (obind o (fun x => f))
  (at level 100, o at next level, right associativity).

(** ** Counting loops *)

(** What the body of a loop does next: go on with the next index, or leave
    the loop ([break], or [return] from the function) with a value. *)
Inductive flow (S R : Type) : Type :=
| Next (s : S)
| Stop (r : R).

Arguments Next {S R} s.
Arguments Stop {S R} r.

(** [count] iterations at the indices [i, i+1, ...]. *)
Fixpoint loop_up {S R} (count : nat) (i : Z)
    (body : Z -> S -> option (flow S R)) (s : S) : option (flow S R) :=
  match count with
  | O => Some (Next s)
  | Datatypes.S c =>
      match body i s with
      | Some (Next s') => loop_up c (i + 1) body s'
      | other => other
      end
  end.

(** [for(i=lo;i<=hi;i++) body] *)
Definition for_up {S R} (lo hi : Z) (body : Z -> S -> option (flow S R)) (s : S)
    : option (flow S R) :=
  loop_up (Z.to_nat (hi - lo + 1)) lo body s.

(** [count] iterations at the indices [i, i-1, ...]. *)
Fixpoint loop_down {S R} (count : nat) (i : Z)
    (body : Z -> S -> option (flow S R)) (s : S) : option (flow S R) :=
  match count with
  | O => Some (Next s)
  | Datatypes.S c =>
      match body i s with
      | Some (Next s') => loop_down c (i - 1) body s'
      | other => other
      end
  end.

(** [for(i=hi;i>=lo;i--) body] *)
Definition for_down {S R} (hi lo : Z) (body : Z -> S -> option (flow S R)) (s : S)
    : option (flow S R) :=
  loop_down (Z.to_nat (hi - lo + 1)) hi body s.

(** ** Integer lists *)

(** [IntList(length)]: the cells of the new list are not initialised; they
    stand as 0 here and are written before they are read. *)
Definition IntList (length : Z) : M intlist :=
  (if length <? 0 then
     fatal "IntList error: negative length given for a list"
   else
     ok <- malloc ;;
     if negb ok then fatal "IntList error: malloc failed"
     else ret (length :: repeat 0 (Z.to_nat length)))%prog.

(** The loop [for(i=1;i<=length;i++) scanf("%d",&L[i]);] *)
Fixpoint read_cells (count : nat) (i : Z) (L : intlist) : M intlist :=
  match count with
  | O => ret L
  | Datatypes.S c =>
      (v <- scan_int ;;
       L' <- lift (seti L i v) ;;
       read_cells c (i + 1) L')%prog
  end.

(** [IntListRead()] *)
Definition IntListRead : M intlist :=
  (length <- scan_int ;;
   if length <? 0 then
     fatal "IntListRead error: negative length given for a list"
   else
     L <- IntList length ;;
     read_cells (Z.to_nat length) 1 L)%prog.

(** ** Binomial *)

(** [Binomial(n,k)]; the recursion is on [k], which the fuel follows. *)
Fixpoint Binomial_rec (fuel : nat) (n k : Z) : M Z :=
  if (n <? k) || (k <? 0) then fatal "Binomial error: n<k or k<0"
  else if k =? 0 then ret 1
  else match fuel with
       | O => out_of_fuel
       | Datatypes.S f =>
           (b <- Binomial_rec f (n -i 1) (k -i 1) ;;
            ret ((b *i n) /i k))%prog
       end.

Definition Binomial (n k : Z) : M Z := Binomial_rec (Z.to_nat k) n k.

(** ** Combinations *)

(** A loop [for(i=lo;...;i++)] without [break], run [count] times. *)
Fixpoint iter_up {S} (count : nat) (i : Z) (body : Z -> S -> option S) (s : S)
    : option S :=
  match count with
  | O => Some s
  | Datatypes.S c => s' <-? body i s ;; iter_up c (i + 1) body s'
  end.

(** The body of [for(j=k;j>=1;j--)] in [Combinations]: [prev] is
    [comb[i-1]] and [cur] is [comb[i]].  After the first inner loop [jj]
    equals [j], so the second one starts at [j+1]. *)
Definition successor_body (n k : Z) (prev : intlist) (j : Z) (cur : intlist)
    : option (flow intlist intlist) :=
  pj <-? geti prev j ;;
  if pj <? n -i (k -i j) then
    cur1 <-? iter_up (Z.to_nat (j - 1)) 1
               (fun jj c => v <-? geti prev jj ;; seti c jj v) cur ;;
    cur2 <-? seti cur1 j (pj +i 1) ;;
    cur3 <-? iter_up (Z.to_nat (k - j)) (j + 1)
               (fun jj c => v <-? geti c (jj -i 1) ;; seti c jj (v +i 1)) cur2 ;;
    Some (Stop cur3)
  else Some (Next cur).

(** The [i]-th combination made from the one before it. *)
Definition successor (n k : Z) (prev cur : intlist) : option intlist :=
  fl <-? for_down k 1 (successor_body n k prev) cur ;;
  match fl with
  | Next c => Some c
  | Stop c => Some c
  end.

(** The loop [for(i=2;i<=binom;i++)]; [cells] is the number of cells of the
    block [comb] points to and [table] holds [comb[1..i-1]]. *)
Fixpoint fill_table (count : nat) (i : Z) (n k cells : Z) (table : list intlist)
    : M (list intlist) :=
  match count with
  | O => ret table
  | Datatypes.S c =>
      (if cells <=? i then undef
       else
         cur <- IntList k ;;
         prev <- lift (get1 table (i -i 1)) ;;
         cur' <- lift (successor n k prev cur) ;;
         fill_table c (i + 1) n k cells (table ++ [cur']))%prog
  end.

(** [Combinations(n,k)]: the list returned holds [comb[1], comb[2], ...]. *)
Definition Combinations (n k : Z) : M (list intlist) :=
  (if (n <? k) || (k <? 0) then fatal "Combinations error: n<k or k<0"
   else
     binom <- Binomial n k ;;
     ok <- malloc ;;
     if negb ok then fatal "Combinations error: malloc failed"
     else
       let cells := CInt.to_unsigned (binom +i 1) in
       if cells <=? 1 then undef
       else
         c1 <- IntList k ;;
         c1' <- lift (iter_up (Z.to_nat k) 1 (fun j c => seti c j j) c1) ;;
         fill_table (Z.to_nat (binom - 1)) 2 n k cells [c1'])%prog.

(** ** TransversalProperty *)

(** Lines 168-175: count the points of the first [k-1] parts and copy [R]. *)
Definition count_body (k : Z) (A : intlist) (R : list bool) (i : Z)
    (st : Z * Z * list bool) : option (Z * Z * list bool) :=
  let '(Acount, Rnewcount, Rnew) := st in
  a <-? geti A i ;;
  b <-? get1 R i ;;
  Rnew' <-? set1 Rnew i b ;;
  Some (if a <? k then Acount +i 1 else Acount,
        if b then Rnewcount +i 1 else Rnewcount,
        Rnew').

(** Lines 191-206: the body of the loop over the points of [c];
    [Stop] is [injective=false; break]. *)
Definition check_body (k : Z) (A cosetrep c : intlist) (j : Z)
    (st : list bool * option Z) : option (flow (list bool * option Z) (option Z)) :=
  let '(covered, kpoint) := st in
  cj <-? geti c j ;;
  p <-? geti cosetrep cj ;;
  part <-? geti A p ;;
  cov <-? get1 covered part ;;
  if cov then Some (Stop kpoint)
  else
    covered' <-? set1 covered part true ;;
    Some (Next (covered', if part =? k then Some p else kpoint)).

(** Lines 185-206: is the candidate injective, and the value of [kpoint]
    afterwards ([None] while it was never assigned). *)
Definition candidate (k : Z) (A cosetrep c : intlist) (newpoint : Z)
    (kpoint : option Z) : option (bool * option Z) :=
  anp <-? geti A newpoint ;;
  covered <-? set1 (repeat false (Z.to_nat k)) anp true ;;
  fl <-? for_up 1 (k -i 1) (check_body k A cosetrep c)
           (covered, if anp =? k then Some newpoint else kpoint) ;;
  match fl with
  | Next (_, kpoint') => Some (true, kpoint')
  | Stop kpoint' => Some (false, kpoint')
  end.

(** Line 214: the test of the early return. *)
Definition early_success (n k Acount Rnewcount : Z) : bool :=
  (Acount +i Rnewcount) *i k >? (k -i 1) *i n.

(** Lines 178-222: the body of the loop over [adj]; [Stop] is [return true]. *)
Definition scan_body (n k : Z) (comb : list intlist) (A cosetrep adj : intlist)
    (newpoint Acount : Z) (i : Z) (st : list bool * Z * option Z)
    : option (flow (list bool * Z * option Z) unit) :=
  let '(Rnew, Rnewcount, kpoint) := st in
  ai <-? geti adj i ;;
  c <-? get1 comb ai ;;
  cand <-? candidate k A cosetrep c newpoint kpoint ;;
  let '(injective, kpoint') := cand in
  if injective then
    kp <-? kpoint' ;;
    b <-? get1 Rnew kp ;;
    if negb b then
      Rnew' <-? set1 Rnew kp true ;;
      if early_success n k Acount (Rnewcount +i 1) then Some (Stop tt)
      else Some (Next (Rnew', Rnewcount +i 1, kpoint'))
    else Some (Next (Rnew, Rnewcount, kpoint'))
  else Some (Next (Rnew, Rnewcount, kpoint')).

(** Lines 166-222: [Stop] is the early [return true]; otherwise [Rnew] and
    [Rnewcount] after the scan. *)
Definition scan (n k : Z) (cosetreps : list intlist) (adj : intlist)
    (comb : list intlist) (A : intlist) (R : list bool) (newpoint : Z)
    : option (flow (list bool * Z) unit) :=
  st <-? iter_up (Z.to_nat n) 1 (count_body k A R)
           (0, 0, repeat false (Z.to_nat n)) ;;
  let '(Acount, Rnewcount, Rnew) := st in
  cosetrep <-? get1 cosetreps newpoint ;;
  len <-? Length adj ;;
  fl <-? for_up 1 len (scan_body n k comb A cosetrep adj newpoint Acount)
           (Rnew, Rnewcount, None) ;;
  match fl with
  | Next (Rnew', Rnewcount', _) => Some (Next (Rnew', Rnewcount'))
  | Stop _ => Some (Stop tt)
  end.

(** Lines 229-237: the body of the search for a point of [Rnew]; the
    decrement of [Rnewcount] is left out, the counter is not read again. *)
Definition pick_body (i : Z) (Rnew : list bool)
    : option (flow (list bool) (Z * list bool)) :=
  b <-? get1 Rnew i ;;
  if b then Rnew' <-? set1 Rnew i false ;; Some (Stop (i, Rnew'))
  else Some (Next Rnew).

(** Lines 229-237: [r] ([None] when it was not assigned) and [Rnew]. *)
Definition pick (n : Z) (Rnew : list bool) : option (option Z * list bool) :=
  fl <-? for_up 1 n pick_body Rnew ;;
  match fl with
  | Stop (r, Rnew') => Some (Some r, Rnew')
  | Next Rnew' => Some (None, Rnew')
  end.

(** Lines 240-254: the loop over the parts [i, i+1, ...], [count] of them;
    [call A r] is the recursive call.  The result carries the contents of
    the buffer [A] at the return. *)
Fixpoint branches (call : intlist -> Z -> M (bool * intlist)) (count : nat)
    (i k : Z) (r : option Z) (A : intlist) : M (bool * intlist) :=
  match count with
  | O => ret (true, A)
  | Datatypes.S c =>
      (r' <- lift r ;;
       A1 <- lift (seti A r' i) ;;
       res <- call A1 r' ;;
       let '(tp, A2) := res in
       if negb tp then ret (false, A2)
       else
         A3 <- lift (seti A2 r' k) ;;
         branches call c (i + 1) k r A3)%prog
  end.

(** [TransversalProperty(n,k,cosetreps,adj,comb,A,R,newpoint)]: the value
    returned, with the contents of the buffer [A] at the return. *)
Fixpoint TransversalProperty (fuel : nat) (n k : Z) (cosetreps : list intlist)
    (adj : intlist) (comb : list intlist) (A : intlist) (R : list bool)
    (newpoint : Z) : M (bool * intlist) :=
  match fuel with
  | O => out_of_fuel
  | Datatypes.S fuel' =>
      (ok <- malloc ;;
       if negb ok then fatal "TransversalProperty error: malloc failed"
       else
         ok' <- malloc ;;
         if negb ok' then fatal "TransversalProperty error: malloc failed"
         else
           fl <- lift (scan n k cosetreps adj comb A R newpoint) ;;
           match fl with
           | Stop _ => ret (true, A)
           | Next (Rnew, Rnewcount) =>
               if Rnewcount =? 0 then ret (false, A)
               else
                 pk <- lift (pick n Rnew) ;;
                 let '(r, Rnew') := pk in
                 branches
                   (fun A' r' =>
                      TransversalProperty fuel' n k cosetreps adj comb A' Rnew' r')
                   (Z.to_nat (k - 1)) 1 k r A
           end)%prog
  end.

(** ** The driver *)

(** The loop [for(i=1;i<=n;i++) cosetreps[i]=IntListRead();] *)
Fixpoint read_lists (count : nat) : M (list intlist) :=
  match count with
  | O => ret []
  | Datatypes.S c =>
      (L <- IntListRead ;;
       Ls <- read_lists c ;;
       ret (L :: Ls))%prog
  end.

(** Everything [main] does before the loop over the trials. *)
Record setting : Type := Setting {
  set_n : Z;
  set_k : Z;
  set_cosetreps : list intlist;
  set_adj : intlist;
  set_comb : list intlist;
  set_A : intlist;
  set_R : list bool
}.

Definition setup : M setting :=
  (n <- scan_int ;;
   k <- scan_int ;;
   if (k <? 2) || (k >? n) then fatal "bad input: must have 2<=k<=n"
   else
     ok <- malloc ;;
     if negb ok then fatal "making cosetreps error: malloc failed"
     else
       cosetreps <- read_lists (Z.to_nat n) ;;
       adj <- IntListRead ;;
       comb <- Combinations n (k -i 1) ;;
       A <- IntList n ;;
       ok' <- malloc ;;
       if negb ok' then fatal "main error: malloc failed"
       else ret (Setting n k cosetreps adj comb A (repeat false (Z.to_nat n))))%prog.

(** Lines 299-305: the partition and the subset a trial starts from. *)
Definition init_trial (n k : Z) (shortrep A : intlist) (R : list bool)
    : option (intlist * list bool) :=
  st <-? iter_up (Z.to_nat n) 1
           (fun i st => A' <-? seti (fst st) i k ;;
                        R' <-? set1 (snd st) i false ;;
                        Some (A', R'))
           (A, R) ;;
  len <-? Length shortrep ;;
  A' <-? iter_up (Z.to_nat len) 1
           (fun i A0 => p <-? geti shortrep i ;; seti A0 p i) (fst st) ;;
  Some (A', snd st).

(** The loop [while(Length(shortrep=IntListRead())!=0)], run at most
    [count] times; the result is the value of [result] after the loop. *)
Fixpoint trials (count : nat) (fuel : nat) (s : setting) (A : intlist)
    (R : list bool) (result : bool) : M bool :=
  match count with
  | O => out_of_fuel
  | Datatypes.S c =>
      (shortrep <- IntListRead ;;
       len <- lift (Length shortrep) ;;
       if len =? 0 then ret result
       else
         st <- lift (init_trial (set_n s) (set_k s) shortrep A R) ;;
         first <- lift (geti shortrep 1) ;;
         res <- TransversalProperty fuel (set_n s) (set_k s) (set_cosetreps s)
                  (set_adj s) (set_comb s) (fst st) (snd st) first ;;
         if negb (fst res) then ret (fst res)
         else trials c fuel s (snd res) (snd st) (fst res))%prog
  end.

(** [main]; every iteration of the loop over the trials reads at least one
    integer, so the length of the input bounds their number.  [fuel] is the
    fuel of each call of [TransversalProperty]. *)
Definition main (fuel : nat) : M unit :=
  (s <- setup ;;
   result <- (fun w => trials (Datatypes.S (List.length (stdin w))) fuel s
                         (set_A s) (set_R s) true w) ;;
   print_bool result ;;;
   exit EXIT_SUCCESS)%prog.

(** * Notions of the specification *)

(** ** Binomial coefficients *)

(** The number of [k]-subsets of an [n]-set, by Pascal's rule. *)
Fixpoint choose (n k : nat) {struct n} : Z :=
  match n with
  | O => match k with O => 1 | Datatypes.S _ => 0 end
  | Datatypes.S n' =>
      match k with
      | O => 1
      | Datatypes.S k' => choose n' k' + choose n' k
      end
  end.

Definition chooseZ (n k : Z) : Z := choose (Z.to_nat n) (Z.to_nat k).

(** The row after the row [r] of Pascal's triangle, [prev] being the entry
    before [r]. *)
Fixpoint next_row (r : list Z) (prev : Z) : list Z :=
  match r with
  | [] => [prev]
  | x :: t => (prev + x) :: next_row t x
  end.

(** The row [n] of Pascal's triangle. *)
Fixpoint pascal_row (n : nat) : list Z :=
  match n with
  | O => [1]
  | Datatypes.S m => next_row (pascal_row m) 0
  end.

(** The largest product [Binomial(n,k)] forms, [Binomial(n-1,k-1)*n], is
    [k] times the number of [k]-subsets: it has to fit in an [int]. *)
Definition fits (n k : Z) : Prop := k * chooseZ n k <= CInt.INT_MAX.

(** ** Subsets in lexicographic order *)

(** [a, a+1, ...], [len] integers. *)
Fixpoint consec (a : Z) (len : nat) : list Z :=
  match len with
  | O => []
  | Datatypes.S l => a :: consec (a + 1) l
  end.

(** The [k]-subsets of [{lo,...,lo+m-1}], as increasing lists: those with
    [lo] first, then the others. *)
Fixpoint subsets (lo : Z) (m k : nat) {struct m} : list (list Z) :=
  match k with
  | O => [[]]
  | Datatypes.S k' =>
      match m with
      | O => []
      | Datatypes.S m' =>
          map (cons lo) (subsets (lo + 1) m' k') ++ subsets (lo + 1) m' k
      end
  end.

(** Strictly increasing. *)
Fixpoint ascending (c : list Z) : Prop :=
  match c with
  | x :: t => match t with y :: _ => x < y | [] => True end /\ ascending t
  | [] => True
  end.

(** A [k]-subset of [{1,...,n}] as an increasing list. *)
Definition k_subset (n k : Z) (c : list Z) : Prop :=
  Z.of_nat (List.length c) = k /\ ascending c /\ Forall (fun x => 1 <= x <= n) c.

(** The lexicographic order of lists of integers. *)
Fixpoint lex_lt (c d : list Z) : Prop :=
  match c, d with
  | [], _ :: _ => True
  | x :: c', y :: d' => x < y \/ (x = y /\ lex_lt c' d')
  | _, [] => False
  end.

(** The combination after [c] among the increasing lists with values up
    to [hi]: the last value that can grow is increased and followed by
    consecutive integers; [None] after the last combination. *)
Fixpoint next_comb (hi : Z) (c : list Z) : option (list Z) :=
  match c with
  | [] => None
  | a :: rest =>
      match next_comb hi rest with
      | Some rest' => Some (a :: rest')
      | None =>
          if a <? hi - Z.of_nat (List.length rest)
          then Some (consec (a + 1) (Datatypes.S (List.length rest)))
          else None
      end
  end.

(** Each list of [L] is followed by its successor, and the last one has
    none. *)
Fixpoint chain (hi : Z) (c : list Z) (L : list (list Z)) : Prop :=
  match L with
  | [] => next_comb hi c = None
  | d :: L' => next_comb hi c = Some d /\ chain hi d L'
  end.

(** What the specification says of [Combinations(n,k)]: it returns the
    increasing lists that are the [k]-subsets of [{1,...,n}], each once,
    in lexicographic order, [Binomial(n,k)] of them. *)
Definition lists_all_subsets (n k : Z) (w : world) : Prop :=
  exists combs,
    Combinations n k w = Ret (map intlist_of combs) w /\
    Binomial n k w = Ret (Z.of_nat (List.length combs)) w /\
    (forall c, In c combs <-> k_subset n k c) /\
    NoDup combs /\
    StronglySorted lex_lt combs.

(** ** Worlds *)

(** A world with nothing to read and nothing printed. *)
Definition quiet : world := World [] [] [] [].

(** All allocations succeed. *)
Definition enough_memory (w : world) : Prop := mallocs w = [].

(** The run ends in [exit(EXIT_FAILURE)] after one more diagnostic, with
    nothing printed on the standard output. *)
Definition aborts {X} (m : M X) (w : world) : Prop :=
  exists w' msg, m w = Exited EXIT_FAILURE w' /\
                 stderr w' = stderr w ++ [msg] /\ stdout w' = stdout w.

(** The allocations made between two worlds all succeeded. *)
Definition all_succeeded (w w' : world) : Prop :=
  exists p, mallocs w = p ++ mallocs w' /\ Forall (fun b => b = true) p.

(** What a run leaves untouched when it only allocates. *)
Definition same_streams (w w' : world) : Prop :=
  stdin w' = stdin w /\ stdout w' = stdout w /\ stderr w' = stderr w.

(** A run that allocates and returns: the streams are as before, every
    allocation succeeded, and with enough memory the world is unchanged. *)
Definition allocates (w w' : world) : Prop :=
  same_streams w w' /\ all_succeeded w w' /\ (enough_memory w -> w' = w).

(** One more line on the standard output. *)
Definition printed (w : world) (line : string) : world :=
  World (mallocs w) (stdin w) (stdout w ++ [line]) (stderr w).

(** ** Loops *)

(** What holds of the way a loop ended. *)
Definition flow_holds {St R} (P : St -> Prop) (Q : R -> Prop)
    (o : option (flow St R)) : Prop :=
  match o with
  | Some (Next s) => P s
  | Some (Stop r) => Q r
  | None => True
  end.

(** ** The partition and the subset *)

(** [i] is a point of one of the first [k-1] parts. *)
Definition in_first (k : Z) (A : intlist) (i : Z) : bool :=
  match geti A i with Some a => a <? k | None => false end.

(** [i] is a point of the subset [R] represents. *)
Definition in_subset (R : list bool) (i : Z) : bool :=
  match get1 R i with Some b => b | None => false end.

(** The number of points [i] of [{1,...,m}] with [f i]. *)
Fixpoint count_upto (f : Z -> bool) (m : nat) : Z :=
  match m with
  | O => 0
  | Datatypes.S m' => count_upto f m' + (if f (Z.of_nat m) then 1 else 0)
  end.

(** The subset of [{1,...,n}] that [R] represents lies in the part [P[k]]
    of the partition that [A] represents. *)
Definition subset_of_last (n k : Z) (A : intlist) (R : list bool) : Prop :=
  forall i, 1 <= i <= n -> get1 R i = Some true -> geti A i = Some k.

(** [kpoint], once assigned, is a point of [P[k]]. *)
Definition kpoint_ok (k : Z) (A : intlist) (kpoint : option Z) : Prop :=
  forall p, kpoint = Some p -> geti A p = Some k.

(** [A] gives every point of [{1,...,n}] a part of [{1,...,k}]. *)
Definition labelled (n k : Z) (A : intlist) : Prop :=
  forall i, 1 <= i <= n -> exists a, geti A i = Some a /\ 1 <= a <= k.

(** [R] has a cell for every point of [{1,...,n}]. *)
Definition covers (n : Z) (R : list bool) : Prop :=
  forall i, 1 <= i <= n -> exists b, get1 R i = Some b.

(** The tables are in place: an image list for every point, with images
    in [{1,...,n}], and for every entry of [adj] a list of [comb] with
    [k-1] points of [{1,...,n}]. *)
Definition tables_ok (n k : Z) (cosetreps : list intlist) (adj : intlist)
    (comb : list intlist) : Prop :=
  (forall p, 1 <= p <= n ->
     exists cosetrep, get1 cosetreps p = Some cosetrep /\
       forall q, 1 <= q <= n -> exists q', geti cosetrep q = Some q' /\ 1 <= q' <= n) /\
  (exists len, Length adj = Some len /\
     forall i, 1 <= i <= len ->
       exists a c, geti adj i = Some a /\ get1 comb a = Some c /\
         forall j, 1 <= j <= k - 1 -> exists q, geti c j = Some q /\ 1 <= q <= n).

(** [A'] is [A] but for points of the last part that were given one of
    the first [k-1] parts. *)
Definition only_moved (n k : Z) (A A' : intlist) : Prop :=
  List.length A' = List.length A /\
  forall i, geti A' i = geti A i \/
            (1 <= i <= n /\ geti A i = Some k /\
             exists l, geti A' i = Some l /\ 1 <= l <= k - 1).

(** What a call assumes of the partition, the subset and the new point. *)
Definition call_ok (n k : Z) (A : intlist) (R : list bool) (newpoint : Z) : Prop :=
  labelled n k A /\ covers n R /\ subset_of_last n k A R /\
  1 <= newpoint <= n /\ in_first k A newpoint = true.

(** Lines 166-222 stopped after the first [m] entries of [adj]: the
    counter [Acount], and how the loop over these entries ended. *)
Definition scanned (n k : Z) (cosetreps : list intlist) (adj : intlist)
    (comb : list intlist) (A : intlist) (R : list bool) (newpoint : Z) (m : nat)
    : option (Z * flow (list bool * Z * option Z) unit) :=
  st <-? iter_up (Z.to_nat n) 1 (count_body k A R)
           (0, 0, repeat false (Z.to_nat n)) ;;
  let '(Acount, Rnewcount, Rnew) := st in
  cosetrep <-? get1 cosetreps newpoint ;;
  fl <-? loop_up m 1 (scan_body n k comb A cosetrep adj newpoint Acount)
           (Rnew, Rnewcount, None) ;;
  Some (Acount, fl).

(** The entry [adj[i]] gives an injective candidate whose point of [P[k]]
    is [kp], when [kpoint] is the value left by the entries before. *)
Definition forces (k : Z) (cosetreps : list intlist) (adj : intlist)
    (comb : list intlist) (A : intlist) (newpoint : Z) (kpoint : option Z)
    (i kp : Z) : Prop :=
  exists cosetrep a c kpoint0,
    get1 cosetreps newpoint = Some cosetrep /\ geti adj i = Some a /\
    get1 comb a = Some c /\
    candidate k A cosetrep c newpoint kpoint = Some (true, kpoint0) /\
    kpoint0 = Some kp.

(** ** Orbits, completions and transversals *)

(** The image of [x] under the permutation with the image list [g]. *)
Definition image (g : intlist) (x : Z) : Z :=
  match geti g x with Some y => y | None => 0 end.

Definition permutation_of (n : Z) (g : intlist) : Prop :=
  Length g = Some n /\
  (forall x, 1 <= x <= n -> 1 <= image g x <= n) /\
  (forall x y, 1 <= x <= n -> 1 <= y <= n -> image g x = image g y -> x = y).

(** [G] lists the elements of a permutation group on [{1,...,n}]. *)
Definition group_on (n : Z) (G : list intlist) : Prop :=
  (forall g, In g G -> permutation_of n g) /\
  (exists e, In e G /\ forall x, 1 <= x <= n -> image e x = x) /\
  (forall g h, In g G -> In h G ->
     exists f, In f G /\ forall x, 1 <= x <= n -> image f x = image g (image h x)) /\
  (forall g, In g G ->
     exists h, In h G /\ forall x, 1 <= x <= n -> image h (image g x) = x).

Definition transitive_on (n : Z) (G : list intlist) : Prop :=
  forall x y, 1 <= x <= n -> 1 <= y <= n -> exists g, In g G /\ image g x = y.

(** Two lists of points with the same points. *)
Definition same_set (K K' : list Z) : Prop := forall x, In x K <-> In x K'.

(** [K] is in the orbit of the set [K0] under [G]. *)
Definition in_orbit (G : list intlist) (K0 K : list Z) : Prop :=
  exists g, In g G /\ same_set K (map (image g) K0).

(** [(cosetreps,adj)], with the table [comb] of the [(k-1)]-subsets,
    represents the orbit of the [k]-subset [K0] under [G]: [cosetreps[p]]
    is an element of [G] that maps 1 to [p], and [adj] lists the indices
    in [comb] of the [(k-1)]-subsets that extend 1 to a set of the orbit. *)
Definition encodes (n k : Z) (G : list intlist) (K0 : list Z)
    (cosetreps : list intlist) (adj : intlist) (comb : list intlist) : Prop :=
  k_subset n k K0 /\
  (forall p, 1 <= p <= n ->
     exists g, get1 cosetreps p = Some g /\ In g G /\ image g 1 = p) /\
  comb = map intlist_of (subsets 1 (Z.to_nat n) (Z.to_nat (k - 1))) /\
  (exists len, Length adj = Some len /\
     forall a, (exists i, 1 <= i <= len /\ geti adj i = Some a) <->
               (exists c, get1 comb a = Some (intlist_of c) /\
                          in_orbit G K0 (1 :: c))).

(** The part of the point [i] in the partition that [A] represents. *)
Definition part_of (A : intlist) (i : Z) : Z :=
  match geti A i with Some a => a | None => 0 end.

(** [K] meets the part [j] of [Q] in exactly one point. *)
Definition meets_once (Q : intlist) (K : list Z) (j : Z) : Prop :=
  exists x, In x K /\ part_of Q x = j /\
            forall y, In y K -> part_of Q y = j -> y = x.

(** [K] is a transversal of the [k]-partition [Q]. *)
Definition transversal (k : Z) (Q : intlist) (K : list Z) : Prop :=
  forall j, 1 <= j <= k -> meets_once Q K j.

(** [Q] is a [k]-partition of [{1,...,n}] whose first [k-1] parts contain
    those of [A], whose last part has no point of the subset [R]
    represents and at least [n/k] points. *)
Definition completion (n k : Z) (A : intlist) (R : list bool) (Q : intlist) : Prop :=
  labelled n k Q /\
  (forall i, 1 <= i <= n -> in_first k A i = true -> part_of Q i = part_of A i) /\
  (forall i, 1 <= i <= n -> in_subset R i = true -> part_of Q i <> k) /\
  n <= k * count_upto (fun i => part_of Q i =? k) (Z.to_nat n).

(** Every completion has a transversal in the orbit. *)
Definition guaranteed (n k : Z) (orb : list Z -> Prop) (A : intlist)
    (R : list bool) : Prop :=
  forall Q, completion n k A R Q -> exists K, orb K /\ transversal k Q K.

(** Every set of the orbit without [newpoint] that meets each of the first
    [k-1] parts of [A] once has its remaining point in the subset. *)
Definition no_uncovered_witness (n k : Z) (orb : list Z -> Prop) (A : intlist)
    (R : list bool) (newpoint : Z) : Prop :=
  forall K, orb K -> ~ In newpoint K ->
    (forall j, 1 <= j <= k - 1 -> meets_once A K j) ->
    forall x, In x K -> part_of A x = k -> in_subset R x = true.

(** The integers [1,...,m]. *)
Definition positions (m : nat) : list Z := map Z.of_nat (seq 1 m).

(** [newpoint] and the images under [cosetrep] of the first [m] points
    of [c], as the loop of lines 191-206 meets them. *)
Definition candidate_prefix (cosetrep c : intlist) (newpoint : Z) (m : nat) : list Z :=
  newpoint :: map (fun j => image cosetrep (image c j)) (positions m).

(** The points of the candidate that the entry [c] of [comb] gives at
    [newpoint]. *)
Definition candidate_set (k : Z) (cosetrep c : intlist) (newpoint : Z) : list Z :=
  candidate_prefix cosetrep c newpoint (Z.to_nat (k - 1)).

(** The loop of lines 191-206 after [m] points of [c]: [covered] marks the
    parts of the points met, which are distinct, and [kpoint] is the point
    of part [k] among them. *)
Definition met (k : Z) (A cosetrep c : intlist) (newpoint : Z) (m : nat)
    (st : list bool * option Z) : Prop :=
  List.length (fst st) = Z.to_nat k /\
  (forall l, 1 <= l <= k ->
     (in_subset (fst st) l = true
      <-> In l (map (part_of A) (candidate_prefix cosetrep c newpoint m)))) /\
  NoDup (map (part_of A) (candidate_prefix cosetrep c newpoint m)) /\
  (forall x, In x (candidate_prefix cosetrep c newpoint m) -> part_of A x = k ->
             snd st = Some x).

(** [a] is the [i]-th entry of [adj]. *)
Definition adj_entry (adj : intlist) (i a : Z) : Prop :=
  exists len, Length adj = Some len /\ 1 <= i <= len /\ geti adj i = Some a.

(** The tables represent the set [orb] of subsets of [{1,...,n}]: the
    sets of [orb] with the point [p] are the candidates that the entries
    of [adj] give at [p], as the comment of [TransversalProperty] puts it. *)
Definition represents (n k : Z) (cosetreps : list intlist) (adj : intlist)
    (comb : list intlist) (orb : list Z -> Prop) : Prop :=
  (forall K x, orb K -> In x K -> 1 <= x <= n) /\
  forall p K, 1 <= p <= n ->
    ((orb K /\ In p K) <->
     exists i a c cosetrep,
       adj_entry adj i a /\ get1 comb a = Some c /\
       get1 cosetreps p = Some cosetrep /\
       same_set K (candidate_set k cosetrep c p)).

(** A set of the orbit that is a transversal of [A] has [x] as its point
    of the last part. *)
Definition forced (k : Z) (orb : list Z -> Prop) (A : intlist) (x : Z) : Prop :=
  exists K, orb K /\ transversal k A K /\ In x K /\ part_of A x = k.

(** Every transversal of [A] in the orbit without [newpoint] has its point
    of the last part in the subset. *)
Definition witnesses_covered (k : Z) (orb : list Z -> Prop) (A : intlist)
    (R : list bool) (newpoint : Z) : Prop :=
  forall K, orb K -> ~ In newpoint K -> transversal k A K ->
    forall x, In x K -> part_of A x = k -> in_subset R x = true.

(** The points of the first parts and of the subset leave room for a last
    part of [n/k] points. *)
Definition room_left (n k : Z) (A : intlist) (R : list bool) : Prop :=
  (count_upto (in_first k A) (Z.to_nat n) + count_upto (in_subset R) (Z.to_nat n)) * k
  <= (k - 1) * n.

(** The subset [Rnew] of the scan has the points of [R], and its other
    points are forced. *)
Definition scan_sound (n k : Z) (orb : list Z -> Prop) (A : intlist)
    (R Rnew : list bool) : Prop :=
  (forall i, 1 <= i <= n -> in_subset R i = true -> in_subset Rnew i = true) /\
  (forall x, 1 <= x <= n -> in_subset Rnew x = true ->
             in_subset R x = true \/ forced k orb A x).

(** The injective candidates of the entries of [adj] before the [j]-th
    have their point of the last part in [Rnew]. *)
Definition scan_complete (k : Z) (cosetrep adj : intlist) (comb : list intlist)
    (A : intlist) (newpoint : Z) (Rnew : list bool) (j : Z) : Prop :=
  forall i a c, 1 <= i < j -> geti adj i = Some a -> get1 comb a = Some c ->
    NoDup (map (part_of A) (candidate_set k cosetrep c newpoint)) ->
    forall x, In x (candidate_set k cosetrep c newpoint) -> part_of A x = k ->
              in_subset Rnew x = true.

(** The state of the loop of lines 178-222 before the entry [j]. *)
Definition scan_inv (n k : Z) (orb : list Z -> Prop) (cosetrep adj : intlist)
    (comb : list intlist) (A : intlist) (R : list bool) (newpoint : Z) (j : Z)
    (st : list bool * Z * option Z) : Prop :=
  List.length (fst (fst st)) = Z.to_nat n /\
  subset_of_last n k A (fst (fst st)) /\
  snd (fst st) = count_upto (in_subset (fst (fst st))) (Z.to_nat n) /\
  scan_sound n k orb A R (fst (fst st)) /\
  scan_complete k cosetrep adj comb A newpoint (fst (fst st)) j /\
  room_left n k A (fst (fst st)).

(** What the comment of [TransversalProperty] asks of its arguments. *)
Definition documented_input (n k : Z) (G : list intlist) (K0 : list Z)
    (cosetreps : list intlist) (adj : intlist) (comb : list intlist)
    (A : intlist) (R : list bool) (newpoint : Z) : Prop :=
  1 < k /\ group_on n G /\ transitive_on n G /\
  encodes n k G K0 cosetreps adj comb /\
  Length A = Some n /\ labelled n k A /\
  covers n R /\ subset_of_last n k A R /\
  1 <= newpoint <= n /\ in_first k A newpoint = true /\
  count_upto (in_first k A) (Z.to_nat n) * k <= (k - 1) * n /\
  no_uncovered_witness n k (in_orbit G K0) A R newpoint.

(** What the comment promises in return. *)
Definition documented_result (n k : Z) (G : list intlist) (K0 : list Z)
    (cosetreps : list intlist) (adj : intlist) (comb : list intlist)
    (A : intlist) (R : list bool) (newpoint : Z) : Prop :=
  exists fuel result A',
    TransversalProperty fuel n k cosetreps adj comb A R newpoint quiet
    = Ret (result, A') quiet /\
    (result = true <-> guaranteed n k (in_orbit G K0) A R).

(** ** Sentences of the specification that the code does not follow *)

(** The conditions the specification lists as fatal for [Binomial] and
    [Combinations]. *)
Definition fatal_arguments_as_stated (n k : Z) (w : world) : Prop :=
  k < 2 \/ k > n \/ n < k ->
  aborts (Binomial n k) w /\ aborts (Combinations n k) w.

(** The identities of the specification at [n] and [k], read on the values
    [Binomial] returns. *)
Definition Binomial_symmetry (n k : Z) (w : world) : Prop :=
  exists v, Binomial n k w = Ret v w /\ Binomial n (n - k) w = Ret v w.

Definition Binomial_zero (n : Z) (w : world) : Prop :=
  Binomial n 0 w = Ret 1 w.

Definition Binomial_pascal (n k : Z) (w : world) : Prop :=
  exists a b c, Binomial n k w = Ret a w /\
                Binomial (n - 1) (k - 1) w = Ret b w /\
                Binomial (n - 1) k w = Ret c w /\ a = b + c.

Definition Binomial_identities (n k : Z) (w : world) : Prop :=
  Binomial_symmetry n k w /\ Binomial_zero n w /\ Binomial_pascal n k w.

(** The restoration invariant of the specification: whatever the call
    returns, the buffer [A] is as it was passed. *)
Definition restores_as_stated (fuel : nat) (n k : Z) (cosetreps : list intlist)
    (adj : intlist) (comb : list intlist) (A : intlist) (R : list bool)
    (newpoint : Z) (w : world) : Prop :=
  forall result A' w',
    TransversalProperty fuel n k cosetreps adj comb A R newpoint w
    = Ret (result, A') w' -> A' = A.

(** The dead-end rule of the specification: when the scan adds no point,
    the size of the subset being that of the copied [R], the call returns
    false. *)
Definition dead_end_as_stated (fuel : nat) (n k : Z) (cosetreps : list intlist)
    (adj : intlist) (comb : list intlist) (A : intlist) (R : list bool)
    (newpoint : Z) (w : world) : Prop :=
  forall Rnew Rnewcount,
    scan n k cosetreps adj comb A R newpoint = Some (Next (Rnew, Rnewcount)) ->
    Rnewcount = count_upto (in_subset R) (Z.to_nat n) ->
    exists A', TransversalProperty fuel n k cosetreps adj comb A R newpoint w
               = Ret (false, A') w.

(** ** Small orbits *)

(** The coset representatives of the cyclic group generated by the
    rotation of [{1,...,n}]: the [p]-th sends [q] to [q+p-1], taken in
    [{1,...,n}]. *)
Definition rotation_reps (n : nat) : list intlist :=
  map (fun p => intlist_of (map (fun q => Z.of_nat ((q + p) mod n) + 1)
                               (seq 0 n)))
      (seq 0 n).

(** The 1-subsets of [{1,...,n}], in order. *)
Definition singletons (n : nat) : list intlist :=
  map (fun i => intlist_of [Z.of_nat i]) (seq 1 n).

(** The partition of [{1,...,n}] in two parts with the point 1 alone in
    the first part. *)
Definition first_alone (n : Z) : intlist := n :: 1 :: 2 :: repeat 2 (Z.to_nat (n - 2)).

(** The subset of the points from 3 on. *)
Definition from_three (n : Z) : list bool :=
  false :: false :: repeat true (Z.to_nat (n - 2)).

(** The identity of [{1,...,n}], as an image list. *)
Definition identity_list (n : Z) : intlist :=
  n :: 1 :: 2 :: map Z.of_nat (seq 3 (Z.to_nat (n - 2))).

Definition two_to_30 : Z := 1073741824.

(** ** Runs of the driver *)

(** The trials the loop of [main] goes through from the buffers [A] and [R]
    and the world [w], with their results in order, and the world at the
    end of the loop. *)
Inductive trial_run (fuel : nat) (s : setting)
  : intlist -> list bool -> world -> list bool -> world -> Prop :=
| run_end A R w shortrep w1 :
    IntListRead w = Ret shortrep w1 ->
    Length shortrep = Some 0 ->
    trial_run fuel s A R w [] w1
| run_false A R w shortrep w1 len A1 R1 first A2 w2 :
    IntListRead w = Ret shortrep w1 ->
    Length shortrep = Some len -> len <> 0 ->
    init_trial (set_n s) (set_k s) shortrep A R = Some (A1, R1) ->
    geti shortrep 1 = Some first ->
    TransversalProperty fuel (set_n s) (set_k s) (set_cosetreps s) (set_adj s)
      (set_comb s) A1 R1 first w1 = Ret (false, A2) w2 ->
    trial_run fuel s A R w [false] w2
| run_true A R w shortrep w1 len A1 R1 first A2 w2 results w3 :
    IntListRead w = Ret shortrep w1 ->
    Length shortrep = Some len -> len <> 0 ->
    init_trial (set_n s) (set_k s) shortrep A R = Some (A1, R1) ->
    geti shortrep 1 = Some first ->
    TransversalProperty fuel (set_n s) (set_k s) (set_cosetreps s) (set_adj s)
      (set_comb s) A1 R1 first w1 = Ret (true, A2) w2 ->
    trial_run fuel s A2 R1 w2 results w3 ->
    trial_run fuel s A R w (true :: results) w3.

(** A list as [IntListRead] can read it: its length and its elements are
    in the range of [int]. *)
Definition ints (l : list Z) : Prop :=
  Z.of_nat (List.length l) <= CInt.INT_MAX /\ Forall CInt.in_range l.

(** The sequence of a trial: at least one and at most [k-1] distinct points
    of [{1,...,n}]. *)
Definition trial_ok (n k : Z) (ps : list Z) : Prop :=
  NoDup ps /\ Forall (fun p => 1 <= p <= n) ps /\
  1 <= Z.of_nat (List.length ps) <= k - 1.

(** Every [k]-partition of [{1,...,n}] with the points of [ps] in the
    parts 1, 2, ... in order and at least [n/k] points in the last part
    has a transversal in the orbit. *)
Definition trial_guaranteed (n k : Z) (orb : list Z -> Prop) (ps : list Z) : Prop :=
  forall Q, labelled n k Q ->
    (forall t p, nth_error ps t = Some p -> part_of Q p = Z.of_nat t + 1) ->
    n <= k * count_upto (fun i => part_of Q i =? k) (Z.to_nat n) ->
    exists K, orb K /\ transversal k Q K.

(** * Properties *)

(** ** Arithmetic of [int] and binomial coefficients *)

Lemma wrap_small z : CInt.INT_MIN <= z <= CInt.INT_MAX -> CInt.wrap z = z.
Proof.
  unfold CInt.wrap, CInt.INT_MIN, CInt.INT_MAX. intros H.
  rewrite Z.mod_small; lia.
Qed.

Lemma choose_nonneg n k : 0 <= choose n k.
Proof.
  revert k. induction n as [|n IH]; intros [|k]; simpl; try lia.
  specialize (IH k) as H1. specialize (IH (S k)) as H2. lia.
Qed.

Lemma choose_above n k : (n < k)%nat -> choose n k = 0.
Proof.
  revert k. induction n as [|n IH]; intros [|k] H; simpl; try lia.
  rewrite !IH by lia. lia.
Qed.

Lemma choose_diag n : choose n n = 1.
Proof.
  induction n as [|n IH]; simpl; [reflexivity|].
  rewrite IH, choose_above by lia. lia.
Qed.

Lemma choose_pos n k : (k <= n)%nat -> 1 <= choose n k.
Proof.
  revert k. induction n as [|n IH]; intros [|k] H; simpl; try lia.
  specialize (IH k ltac:(lia)). pose proof (choose_nonneg n (S k)). lia.
Qed.

Lemma choose_absorb n k :
  Z.of_nat (S k) * choose (S n) (S k) = Z.of_nat (S n) * choose n k.
Proof.
  revert k. induction n as [|n IH]; intros k.
  - destruct k as [|k]; simpl; [lia|]. destruct k; simpl; lia.
  - change (choose (S (S n)) (S k)) with (choose (S n) k + choose (S n) (S k)).
    destruct k as [|k].
    + pose proof (IH 0%nat) as H1.
      assert (H0 : forall m, choose m 0 = 1) by (intros [|m]; reflexivity).
      rewrite !H0 in *. lia.
    + pose proof (IH k) as H1. pose proof (IH (S k)) as H2.
      assert (E : choose (S n) (S k) = choose n k + choose n (S k)) by reflexivity.
      rewrite !Nat2Z.inj_succ in *.
      set (a := choose (S n) (S k)) in *. set (b := choose (S n) (S (S k))) in *.
      set (c := choose n k) in *. set (d := choose n (S k)) in *.
      nia.
Qed.

Lemma choose_sym n k : (k <= n)%nat -> choose n (n - k) = choose n k.
Proof.
  revert k. induction n as [|n IH]; intros k H.
  - replace k with 0%nat by lia. reflexivity.
  - destruct k as [|k].
    + rewrite Nat.sub_0_r. rewrite choose_diag. reflexivity.
    + simpl Nat.sub.
      change (choose (S n) (S k)) with (choose n k + choose n (S k)).
      destruct (Nat.eq_dec k n) as [->|Hne].
      * rewrite Nat.sub_diag, choose_diag, (choose_above n (S n)) by lia. reflexivity.
      * replace (n - k)%nat with (S (n - S k)) by lia.
        change (choose (S n) (S (n - S k))) with (choose n (n - S k) + choose n (S (n - S k))).
        rewrite IH by lia. replace (S (n - S k)) with (n - k)%nat by lia.
        rewrite IH by lia. lia.
Qed.

Lemma in_rangeb_true z : CInt.in_range z -> CInt.in_rangeb z = true.
Proof.
  unfold CInt.in_range, CInt.in_rangeb. intros [H1 H2]. apply andb_true_iff.
  split; apply Z.leb_le; assumption.
Qed.

Lemma in_rangeb_range z : CInt.in_rangeb z = true -> CInt.in_range z.
Proof.
  unfold CInt.in_range, CInt.in_rangeb. intros H. apply andb_true_iff in H as [H1 H2].
  split; apply Z.leb_le; assumption.
Qed.

(** Small literals are in the range of [int]. *)
Ltac ints_ok :=
  repeat first [apply Forall_nil | apply Forall_cons | split];
  unfold CInt.in_range, CInt.INT_MIN, CInt.INT_MAX; simpl; lia.

(** ** Binomial *)

Lemma fits_pred n k :
  Z.of_nat (S k) * choose (S n) (S k) <= CInt.INT_MAX ->
  (k <= n)%nat ->
  Z.of_nat k * choose n k <= CInt.INT_MAX /\ Z.of_nat (S n) <= CInt.INT_MAX.
Proof.
  intros H Hk. rewrite choose_absorb in H.
  pose proof (choose_pos n k Hk). nia.
Qed.

Lemma Binomial_rec_value fuel : forall (n k : nat) w,
  (k <= n)%nat -> (k <= fuel)%nat ->
  Z.of_nat k * choose n k <= CInt.INT_MAX ->
  Binomial_rec fuel (Z.of_nat n) (Z.of_nat k) w = Ret (choose n k) w.
Proof.
  induction fuel as [|fuel IH]; intros n k w Hkn Hf Hfit.
  - assert (k = 0%nat) by lia. subst k. destruct n; reflexivity.
  - destruct k as [|k].
    + simpl. destruct (Z.of_nat n <? 0) eqn:E; [lia|]. destruct n; reflexivity.
    + destruct n as [|n]; [lia|].
      destruct (fits_pred n k Hfit ltac:(lia)) as [Hfit' Hn].
      cbn [Binomial_rec].
      replace (Z.of_nat (S n) <? Z.of_nat (S k)) with false
        by (symmetry; apply Z.ltb_ge; clear - Hkn; lia).
      replace (Z.of_nat (S k) <? 0) with false
        by (symmetry; apply Z.ltb_ge; clear; lia).
      replace (Z.of_nat (S k) =? 0) with false
        by (symmetry; apply Z.eqb_neq; clear; lia).
      cbn [orb]. unfold bind.
      assert (En : Z.of_nat (S n) -i 1 = Z.of_nat n).
      { unfold CInt.sub. rewrite wrap_small; unfold CInt.INT_MIN; lia. }
      assert (Ek : Z.of_nat (S k) -i 1 = Z.of_nat k).
      { unfold CInt.sub. rewrite wrap_small; unfold CInt.INT_MIN, CInt.INT_MAX in *; lia. }
      rewrite En, Ek, IH by lia. unfold ret. f_equal.
      pose proof (choose_absorb n k) as Ha.
      pose proof (choose_pos (S n) (S k) ltac:(lia)) as Hp.
      pose proof (choose_nonneg n k) as Hq.
      assert (Hprod : choose n k * Z.of_nat (S n) = choose (S n) (S k) * Z.of_nat (S k))
        by (rewrite (Z.mul_comm (choose n k)), <- Ha; apply Z.mul_comm).
      assert (H0 : 0 <= choose n k * Z.of_nat (S n))
        by (apply Z.mul_nonneg_nonneg; [exact Hq|apply Nat2Z.is_nonneg]).
      assert (H1 : choose n k * Z.of_nat (S n) <= CInt.INT_MAX)
        by (rewrite Hprod, Z.mul_comm; exact Hfit).
      unfold CInt.mul, CInt.div.
      rewrite (wrap_small (choose n k * Z.of_nat (S n)))
        by (split; [transitivity 0; [discriminate|exact H0]|exact H1]).
      rewrite Hprod, Z.quot_mul by (clear; lia).
      apply wrap_small. rewrite Hprod in H1.
      set (c := choose (S n) (S k)) in *. set (m := Z.of_nat (S k)) in *.
      assert (1 <= m) by (subst m; clear; lia).
      unfold CInt.INT_MIN, CInt.INT_MAX in *. clear - Hp H H1. nia.
Qed.

Lemma Binomial_value n k w :
  0 <= k <= n -> fits n k -> Binomial n k w = Ret (chooseZ n k) w.
Proof.
  intros Hk Hfit. unfold Binomial, chooseZ.
  rewrite <- (Z2Nat.id n) at 1 by lia. rewrite <- (Z2Nat.id k) at 2 by lia.
  apply Binomial_rec_value; try lia.
  unfold fits, chooseZ in Hfit. rewrite Z2Nat.id by lia. exact Hfit.
Qed.

Lemma chooseZ_sym n k : 0 <= k <= n -> chooseZ n (n - k) = chooseZ n k.
Proof.
  intros H. unfold chooseZ. rewrite Z2Nat.inj_sub by lia.
  apply choose_sym. lia.
Qed.

Lemma chooseZ_pascal n k :
  0 < k -> 0 < n -> chooseZ n k = chooseZ (n - 1) (k - 1) + chooseZ (n - 1) k.
Proof.
  intros Hk Hn. unfold chooseZ.
  replace (Z.to_nat n) with (S (Z.to_nat (n - 1))) by lia.
  replace (Z.to_nat k) with (S (Z.to_nat (k - 1))) at 1 by lia.
  cbn [choose]. replace (S (Z.to_nat (k - 1))) with (Z.to_nat k) by lia.
  reflexivity.
Qed.

Lemma chooseZ_nonneg n k : 0 <= chooseZ n k.
Proof. apply choose_nonneg. Qed.

Lemma fits_pascal n k :
  0 < k < n -> fits n k -> fits (n - 1) (k - 1) /\ fits (n - 1) k.
Proof.
  intros Hk Hfit. unfold fits in *.
  rewrite (chooseZ_pascal n k) in Hfit by lia.
  pose proof (chooseZ_nonneg (n - 1) (k - 1)). pose proof (chooseZ_nonneg (n - 1) k).
  split; nia.
Qed.

(** C7, as the code has it: while no product of the recursion leaves the
    range of [int], [Binomial(n,k)] is the number of [k]-subsets of an
    [n]-set, so that [Binomial(n,k) = Binomial(n,n-k)] and
    [Binomial(n,0) = 1] for [0 <= k <= n], and
    [Binomial(n,k) = Binomial(n-1,k-1) + Binomial(n-1,k)] for [0 < k < n],
    the arguments at which both calls on the right return. *)
Theorem Binomial_identities_in_range (n k : Z) (w : world) :
  0 <= k <= n -> fits n k -> fits n (n - k) ->
  Binomial n k w = Ret (chooseZ n k) w /\
  Binomial_symmetry n k w /\
  Binomial_zero n w /\
  (0 < k < n -> Binomial_pascal n k w).
Proof.
  intros Hk Hfit Hfit'. split; [|split; [|split]].
  - apply Binomial_value; assumption.
  - exists (chooseZ n k). split.
    + apply Binomial_value; assumption.
    + rewrite <- chooseZ_sym by lia. apply Binomial_value; [lia|assumption].
  - unfold Binomial_zero, Binomial. simpl.
    destruct (n <? 0) eqn:E; [lia|reflexivity].
  - intros Hk'. destruct (fits_pascal n k Hk' Hfit) as [F1 F2].
    exists (chooseZ n k), (chooseZ (n - 1) (k - 1)), (chooseZ (n - 1) k).
    repeat split.
    + apply Binomial_value; assumption.
    + apply Binomial_value; [lia|assumption].
    + apply Binomial_value; [lia|assumption].
    + apply chooseZ_pascal; lia.
Qed.

Lemma Binomial_identities_in_range_witness :
  Binomial 5 2 quiet = Ret (chooseZ 5 2) quiet /\
  Binomial_symmetry 5 2 quiet /\
  Binomial_zero 5 quiet /\
  (0 < 2 < 5 -> Binomial_pascal 5 2 quiet).
Proof.
  apply (Binomial_identities_in_range 5 2 quiet).
  - lia.
  - unfold fits. vm_compute. discriminate.
  - unfold fits. vm_compute. discriminate.
Defined.

(** The identities fail where a call on the right of Pascal's rule leaves
    the domain of [Binomial] ([k = 0]: [Binomial(0,-1)] ends the process)
    and where a product overflows ([Binomial(29,14)*30] exceeds [INT_MAX]). *)
Lemma Binomial_identities_fail :
  ~ Binomial_identities 1 0 quiet /\ ~ Binomial_identities 30 15 quiet.
Proof.
  split; intros (_ & _ & a & b & c & Ha & Hb & Hc & E).
  - vm_compute in Hb. discriminate Hb.
  - vm_compute in Ha, Hb, Hc.
    injection Ha as <-. injection Hb as <-. injection Hc as <-. discriminate E.
Qed.

(** ** Runs and worlds *)

Lemma bind_Ret {X Y} (m : M X) (f : X -> M Y) w y w' :
  bind m f w = Ret y w' -> exists x w1, m w = Ret x w1 /\ f x w1 = Ret y w'.
Proof.
  unfold bind. destruct (m w) as [x w1| | |]; try discriminate.
  intros H. exists x, w1. split; [reflexivity|exact H].
Qed.

Lemma bind_step {X Y} (m : M X) (f : X -> M Y) w x w1 :
  m w = Ret x w1 -> bind m f w = f x w1.
Proof. unfold bind. intros ->. reflexivity. Qed.

Lemma lift_Ret {X} (o : option X) w x w' :
  lift o w = Ret x w' -> o = Some x /\ w' = w.
Proof.
  destruct o; simpl; unfold ret, undef; intros H; inversion H; subst; auto.
Qed.

Lemma lift_Some {X} (x : X) w : lift (Some x) w = Ret x w.
Proof. reflexivity. Qed.

Lemma same_streams_refl w : same_streams w w.
Proof. repeat split. Qed.

Lemma same_streams_trans w1 w2 w3 :
  same_streams w1 w2 -> same_streams w2 w3 -> same_streams w1 w3.
Proof. unfold same_streams. intros (->&->&->) (->&->&->). auto. Qed.

Lemma all_succeeded_refl w : all_succeeded w w.
Proof. exists []. split; [reflexivity|constructor]. Qed.

Lemma all_succeeded_trans w1 w2 w3 :
  all_succeeded w1 w2 -> all_succeeded w2 w3 -> all_succeeded w1 w3.
Proof.
  intros (p & Hp & Fp) (q & Hq & Fq). exists (p ++ q). split.
  - rewrite Hp, Hq. apply app_assoc.
  - apply Forall_app. auto.
Qed.

Lemma allocates_refl w : allocates w w.
Proof.
  split; [apply same_streams_refl|]. split; [apply all_succeeded_refl|auto].
Qed.

Lemma allocates_trans w1 w2 w3 : allocates w1 w2 -> allocates w2 w3 -> allocates w1 w3.
Proof.
  intros (S1 & A1 & E1) (S2 & A2 & E2). split; [|split].
  - eapply same_streams_trans; eassumption.
  - eapply all_succeeded_trans; eassumption.
  - intros H. specialize (E1 H). subst w2. auto.
Qed.

Lemma malloc_Ret w b w' :
  malloc w = Ret b w' -> same_streams w w' /\ (b = true -> allocates w w').
Proof.
  unfold malloc. destruct w as [ms i o e]. simpl.
  destruct ms as [|b0 bs]; intros H; inversion H; subst.
  - split; [apply same_streams_refl|]. intros _. apply allocates_refl.
  - split; [repeat split|]. intros ->. split; [repeat split|]. split.
    + exists [true]. simpl. split; [reflexivity|]. repeat constructor.
    + unfold enough_memory. simpl. discriminate.
Qed.

Lemma malloc_enough w : enough_memory w -> malloc w = Ret true w.
Proof. unfold enough_memory, malloc. intros ->. reflexivity. Qed.

Lemma malloc_fails w rest :
  mallocs w = false :: rest ->
  malloc w = Ret false (World rest (stdin w) (stdout w) (stderr w)).
Proof. unfold malloc. intros ->. reflexivity. Qed.

Lemma fatal_aborts {X} msg w : aborts (@fatal X msg) w.
Proof. unfold aborts, fatal. eexists _, _. split; [reflexivity|]. simpl. auto. Qed.

Lemma fatal_not_Ret {X} msg w (x : X) w' : fatal msg w <> Ret x w'.
Proof. discriminate. Qed.

Lemma IntList_Ret length w L w' :
  IntList length w = Ret L w' ->
  0 <= length /\ L = length :: repeat 0 (Z.to_nat length) /\ allocates w w'.
Proof.
  unfold IntList. destruct (length <? 0) eqn:E; [discriminate|].
  intros H. apply bind_Ret in H as (ok & w1 & Hm & H).
  apply malloc_Ret in Hm as [_ Hm]. destruct ok; simpl in H; [|discriminate].
  inversion H; subst. split; [lia|]. split; [reflexivity|]. auto.
Qed.

Lemma IntList_enough length w :
  0 <= length -> enough_memory w ->
  IntList length w = Ret (length :: repeat 0 (Z.to_nat length)) w.
Proof.
  intros Hl Hw. unfold IntList. destruct (length <? 0) eqn:E; [lia|].
  rewrite (bind_step _ _ _ _ _ (malloc_enough w Hw)). reflexivity.
Qed.

Lemma Binomial_rec_Ret fuel : forall n k w v w',
  Binomial_rec fuel n k w = Ret v w' -> w' = w.
Proof.
  induction fuel as [|fuel IH]; intros n k w v w'; simpl;
    destruct ((n <? k) || (k <? 0)); try discriminate;
    destruct (k =? 0); try discriminate; unfold ret;
    try (intros H; inversion H; reflexivity).
  intros H. apply bind_Ret in H as (b & w1 & Hb & H).
  apply IH in Hb. inversion H; subst. reflexivity.
Qed.

Lemma Binomial_Ret n k w v w' : Binomial n k w = Ret v w' -> w' = w.
Proof. apply Binomial_rec_Ret. Qed.

Lemma fill_table_Ret count : forall i n k cells table w t w',
  fill_table count i n k cells table w = Ret t w' -> allocates w w'.
Proof.
  induction count as [|c IH]; intros i n k cells table w t w'; simpl.
  - unfold ret. intros H; inversion H. apply allocates_refl.
  - destruct (cells <=? i); [discriminate|].
    intros H. apply bind_Ret in H as (cur & w1 & Hc & H).
    apply IntList_Ret in Hc as (_ & _ & Hc).
    apply bind_Ret in H as (prev & w2 & Hp & H). apply lift_Ret in Hp as [_ ->].
    apply bind_Ret in H as (cur' & w3 & Hs & H). apply lift_Ret in Hs as [_ ->].
    apply IH in H. eapply allocates_trans; eassumption.
Qed.

Lemma Combinations_Ret n k w t w' :
  Combinations n k w = Ret t w' -> allocates w w'.
Proof.
  unfold Combinations. destruct ((n <? k) || (k <? 0)); [discriminate|].
  intros H. apply bind_Ret in H as (binom & w1 & Hb & H).
  apply Binomial_Ret in Hb. subst w1.
  apply bind_Ret in H as (ok & w1 & Hm & H).
  apply malloc_Ret in Hm as [_ Hm]. destruct ok; simpl in H; [|discriminate].
  destruct (CInt.to_unsigned (binom +i 1) <=? 1); [discriminate|].
  apply bind_Ret in H as (c1 & w2 & Hc & H).
  apply IntList_Ret in Hc as (_ & _ & Hc).
  apply bind_Ret in H as (c1' & w3 & Hl & H). apply lift_Ret in Hl as [_ ->].
  apply fill_table_Ret in H.
  eapply allocates_trans; [apply Hm; reflexivity|].
  eapply allocates_trans; eassumption.
Qed.

Lemma branches_Ret call :
  (forall A r w res w', call A r w = Ret res w' -> allocates w w') ->
  forall count i k r A w res w',
    branches call count i k r A w = Ret res w' -> allocates w w'.
Proof.
  intros Hcall. induction count as [|c IH]; intros i k r A w res w'; simpl.
  - unfold ret. intros H; inversion H. apply allocates_refl.
  - intros H. apply bind_Ret in H as (r' & w1 & Hr & H). apply lift_Ret in Hr as [_ ->].
    apply bind_Ret in H as (A1 & w1 & HA & H). apply lift_Ret in HA as [_ ->].
    apply bind_Ret in H as ([tp A2] & w1 & Hc & H). apply Hcall in Hc.
    destruct tp; simpl in H.
    + apply bind_Ret in H as (A3 & w2 & HA & H). apply lift_Ret in HA as [_ ->].
      apply IH in H. eapply allocates_trans; eassumption.
    + unfold ret in H. inversion H; subst. exact Hc.
Qed.

Lemma TransversalProperty_Ret fuel :
  forall n k cosetreps adj comb A R newpoint w res w',
    TransversalProperty fuel n k cosetreps adj comb A R newpoint w = Ret res w' ->
    allocates w w'.
Proof.
  induction fuel as [|fuel IH]; intros n k cosetreps adj comb A R newpoint w res w';
    [discriminate|].
  cbn [TransversalProperty]. intros H.
  apply bind_Ret in H as (ok & w1 & Hm & H).
  apply malloc_Ret in Hm as [_ Hm]. destruct ok; simpl in H; [|discriminate].
  apply bind_Ret in H as (ok' & w2 & Hm' & H).
  apply malloc_Ret in Hm' as [_ Hm']. destruct ok'; simpl in H; [|discriminate].
  specialize (Hm eq_refl). specialize (Hm' eq_refl).
  assert (Hw : allocates w w2) by (eapply allocates_trans; eassumption).
  apply bind_Ret in H as (fl & w3 & Hs & H). apply lift_Ret in Hs as [_ ->].
  destruct fl as [[Rnew Rnewcount]|u].
  - destruct (Rnewcount =? 0).
    + unfold ret in H. inversion H; subst. exact Hw.
    + apply bind_Ret in H as ([r Rnew'] & w3 & Hp & H). apply lift_Ret in Hp as [_ ->].
      eapply allocates_trans; [exact Hw|].
      eapply branches_Ret; [|exact H]. intros A0 r0 w0 res0 w0'. apply IH.
  - unfold ret in H. inversion H; subst. exact Hw.
Qed.

(** ** Fatal errors *)

Lemma Binomial_rec_returns fuel : forall n k w,
  0 <= k <= n -> n <= CInt.INT_MAX -> (Z.to_nat k <= fuel)%nat ->
  exists v, Binomial_rec fuel n k w = Ret v w.
Proof.
  induction fuel as [|fuel IH]; intros n k w Hk Hn Hf.
  - assert (k = 0) by lia. subst k. simpl.
    replace (n <? 0) with false by (symmetry; apply Z.ltb_ge; lia).
    eexists; reflexivity.
  - cbn [Binomial_rec].
    replace (n <? k) with false by (symmetry; apply Z.ltb_ge; lia).
    replace (k <? 0) with false by (symmetry; apply Z.ltb_ge; lia).
    cbn [orb]. destruct (k =? 0) eqn:E; [eexists; reflexivity|].
    apply Z.eqb_neq in E.
    assert (En : n -i 1 = n - 1)
      by (apply wrap_small; unfold CInt.INT_MIN, CInt.INT_MAX in *; lia).
    assert (Ek : k -i 1 = k - 1)
      by (apply wrap_small; unfold CInt.INT_MIN, CInt.INT_MAX in *; lia).
    rewrite En, Ek.
    destruct (IH (n - 1) (k - 1) w) as [v Hv]; try lia.
    rewrite (bind_step _ _ _ _ _ Hv). eexists; reflexivity.
Qed.

Lemma Binomial_returns n k w :
  0 <= k <= n -> n <= CInt.INT_MAX -> exists v, Binomial n k w = Ret v w.
Proof. intros. apply Binomial_rec_returns; auto. Qed.

Lemma Binomial_guard n k w : n < k \/ k < 0 -> aborts (Binomial n k) w.
Proof.
  intros H. unfold Binomial.
  assert (E : (n <? k) || (k <? 0) = true).
  { apply orb_true_iff. destruct H; [left; apply Z.ltb_lt|right; apply Z.ltb_lt]; lia. }
  destruct (Z.to_nat k); simpl; rewrite E; apply fatal_aborts.
Qed.

Lemma Combinations_guard n k w : n < k \/ k < 0 -> aborts (Combinations n k) w.
Proof.
  intros H. unfold Combinations.
  assert (E : (n <? k) || (k <? 0) = true).
  { apply orb_true_iff. destruct H; [left; apply Z.ltb_lt|right; apply Z.ltb_lt]; lia. }
  rewrite E. apply fatal_aborts.
Qed.

Lemma aborts_bind_fatal {X Y} (m : M X) (f : X -> M Y) w x w1 msg :
  m w = Ret x w1 -> stderr w1 = stderr w -> stdout w1 = stdout w ->
  f x = fatal msg -> aborts (bind m f) w.
Proof.
  intros Hm He Ho Hf. unfold aborts. rewrite (bind_step _ _ _ _ _ Hm), Hf.
  unfold fatal. eexists _, _. split; [reflexivity|]. simpl. rewrite He, Ho. auto.
Qed.

Lemma IntList_no_memory length w rest :
  0 <= length -> mallocs w = false :: rest -> aborts (IntList length) w.
Proof.
  intros Hl Hm. unfold IntList.
  replace (length <? 0) with false by (symmetry; apply Z.ltb_ge; lia).
  eapply aborts_bind_fatal; [apply (malloc_fails _ _ Hm)|reflexivity..].
Qed.

Lemma Combinations_no_memory n k w rest :
  0 <= k <= n -> n <= CInt.INT_MAX -> mallocs w = false :: rest ->
  aborts (Combinations n k) w.
Proof.
  intros Hk Hn Hm. unfold Combinations.
  replace (n <? k) with false by (symmetry; apply Z.ltb_ge; lia).
  replace (k <? 0) with false by (symmetry; apply Z.ltb_ge; lia).
  cbn [orb]. destruct (Binomial_returns n k w Hk Hn) as [v Hv].
  unfold aborts. rewrite (bind_step _ _ _ _ _ Hv).
  rewrite (bind_step _ _ _ _ _ (malloc_fails _ _ Hm)). simpl.
  unfold fatal. eexists _, _. split; [reflexivity|]. simpl. auto.
Qed.

Lemma TransversalProperty_no_memory fuel n k cosetreps adj comb A R newpoint w rest :
  mallocs w = false :: rest \/ mallocs w = true :: false :: rest ->
  aborts (TransversalProperty (S fuel) n k cosetreps adj comb A R newpoint) w.
Proof.
  intros [Hm|Hm]; cbn [TransversalProperty]; unfold aborts, bind, malloc;
    rewrite Hm; simpl; unfold fatal; eexists _, _; (split; [reflexivity|]);
    simpl; auto.
Qed.

Lemma setup_guard w n k rest :
  stdin w = n :: k :: rest -> CInt.in_range n -> CInt.in_range k ->
  k < 2 \/ k > n -> aborts setup w.
Proof.
  intros Hs Hn Hk H. unfold setup, aborts, bind, scan_int. rewrite Hs.
  rewrite (in_rangeb_true n Hn). cbn [stdin]. rewrite (in_rangeb_true k Hk).
  assert (E : (k <? 2) || (k >? n) = true).
  { apply orb_true_iff. destruct H; [left; apply Z.ltb_lt|right; apply Z.gtb_lt]; lia. }
  rewrite E. unfold fatal. eexists _, _. split; [reflexivity|]. simpl. auto.
Qed.

Lemma IntListRead_guard w length rest :
  stdin w = length :: rest -> CInt.in_range length -> length < 0 ->
  aborts IntListRead w.
Proof.
  intros Hs Hr H. unfold IntListRead, aborts, bind, scan_int. rewrite Hs.
  rewrite (in_rangeb_true length Hr).
  replace (length <? 0) with true by (symmetry; apply Z.ltb_lt; lia).
  unfold fatal. eexists _, _. split; [reflexivity|]. simpl. auto.
Qed.

Lemma IntListRead_no_memory w length rest ms :
  stdin w = length :: rest -> CInt.in_range length -> 0 <= length ->
  mallocs w = false :: ms -> aborts IntListRead w.
Proof.
  intros Hs Hr H Hm. unfold IntListRead, aborts, bind, scan_int. rewrite Hs.
  rewrite (in_rangeb_true length Hr).
  replace (length <? 0) with false by (symmetry; apply Z.ltb_ge; lia).
  unfold IntList. replace (length <? 0) with false by (symmetry; apply Z.ltb_ge; lia).
  unfold bind, malloc. cbn [mallocs]. rewrite Hm. cbn [negb].
  unfold fatal. eexists _, _. split; [reflexivity|]. simpl. auto.
Qed.

Lemma setup_no_memory w n k rest ms :
  stdin w = n :: k :: rest -> CInt.in_range n -> CInt.in_range k ->
  2 <= k <= n -> mallocs w = false :: ms -> aborts setup w.
Proof.
  intros Hs Hn Hk H Hm. unfold setup, aborts, bind, scan_int. rewrite Hs.
  rewrite (in_rangeb_true n Hn). cbn [stdin]. rewrite (in_rangeb_true k Hk).
  replace (k <? 2) with false by (symmetry; apply Z.ltb_ge; lia).
  replace (k >? n) with false by (rewrite Z.gtb_ltb; symmetry; apply Z.ltb_ge; lia).
  cbn [orb]. unfold malloc. cbn [mallocs]. rewrite Hm. cbn [negb].
  unfold fatal. eexists _, _. split; [reflexivity|]. simpl. auto.
Qed.

Lemma IntList_guard length w : length < 0 -> aborts (IntList length) w.
Proof.
  intros H. unfold IntList.
  replace (length <? 0) with true by (symmetry; apply Z.ltb_lt; lia).
  apply fatal_aborts.
Qed.

(** C9, as the code has it: a negative length given to [IntList] or read
    by [IntListRead], [n<k] or [k<0] given to [Binomial] or [Combinations],
    [k<2] or [k>n] read by [main] (the numbers read being in the range of
    [int]), and a failed allocation, also one made by [IntList] for
    [IntListRead] or the first one of [main], each end the process at once
    with a diagnostic and the status [EXIT_FAILURE], which is not zero; and
    no function of the core returns after an allocation failed. *)
Theorem core_errors_abort :
  EXIT_FAILURE <> 0 /\
  (forall length w, length < 0 -> aborts (IntList length) w) /\
  (forall w length rest,
      stdin w = length :: rest -> CInt.in_range length -> length < 0 ->
      aborts IntListRead w) /\
  (forall n k w, n < k \/ k < 0 ->
      aborts (Binomial n k) w /\ aborts (Combinations n k) w) /\
  (forall w n k rest,
      stdin w = n :: k :: rest -> CInt.in_range n -> CInt.in_range k ->
      k < 2 \/ k > n -> aborts setup w) /\
  (forall w rest length,
      mallocs w = false :: rest -> 0 <= length -> aborts (IntList length) w) /\
  (forall w rest n k,
      mallocs w = false :: rest -> 0 <= k <= n -> n <= CInt.INT_MAX ->
      aborts (Combinations n k) w) /\
  (forall w rest fuel n k cosetreps adj comb A R newpoint,
      mallocs w = false :: rest \/ mallocs w = true :: false :: rest ->
      aborts (TransversalProperty (S fuel) n k cosetreps adj comb A R newpoint) w) /\
  (forall length w L w', IntList length w = Ret L w' -> all_succeeded w w') /\
  (forall n k w t w', Combinations n k w = Ret t w' -> all_succeeded w w') /\
  (forall fuel n k cosetreps adj comb A R newpoint w res w',
      TransversalProperty fuel n k cosetreps adj comb A R newpoint w = Ret res w' ->
      all_succeeded w w') /\
  (forall w length rest ms,
      stdin w = length :: rest -> CInt.in_range length -> 0 <= length ->
      mallocs w = false :: ms -> aborts IntListRead w) /\
  (forall w n k rest ms,
      stdin w = n :: k :: rest -> CInt.in_range n -> CInt.in_range k ->
      2 <= k <= n -> mallocs w = false :: ms -> aborts setup w).
Proof.
  split; [discriminate|].
  split; [exact IntList_guard|].
  split; [exact IntListRead_guard|].
  split; [intros n k w H; split; [apply Binomial_guard|apply Combinations_guard]; exact H|].
  split; [exact setup_guard|].
  split; [intros w rest length Hm Hl; eapply IntList_no_memory; eassumption|].
  split; [intros w rest n k Hm Hk Hn; eapply Combinations_no_memory; eassumption|].
  split; [intros w rest fuel n k cosetreps adj comb A R newpoint Hm;
          eapply TransversalProperty_no_memory; eassumption|].
  split; [intros length w L w' H; apply IntList_Ret in H as (_ & _ & _ & H & _); exact H|].
  split; [intros n k w t w' H; apply Combinations_Ret in H as (_ & H & _); exact H|].
  split; [intros fuel n k cosetreps adj comb A R newpoint w res w' H;
          apply TransversalProperty_Ret in H as (_ & H & _); exact H|].
  split; [exact IntListRead_no_memory|exact setup_no_memory].
Qed.

Lemma core_errors_abort_witness :
  aborts (IntList (-1)) quiet /\
  aborts IntListRead (World [] [-1] [] []) /\
  aborts (Binomial 2 3) quiet /\
  aborts setup (World [] [3; 1] [] []) /\
  aborts (Combinations 3 2) (World [false] [] [] []) /\
  aborts (TransversalProperty 1 2 2 [] [] [] [] [] 1) (World [true; false] [] [] []) /\
  aborts IntListRead (World [false] [2; 5; 6] [] []) /\
  aborts setup (World [false] [3; 2] [] []).
Proof.
  destruct core_errors_abort
    as (_ & H1 & H2 & H3 & H4 & _ & H6 & H7 & _ & _ & _ & H11 & H12).
  split; [apply H1; lia|].
  split; [apply (H2 _ (-1) []); [reflexivity|unfold CInt.in_range, CInt.INT_MIN, CInt.INT_MAX; lia|lia]|].
  split; [apply H3; lia|].
  split; [apply (H4 _ 3 1 []); [reflexivity| | |lia];
          unfold CInt.in_range, CInt.INT_MIN, CInt.INT_MAX; lia|].
  split; [apply (H6 _ []); [reflexivity|lia|unfold CInt.INT_MAX; lia]|].
  split; [apply (H7 _ []); right; reflexivity|].
  split; [apply (H11 _ 2 [5; 6] []); [reflexivity| |lia|reflexivity];
          unfold CInt.in_range, CInt.INT_MIN, CInt.INT_MAX; lia|].
  apply (H12 _ 3 2 [] []); [reflexivity| | |lia|reflexivity];
    unfold CInt.in_range, CInt.INT_MIN, CInt.INT_MAX; lia.
Defined.

(** [k<2] is not an error for [Binomial] and [Combinations]: at [n=5] and
    [k=1] both return. *)
Lemma k_below_2_is_not_fatal : ~ fatal_arguments_as_stated 5 1 quiet.
Proof.
  intros H. destruct H as [(w' & msg & H & _) _]; [lia|].
  vm_compute in H. discriminate H.
Qed.

(** ** The driver *)

Lemma scan_int_Ret w z w' :
  scan_int w = Ret z w' ->
  stdin w = z :: stdin w' /\ stdout w' = stdout w /\ stderr w' = stderr w /\
  mallocs w' = mallocs w.
Proof.
  unfold scan_int. destruct (stdin w) as [|z0 zs] eqn:E; [discriminate|].
  destruct (CInt.in_rangeb z0); [|discriminate].
  intros H. inversion H; subst. simpl. auto.
Qed.

(** A run that reads and allocates: the input only shrinks and nothing
    is printed. *)
Lemma reads_trans w1 w2 w3 :
  (List.length (stdin w2) <= List.length (stdin w1))%nat /\ stdout w2 = stdout w1 ->
  (List.length (stdin w3) <= List.length (stdin w2))%nat /\ stdout w3 = stdout w2 ->
  (List.length (stdin w3) <= List.length (stdin w1))%nat /\ stdout w3 = stdout w1.
Proof. intros [H1 ->] [H2 ->]. split; [lia|reflexivity]. Qed.

Lemma allocates_reads w w' :
  allocates w w' ->
  (List.length (stdin w') <= List.length (stdin w))%nat /\ stdout w' = stdout w.
Proof. intros ((-> & -> & _) & _). auto. Qed.

Lemma read_cells_Ret count : forall i L w L' w',
  read_cells count i L w = Ret L' w' ->
  (List.length (stdin w') <= List.length (stdin w))%nat /\ stdout w' = stdout w.
Proof.
  induction count as [|c IH]; intros i L w L' w'; simpl.
  - unfold ret. intros H; inversion H. auto.
  - intros H. apply bind_Ret in H as (v & w1 & Hv & H).
    apply scan_int_Ret in Hv as (Hi & Ho & _).
    apply bind_Ret in H as (L1 & w2 & HL & H). apply lift_Ret in HL as [_ ->].
    apply IH in H as [H1 H2]. rewrite Hi. simpl. split; [lia|congruence].
Qed.

Lemma IntListRead_Ret w L w' :
  IntListRead w = Ret L w' ->
  (List.length (stdin w') < List.length (stdin w))%nat /\ stdout w' = stdout w.
Proof.
  unfold IntListRead. intros H. apply bind_Ret in H as (len & w1 & Hv & H).
  apply scan_int_Ret in Hv as (Hi & Ho & _).
  destruct (len <? 0); [discriminate|].
  apply bind_Ret in H as (L0 & w2 & HL & H).
  apply IntList_Ret in HL as (_ & _ & HL). apply allocates_reads in HL as [H1 H2].
  apply read_cells_Ret in H as [H3 H4]. rewrite Hi. simpl. split; [lia|congruence].
Qed.

Lemma read_lists_Ret count : forall w Ls w',
  read_lists count w = Ret Ls w' ->
  (List.length (stdin w') <= List.length (stdin w))%nat /\ stdout w' = stdout w.
Proof.
  induction count as [|c IH]; intros w Ls w'; simpl.
  - unfold ret. intros H; inversion H. auto.
  - intros H. apply bind_Ret in H as (L & w1 & HL & H).
    apply IntListRead_Ret in HL as [H1 H2].
    apply bind_Ret in H as (Ls' & w2 & HLs & H). apply IH in HLs as [H3 H4].
    unfold ret in H. inversion H; subst. split; [lia|congruence].
Qed.

Lemma setup_Ret w s w' : setup w = Ret s w' -> stdout w' = stdout w.
Proof.
  unfold setup. intros H.
  apply bind_Ret in H as (n & w1 & Hn & H). apply scan_int_Ret in Hn as (_ & Ho1 & _).
  apply bind_Ret in H as (k & w2 & Hk & H). apply scan_int_Ret in Hk as (_ & Ho2 & _).
  destruct ((k <? 2) || (k >? n)); [discriminate|].
  apply bind_Ret in H as (ok & w3 & Hm & H).
  apply malloc_Ret in Hm as [(_ & Ho3 & _) _]. destruct ok; simpl in H; [|discriminate].
  apply bind_Ret in H as (cr & w4 & Hcr & H). apply read_lists_Ret in Hcr as [_ Ho4].
  apply bind_Ret in H as (adj & w5 & Hadj & H). apply IntListRead_Ret in Hadj as [_ Ho5].
  apply bind_Ret in H as (comb & w6 & Hc & H).
  apply Combinations_Ret in Hc as ((_ & Ho6 & _) & _).
  apply bind_Ret in H as (A & w7 & HA & H).
  apply IntList_Ret in HA as (_ & _ & (_ & Ho7 & _) & _).
  apply bind_Ret in H as (ok' & w8 & Hm' & H).
  apply malloc_Ret in Hm' as [(_ & Ho8 & _) _]. destruct ok'; simpl in H; [|discriminate].
  unfold ret in H. inversion H; subst. congruence.
Qed.

Lemma last_true_tail (results : list bool) d :
  last (true :: results) d = last results true.
Proof.
  destruct results as [|b rs]; [reflexivity|].
  change (last (true :: b :: rs) d) with (last (b :: rs) d).
  revert b. induction rs as [|c rs IH]; intros b; [reflexivity|].
  change (last (b :: c :: rs) d) with (last (c :: rs) d).
  change (last (b :: c :: rs) true) with (last (c :: rs) true). apply IH.
Qed.

Lemma trial_run_trials fuel s A R w results w' :
  trial_run fuel s A R w results w' ->
  forall count result,
    (List.length (stdin w) < count)%nat ->
    trials count fuel s A R result w = Ret (last results result) w' /\
    stdout w' = stdout w.
Proof.
  induction 1 as [A R w shortrep w1 Hread Hlen
                 |A R w shortrep w1 len A1 R1 first A2 w2 Hread Hlen Hne Hinit Hfirst Htp
                 |A R w shortrep w1 len A1 R1 first A2 w2 results w3
                    Hread Hlen Hne Hinit Hfirst Htp Hrun IH];
    intros count result Hc; (destruct count as [|c]; [lia|]); cbn [trials];
    rewrite (bind_step _ _ _ _ _ Hread), Hlen;
    rewrite (bind_step _ _ _ _ _ (lift_Some _ _));
    apply IntListRead_Ret in Hread as [Hin Hout].
  - simpl. auto.
  - replace (len =? 0) with false by (symmetry; apply Z.eqb_neq; exact Hne).
    rewrite Hinit, (bind_step _ _ _ _ _ (lift_Some _ _)).
    rewrite Hfirst, (bind_step _ _ _ _ _ (lift_Some _ _)).
    cbn [fst snd]. rewrite (bind_step _ _ _ _ _ Htp). simpl.
    apply TransversalProperty_Ret in Htp as ((_ & Ho & _) & _).
    split; [reflexivity|congruence].
  - replace (len =? 0) with false by (symmetry; apply Z.eqb_neq; exact Hne).
    rewrite Hinit, (bind_step _ _ _ _ _ (lift_Some _ _)).
    rewrite Hfirst, (bind_step _ _ _ _ _ (lift_Some _ _)).
    cbn [fst snd]. rewrite (bind_step _ _ _ _ _ Htp). cbn [fst snd negb].
    apply TransversalProperty_Ret in Htp as ((Hi & Ho & _) & _).
    destruct (IH c true) as [E1 E2]; [rewrite Hi; lia|].
    rewrite last_true_tail. split; [exact E1|congruence].
Qed.

Lemma trial_run_results fuel s A R w results w' :
  trial_run fuel s A R w results w' ->
  exists m, results = repeat true m \/ results = repeat true m ++ [false].
Proof.
  induction 1 as [| |? ? ? ? ? ? ? ? ? ? ? ? ? ? ? ? ? ? ? ? [m [IH|IH]]].
  - exists 0%nat. left. reflexivity.
  - exists 0%nat. right. reflexivity.
  - exists (S m). left. simpl. congruence.
  - exists (S m). right. simpl. congruence.
Qed.

(** C8: once [main] has set up its tables, it goes through the trials
    of the input in order, stopping at a sequence of length zero or after
    the first trial whose result is false (every result before the last is
    true); it then prints one line, 1 when the result of the last trial is
    true (or there was no trial) and 0 when it is false, and exits with
    [EXIT_SUCCESS]. *)
Theorem driver_prints_last_result (fuel : nat) (w : world) (s : setting)
    (w1 : world) (results : list bool) (w2 : world) :
  setup w = Ret s w1 ->
  trial_run fuel s (set_A s) (set_R s) w1 results w2 ->
  main fuel w = Exited EXIT_SUCCESS
                  (printed w2 ((if last results true then "1" else "0") ++ nl)%string) /\
  stdout w2 = stdout w /\
  (exists m, results = repeat true m \/ results = repeat true m ++ [false]).
Proof.
  intros Hs Hrun. split; [|split].
  - unfold main. rewrite (bind_step _ _ _ _ _ Hs).
    destruct (trial_run_trials _ _ _ _ _ _ _ Hrun
                (S (List.length (stdin w1))) true) as [Ht _]; [lia|].
    unfold bind at 1. cbv beta. rewrite Ht. reflexivity.
  - destruct (trial_run_trials _ _ _ _ _ _ _ Hrun
                (S (List.length (stdin w1))) true) as [_ Ho]; [lia|].
    apply setup_Ret in Hs. congruence.
  - eapply trial_run_results. exact Hrun.
Qed.

(** C10: when the first sequence read for a trial has length zero, [main]
    prints the line 1 and exits with the status 0. *)
Theorem no_trial_prints_one (fuel : nat) (w : world) (s : setting)
    (w1 : world) (shortrep : intlist) (w2 : world) :
  setup w = Ret s w1 ->
  IntListRead w1 = Ret shortrep w2 ->
  Length shortrep = Some 0 ->
  main fuel w = Exited 0 (printed w2 ("1" ++ nl)%string) /\
  stdout w2 = stdout w.
Proof.
  intros Hs Hread Hlen.
  assert (Hrun : trial_run fuel s (set_A s) (set_R s) w1 [] w2)
    by (eapply run_end; eassumption).
  destruct (trial_run_trials _ _ _ _ _ _ _ Hrun
              (S (List.length (stdin w1))) true) as [Ht Ho]; [lia|].
  split.
  - unfold main. rewrite (bind_step _ _ _ _ _ Hs).
    unfold bind at 1. cbv beta. rewrite Ht. reflexivity.
  - apply setup_Ret in Hs. congruence.
Qed.

Lemma no_trial_prints_one_witness :
  exists w2,
    main 3 (World [] [2; 2; 2; 1; 2; 2; 2; 1; 1; 2; 0; 9] [] [])
    = Exited 0 (printed w2 ("1" ++ nl)%string) /\
    stdout w2 = [].
Proof.
  eexists.
  eapply (no_trial_prints_one 3 (World [] [2; 2; 2; 1; 2; 2; 2; 1; 1; 2; 0; 9] [] [])).
  - vm_compute. reflexivity.
  - vm_compute. reflexivity.
  - vm_compute. reflexivity.
Defined.

Lemma driver_prints_last_result_witness :
  exists w2,
    main 3 (World [] [2; 2; 2; 1; 2; 2; 2; 1; 1; 2; 1; 1; 1; 2; 0; 9] [] [])
    = Exited EXIT_SUCCESS
        (printed w2 ((if last [true; true] true then "1" else "0") ++ nl)%string) /\
    stdout w2 = [] /\
    (exists m, [true; true] = repeat true m \/ [true; true] = repeat true m ++ [false]).
Proof.
  eexists.
  eapply (driver_prints_last_result 3
            (World [] [2; 2; 2; 1; 2; 2; 2; 1; 1; 2; 1; 1; 1; 2; 0; 9] [] [])).
  - vm_compute. reflexivity.
  - eapply run_true;
      [vm_compute; reflexivity|vm_compute; reflexivity|discriminate
      |vm_compute; reflexivity|vm_compute; reflexivity|vm_compute; reflexivity|].
    eapply run_true;
      [vm_compute; reflexivity|vm_compute; reflexivity|discriminate
      |vm_compute; reflexivity|vm_compute; reflexivity|vm_compute; reflexivity|].
    eapply run_end; vm_compute; reflexivity.
Defined.

(** ** Arrays and loops *)

Lemma replace_nth_spec {T} (l : list T) : forall i v l',
  replace_nth l i v = Some l' ->
  List.length l' = List.length l /\ nth_error l' i = Some v /\
  (forall j, j <> i -> nth_error l' j = nth_error l j).
Proof.
  induction l as [|h t IH]; intros i v l' H; [destruct i; discriminate|].
  destruct i as [|i]; simpl in H.
  - inversion H; subst. repeat split. intros [|j] Hj; [contradiction|reflexivity].
  - destruct (replace_nth t i v) as [t'|] eqn:E; [|discriminate].
    inversion H; subst. destruct (IH _ _ _ E) as (H1 & H2 & H3).
    split; [simpl; congruence|]. split; [exact H2|].
    intros [|j] Hj; [reflexivity|]. simpl. apply H3. congruence.
Qed.

Lemma replace_nth_defined {T} (l : list T) : forall i v,
  (i < List.length l)%nat -> exists l', replace_nth l i v = Some l'.
Proof.
  induction l as [|h t IH]; intros i v H; [simpl in H; lia|].
  destruct i as [|i]; simpl; [eexists; reflexivity|].
  destruct (IH i v) as [t' ->]; [simpl in H; lia|]. eexists; reflexivity.
Qed.

Lemma replace_nth_restore {T} (l : list T) : forall i v l' u,
  nth_error l i = Some u -> replace_nth l i v = Some l' -> replace_nth l' i u = Some l.
Proof.
  induction l as [|h t IH]; intros i v l' u Hu H; [destruct i; discriminate|].
  destruct i as [|i]; simpl in *.
  - inversion H; inversion Hu; subst. reflexivity.
  - destruct (replace_nth t i v) as [t'|] eqn:E; [|discriminate].
    inversion H; subst. simpl. rewrite (IH _ _ _ _ Hu E). reflexivity.
Qed.

Lemma geti_range (x : intlist) i v :
  geti x i = Some v -> 0 <= i < Z.of_nat (List.length x).
Proof.
  unfold geti. destruct (i <? 0) eqn:E; [discriminate|]. intros H.
  apply Z.ltb_ge in E. assert (nth_error x (Z.to_nat i) <> None) by congruence.
  apply nth_error_Some in H0. lia.
Qed.

Lemma geti_defined (x : intlist) i :
  0 <= i < Z.of_nat (List.length x) -> exists v, geti x i = Some v.
Proof.
  intros H. unfold geti. replace (i <? 0) with false by (symmetry; apply Z.ltb_ge; lia).
  destruct (nth_error x (Z.to_nat i)) eqn:E; [eexists; reflexivity|].
  apply nth_error_None in E. lia.
Qed.

Lemma seti_spec (x : intlist) i v x' :
  seti x i v = Some x' ->
  List.length x' = List.length x /\ geti x' i = Some v /\
  (forall j, j <> i -> geti x' j = geti x j).
Proof.
  unfold seti, geti. destruct (i <? 0) eqn:E; [discriminate|]. intros H.
  apply replace_nth_spec in H as (H1 & H2 & H3). split; [exact H1|]. split; [exact H2|].
  intros j Hj. destruct (j <? 0) eqn:Ej; [reflexivity|].
  apply H3. apply Z.ltb_ge in E, Ej. lia.
Qed.

Lemma seti_defined (x : intlist) i v :
  0 <= i < Z.of_nat (List.length x) -> exists x', seti x i v = Some x'.
Proof.
  intros H. unfold seti. replace (i <? 0) with false by (symmetry; apply Z.ltb_ge; lia).
  apply replace_nth_defined. lia.
Qed.

Lemma seti_restore (x : intlist) i v x' u :
  geti x i = Some u -> seti x i v = Some x' -> seti x' i u = Some x.
Proof.
  unfold seti, geti. destruct (i <? 0); [discriminate|]. apply replace_nth_restore.
Qed.

Lemma get1_range {T} (x : list T) i v :
  get1 x i = Some v -> 1 <= i <= Z.of_nat (List.length x).
Proof.
  unfold get1. destruct (i <? 1) eqn:E; [discriminate|]. intros H.
  apply Z.ltb_ge in E. assert (nth_error x (Z.to_nat (i - 1)) <> None) by congruence.
  apply nth_error_Some in H0. lia.
Qed.

Lemma get1_defined {T} (x : list T) i :
  1 <= i <= Z.of_nat (List.length x) -> exists v, get1 x i = Some v.
Proof.
  intros H. unfold get1. replace (i <? 1) with false by (symmetry; apply Z.ltb_ge; lia).
  destruct (nth_error x (Z.to_nat (i - 1))) eqn:E; [eexists; reflexivity|].
  apply nth_error_None in E. lia.
Qed.

Lemma set1_spec {T} (x : list T) i v x' :
  set1 x i v = Some x' ->
  List.length x' = List.length x /\ get1 x' i = Some v /\
  (forall j, j <> i -> get1 x' j = get1 x j).
Proof.
  unfold set1, get1. destruct (i <? 1) eqn:E; [discriminate|]. intros H.
  apply replace_nth_spec in H as (H1 & H2 & H3). split; [exact H1|]. split; [exact H2|].
  intros j Hj. destruct (j <? 1) eqn:Ej; [reflexivity|].
  apply H3. apply Z.ltb_ge in E, Ej. lia.
Qed.

Lemma set1_defined {T} (x : list T) i v :
  1 <= i <= Z.of_nat (List.length x) -> exists x', set1 x i v = Some x'.
Proof.
  intros H. unfold set1. replace (i <? 1) with false by (symmetry; apply Z.ltb_ge; lia).
  apply replace_nth_defined. lia.
Qed.

Lemma get1_repeat {T} (v : T) n i u : get1 (repeat v n) i = Some u -> u = v.
Proof.
  unfold get1. destruct (i <? 1); [discriminate|]. intros H.
  apply nth_error_In in H. apply repeat_spec in H. exact H.
Qed.

Lemma obind_Some {X Y} (o : option X) (f : X -> option Y) y :
  obind o f = Some y -> exists x, o = Some x /\ f x = Some y.
Proof. destruct o as [x|]; [|discriminate]. intros H. exists x. auto. Qed.

(** Invariants of loops. *)
Lemma iter_up_inv {St} (P : Z -> St -> Prop) (body : Z -> St -> option St) :
  forall count i s s',
    P i s ->
    (forall j s1 s2, i <= j < i + Z.of_nat count -> P j s1 -> body j s1 = Some s2 ->
                     P (j + 1) s2) ->
    iter_up count i body s = Some s' -> P (i + Z.of_nat count) s'.
Proof.
  induction count as [|c IH]; intros i s s' Hs Hbody H.
  - simpl in H. inversion H; subst. rewrite Z.add_0_r. exact Hs.
  - simpl in H. apply obind_Some in H as (s1 & H1 & H).
    replace (i + Z.of_nat (S c)) with ((i + 1) + Z.of_nat c) by lia.
    apply (IH (i + 1) s1); [|intros j a b Hj; apply Hbody; lia|exact H].
    apply (Hbody i s s1); [lia|exact Hs|exact H1].
Qed.

Lemma iter_up_defined {St} (P : Z -> St -> Prop) (body : Z -> St -> option St) :
  forall count i s,
    P i s ->
    (forall j s1, i <= j < i + Z.of_nat count -> P j s1 ->
                  exists s2, body j s1 = Some s2 /\ P (j + 1) s2) ->
    exists s', iter_up count i body s = Some s' /\ P (i + Z.of_nat count) s'.
Proof.
  induction count as [|c IH]; intros i s Hs Hbody.
  - exists s. rewrite Z.add_0_r. split; [reflexivity|exact Hs].
  - destruct (Hbody i s ltac:(lia) Hs) as (s1 & H1 & P1).
    assert (Hb : forall j a, i + 1 <= j < i + 1 + Z.of_nat c -> P j a ->
                   exists s2, body j a = Some s2 /\ P (j + 1) s2)
      by (intros j a Hj; apply Hbody; lia).
    destruct (IH (i + 1) s1 P1 Hb) as (s' & H' & P').
    exists s'. cbn [iter_up]. rewrite H1. cbn [obind].
    replace (i + Z.of_nat (S c)) with ((i + 1) + Z.of_nat c) by lia.
    split; [exact H'|exact P'].
Qed.

Lemma loop_up_inv {St R} (P : Z -> St -> Prop) (Q : R -> Prop)
    (body : Z -> St -> option (flow St R)) :
  forall count i s,
    P i s ->
    (forall j s1, i <= j < i + Z.of_nat count -> P j s1 ->
                  flow_holds (P (j + 1)) Q (body j s1)) ->
    flow_holds (P (i + Z.of_nat count)) Q (loop_up count i body s).
Proof.
  induction count as [|c IH]; intros i s Hs Hbody.
  - simpl. rewrite Z.add_0_r. exact Hs.
  - cbn [loop_up]. pose proof (Hbody i s ltac:(lia) Hs) as Hb.
    destruct (body i s) as [[s1|r]|]; cbn [flow_holds] in *; auto.
    replace (i + Z.of_nat (S c)) with ((i + 1) + Z.of_nat c) by lia.
    apply IH; [exact Hb|]. intros j a Hj. apply Hbody. lia.
Qed.

Lemma loop_up_defined {St R} (P : Z -> St -> Prop)
    (body : Z -> St -> option (flow St R)) :
  forall count i s,
    P i s ->
    (forall j s1, i <= j < i + Z.of_nat count -> P j s1 ->
                  exists fl, body j s1 = Some fl /\
                             match fl with Next s2 => P (j + 1) s2 | Stop _ => True end) ->
    exists fl, loop_up count i body s = Some fl.
Proof.
  induction count as [|c IH]; intros i s Hs Hbody.
  - eexists; reflexivity.
  - cbn [loop_up]. destruct (Hbody i s ltac:(lia) Hs) as (fl & Hfl & Pfl). rewrite Hfl.
    destruct fl as [s1|r]; [|eexists; reflexivity].
    apply IH; [exact Pfl|]. intros j a Hj. apply Hbody. lia.
Qed.

(** ** The buffer [A] across a call *)

Lemma count_copies n k A R Acount Rnewcount Rnew :
  iter_up (Z.to_nat n) 1 (count_body k A R) (0, 0, repeat false (Z.to_nat n))
  = Some (Acount, Rnewcount, Rnew) ->
  List.length Rnew = Z.to_nat n /\
  (forall i, 1 <= i <= n -> get1 Rnew i = get1 R i).
Proof.
  intros H.
  apply (iter_up_inv
           (fun j st => List.length (snd st) = Z.to_nat n /\
                        forall i, 1 <= i < j -> get1 (snd st) i = get1 R i)) in H.
  - cbn [snd] in H. destruct H as [H1 H2]. split; [exact H1|].
    intros i Hi. apply H2. lia.
  - cbn [snd]. split; [apply repeat_length|]. intros i Hi. lia.
  - intros j [[ac rc] Rn] s2 Hj [Hlen Hcopy] Hb. cbn [snd count_body] in *.
    apply obind_Some in Hb as (a & Ha & Hb).
    apply obind_Some in Hb as (b & Hb0 & Hb).
    apply obind_Some in Hb as (Rn' & Hset & Hb).
    inversion Hb; subst. simpl.
    apply set1_spec in Hset as (L & G & O).
    split; [congruence|]. intros i Hi.
    destruct (Z.eq_dec i j) as [->|Hne]; [congruence|].
    rewrite O by exact Hne. apply Hcopy. lia.
Qed.

Lemma check_body_kpoint k A cosetrep c j covered kpoint :
  kpoint_ok k A kpoint ->
  flow_holds (fun st => kpoint_ok k A (snd st)) (kpoint_ok k A)
    (check_body k A cosetrep c j (covered, kpoint)).
Proof.
  intros Hk. unfold check_body.
  destruct (geti c j) as [cj|]; simpl; [|exact I].
  destruct (geti cosetrep cj) as [p|]; simpl; [|exact I].
  destruct (geti A p) as [part|] eqn:Ep; simpl; [|exact I].
  destruct (get1 covered part) as [[|]|]; simpl; [exact Hk| |exact I].
  destruct (set1 covered part true); simpl; [|exact I].
  destruct (part =? k) eqn:E; [|exact Hk].
  apply Z.eqb_eq in E. subst part. intros q Hq. inversion Hq; subst. exact Ep.
Qed.

Lemma candidate_kpoint k A cosetrep c newpoint kpoint injective kpoint' :
  kpoint_ok k A kpoint ->
  candidate k A cosetrep c newpoint kpoint = Some (injective, kpoint') ->
  kpoint_ok k A kpoint'.
Proof.
  intros Hk H. unfold candidate in H.
  apply obind_Some in H as (anp & Ha & H).
  apply obind_Some in H as (covered & Hc & H).
  apply obind_Some in H as (fl & Hfl & H).
  assert (Hk0 : kpoint_ok k A (if anp =? k then Some newpoint else kpoint)).
  { destruct (anp =? k) eqn:E; [|exact Hk]. apply Z.eqb_eq in E. subst anp.
    intros q Hq. inversion Hq; subst. exact Ha. }
  pose proof (loop_up_inv (fun _ st => kpoint_ok k A (snd st)) (kpoint_ok k A)
                (check_body k A cosetrep c) (Z.to_nat (k -i 1 - 1 + 1)) 1
                (covered, if anp =? k then Some newpoint else kpoint) Hk0) as Hl.
  unfold for_up in Hfl. rewrite Hfl in Hl. simpl in Hl.
  assert (Hres : match fl with Next s => kpoint_ok k A (snd s) | Stop r => kpoint_ok k A r end).
  { apply Hl. intros j [cov kp] _ Hkp. apply check_body_kpoint. exact Hkp. }
  destruct fl as [[cov kp]|kp]; inversion H; subst; exact Hres.
Qed.

(** The scan only adds points of [P[k]] to the subset. *)
Lemma scan_body_subset n k comb A cosetrep adj newpoint Acount i Rnew Rnewcount kpoint :
  List.length Rnew = Z.to_nat n ->
  subset_of_last n k A Rnew -> kpoint_ok k A kpoint ->
  flow_holds (fun st => List.length (fst (fst st)) = Z.to_nat n /\
                        subset_of_last n k A (fst (fst st)) /\
                        kpoint_ok k A (snd st))
             (fun _ => True)
    (scan_body n k comb A cosetrep adj newpoint Acount i (Rnew, Rnewcount, kpoint)).
Proof.
  intros Hlen Hsub Hk. unfold scan_body.
  destruct (geti adj i) as [ai|]; simpl; [|exact I].
  destruct (get1 comb ai) as [c|]; simpl; [|exact I].
  destruct (candidate k A cosetrep c newpoint kpoint) as [[injective kpoint']|] eqn:Ec;
    simpl; [|exact I].
  pose proof (candidate_kpoint _ _ _ _ _ _ _ _ Hk Ec) as Hk'.
  destruct injective; [|simpl; auto].
  destruct kpoint' as [kp|]; simpl; [|exact I].
  destruct (get1 Rnew kp) as [[|]|] eqn:Eb; simpl; [auto| |exact I].
  destruct (set1 Rnew kp true) as [Rnew'|] eqn:Es; simpl; [|exact I].
  destruct (early_success n k Acount (Rnewcount +i 1)); simpl; [exact I|].
  apply set1_spec in Es as (L & G & O).
  split; [congruence|]. split; [|exact Hk'].
  intros j Hj Ht. destruct (Z.eq_dec j kp) as [->|Hne]; [apply Hk'; reflexivity|].
  rewrite O in Ht by exact Hne. apply Hsub; assumption.
Qed.

Lemma scan_subset n k cosetreps adj comb A R newpoint Rnew Rnewcount :
  subset_of_last n k A R ->
  scan n k cosetreps adj comb A R newpoint = Some (Next (Rnew, Rnewcount)) ->
  List.length Rnew = Z.to_nat n /\ subset_of_last n k A Rnew.
Proof.
  intros Hsub H. unfold scan in H.
  apply obind_Some in H as ([[Acount Rc] Rn] & Hcount & H).
  apply obind_Some in H as (cosetrep & Hcr & H).
  apply obind_Some in H as (len & Hlen & H).
  apply obind_Some in H as (fl & Hfl & H).
  apply count_copies in Hcount as [Hl Hcopy].
  pose proof (loop_up_inv
                (fun _ st => List.length (fst (fst st)) = Z.to_nat n /\
                             subset_of_last n k A (fst (fst st)) /\
                             kpoint_ok k A (snd st))
                (fun _ : unit => True)
                (scan_body n k comb A cosetrep adj newpoint Acount)
                (Z.to_nat (len - 1 + 1)) 1 (Rn, Rc, None)) as Hinv.
  unfold for_up in Hfl. rewrite Hfl in Hinv.
  destruct fl as [[[Rn' Rc'] kp]|u]; [|discriminate].
  inversion H; subst. simpl in Hinv.
  destruct Hinv as (H1 & H2 & _); [| |auto].
  - split; [exact Hl|]. split; [|intros p Hp; discriminate].
    intros i Hi Ht. apply Hsub; [exact Hi|]. rewrite <- Hcopy by exact Hi. exact Ht.
  - intros j [[Rn1 Rc1] kp1] _ (Ha & Hb & Hc). apply scan_body_subset; assumption.
Qed.

Lemma pick_spec n Rnew r Rnew' :
  pick n Rnew = Some (r, Rnew') ->
  match r with
  | Some p => 1 <= p <= n /\ get1 Rnew p = Some true /\ set1 Rnew p false = Some Rnew' /\
              forall i, 1 <= i < p -> get1 Rnew i = Some false
  | None => Rnew' = Rnew /\ forall i, 1 <= i <= n -> get1 Rnew i = Some false
  end.
Proof.
  intros H. unfold pick in H. apply obind_Some in H as (fl & Hfl & H).
  pose proof (loop_up_inv
                (fun j s => s = Rnew /\ forall i, 1 <= i < j -> get1 Rnew i = Some false)
                (fun res : Z * list bool =>
                   1 <= fst res <= n /\ get1 Rnew (fst res) = Some true /\
                   set1 Rnew (fst res) false = Some (snd res) /\
                   forall i, 1 <= i < fst res -> get1 Rnew i = Some false)
                pick_body (Z.to_nat (n - 1 + 1)) 1 Rnew) as Hinv.
  unfold for_up in Hfl. rewrite Hfl in Hinv.
  assert (Hres : flow_holds
                   (fun s => s = Rnew /\
                             forall i, 1 <= i < 1 + Z.of_nat (Z.to_nat (n - 1 + 1)) ->
                                       get1 Rnew i = Some false)
                   (fun res : Z * list bool =>
                      1 <= fst res <= n /\ get1 Rnew (fst res) = Some true /\
                      set1 Rnew (fst res) false = Some (snd res) /\
                      forall i, 1 <= i < fst res -> get1 Rnew i = Some false)
                   (Some fl)).
  { apply Hinv.
    - split; [reflexivity|]. intros i Hi. lia.
    - intros j s1 Hj [-> Hbelow]. unfold pick_body.
      destruct (get1 Rnew j) as [[|]|] eqn:Eb; simpl; [|split; [reflexivity|]|exact I].
      + destruct (set1 Rnew j false) as [Rn'|] eqn:Es; simpl; [|exact I].
        split; [lia|]. auto.
      + intros i Hi. destruct (Z.eq_dec i j) as [->|Hne]; [exact Eb|].
        apply Hbelow. lia. }
  destruct fl as [s|[p Rn']]; inversion H; subst; cbn [flow_holds fst snd] in Hres.
  - destruct Hres as [-> Hall]. split; [reflexivity|]. intros i Hi. apply Hall. lia.
  - exact Hres.
Qed.

Lemma branches_restore n k call Rnew' p A :
  geti A p = Some k ->
  get1 Rnew' p = Some false ->
  subset_of_last n k A Rnew' ->
  (forall A1 w A2 w',
      subset_of_last n k A1 Rnew' ->
      call A1 p w = Ret (true, A2) w' -> A2 = A1) ->
  forall count i w A' w',
    branches call count i k (Some p) A w = Ret (true, A') w' -> A' = A.
Proof.
  intros Hp Hfalse Hsub Hcall. induction count as [|c IH]; intros i w A' w' H.
  - simpl in H. unfold ret in H. inversion H. reflexivity.
  - cbn [branches] in H.
    apply bind_Ret in H as (r' & w1 & Hr & H). apply lift_Ret in Hr as [Hr ->].
    inversion Hr; subst r'.
    apply bind_Ret in H as (A1 & w1 & HA & H). apply lift_Ret in HA as [HA ->].
    apply bind_Ret in H as ([tp A2] & w1 & Hc & H).
    destruct tp; cbn [negb] in H; [|unfold ret in H; inversion H].
    apply Hcall in Hc.
    + subst A2. apply bind_Ret in H as (A3 & w2 & HA3 & H).
      apply lift_Ret in HA3 as [HA3 ->].
      rewrite (seti_restore _ _ _ _ _ Hp HA) in HA3. inversion HA3; subst A3.
      eapply IH. exact H.
    + intros j Hj Ht. apply seti_spec in HA as (_ & _ & O).
      rewrite O; [apply Hsub; assumption|]. intros ->. congruence.
Qed.

Lemma true_restores fuel : forall n k cosetreps adj comb A R newpoint w A' w',
  subset_of_last n k A R ->
  TransversalProperty fuel n k cosetreps adj comb A R newpoint w = Ret (true, A') w' ->
  A' = A.
Proof.
  induction fuel as [|fuel IH]; intros n k cosetreps adj comb A R newpoint w A' w' Hsub H;
    [discriminate|].
  cbn [TransversalProperty] in H.
  apply bind_Ret in H as (ok & w1 & _ & H). destruct ok; simpl in H; [|discriminate].
  apply bind_Ret in H as (ok' & w2 & _ & H). destruct ok'; simpl in H; [|discriminate].
  apply bind_Ret in H as (fl & w3 & Hs & H). apply lift_Ret in Hs as [Hs ->].
  destruct fl as [[Rnew Rnewcount]|u]; [|unfold ret in H; inversion H; reflexivity].
  destruct (Rnewcount =? 0); [unfold ret in H; inversion H|].
  apply bind_Ret in H as ([r Rnew'] & w3 & Hp & H). apply lift_Ret in Hp as [Hp ->].
  apply scan_subset in Hs as [Hlen Hsub']; [|exact Hsub].
  apply pick_spec in Hp. destruct r as [p|].
  - destruct Hp as (Hr & Ht & Hset & _). apply set1_spec in Hset as (_ & G & O).
    eapply (branches_restore n k _ Rnew' p A); [apply Hsub'; assumption|exact G| | |exact H].
    + intros j Hj Hjt. destruct (Z.eq_dec j p) as [->|Hne]; [congruence|].
      rewrite O in Hjt by exact Hne. apply Hsub'; assumption.
    + intros A1 w0 A2 w0' Hsub1 Hcall. cbv beta in Hcall.
      eapply IH; [exact Hsub1|exact Hcall].
  - destruct (Z.to_nat (k - 1)) as [|c]; cbn [branches] in H.
    + unfold ret in H. inversion H. reflexivity.
    + apply bind_Ret in H as (r' & wr & Hr & _). apply lift_Ret in Hr as [Hr _].
      discriminate.
Qed.

(** ** Counting points *)

Lemma count_upto_bounds f m : 0 <= count_upto f m <= Z.of_nat m.
Proof.
  induction m as [|m IH]; [simpl; lia|].
  cbn [count_upto]. destruct (f (Z.of_nat (S m))); lia.
Qed.

Lemma count_upto_ext f g m :
  (forall i, 1 <= i <= Z.of_nat m -> f i = g i) -> count_upto f m = count_upto g m.
Proof.
  induction m as [|m IH]; intros H; [reflexivity|].
  cbn [count_upto]. rewrite IH by (intros i Hi; apply H; lia).
  rewrite (H (Z.of_nat (S m))) by lia. reflexivity.
Qed.

Lemma count_upto_update f g m p :
  1 <= p <= Z.of_nat m -> f p = false -> g p = true ->
  (forall i, i <> p -> g i = f i) ->
  count_upto g m = count_upto f m + 1.
Proof.
  induction m as [|m IH]; intros Hp Hf Hg Ho; [simpl in Hp; lia|].
  cbn [count_upto]. destruct (Z.eq_dec p (Z.of_nat (S m))) as [E|E].
  - rewrite <- E, Hf, Hg.
    rewrite (count_upto_ext g f m) by (intros i Hi; apply Ho; lia). lia.
  - rewrite IH by (auto; lia). rewrite (Ho (Z.of_nat (S m))) by congruence. lia.
Qed.

Lemma count_upto_disjoint f g m :
  (forall i, 1 <= i <= Z.of_nat m -> f i = true -> g i = false) ->
  count_upto f m + count_upto g m <= Z.of_nat m.
Proof.
  induction m as [|m IH]; intros H; [simpl; lia|].
  cbn [count_upto]. specialize (IH ltac:(intros i Hi; apply H; lia)).
  pose proof (H (Z.of_nat (S m)) ltac:(lia)) as Hm.
  destruct (f (Z.of_nat (S m))); [rewrite Hm by reflexivity; lia|].
  destruct (g (Z.of_nat (S m))); lia.
Qed.

Lemma count_upto_zero f m :
  count_upto f m = 0 <-> forall i, 1 <= i <= Z.of_nat m -> f i = false.
Proof.
  induction m as [|m IH]; [split; [intros _ i Hi; simpl in Hi; lia|reflexivity]|].
  cbn [count_upto]. pose proof (count_upto_bounds f m) as Hb. split.
  - intros H i Hi. destruct (f (Z.of_nat (S m))) eqn:E; [lia|].
    destruct (Z.eq_dec i (Z.of_nat (S m))) as [->|Hne]; [exact E|].
    apply IH; lia.
  - intros H. rewrite (H (Z.of_nat (S m))) by lia.
    assert (count_upto f m = 0) by (apply IH; intros i Hi; apply H; lia). lia.
Qed.

Lemma count_upto_full f m :
  count_upto f m = Z.of_nat m -> forall i, 1 <= i <= Z.of_nat m -> f i = true.
Proof.
  induction m as [|m IH]; intros H i Hi; [simpl in Hi; lia|].
  cbn [count_upto] in H. pose proof (count_upto_bounds f m) as Hb.
  destruct (f (Z.of_nat (S m))) eqn:E; [|lia].
  destruct (Z.eq_dec i (Z.of_nat (S m))) as [->|Hne]; [exact E|].
  apply IH; lia.
Qed.

Lemma count_upto_step f j :
  1 <= j -> count_upto f (Z.to_nat j)
            = count_upto f (Z.to_nat (j - 1)) + (if f j then 1 else 0).
Proof.
  intros Hj. replace (Z.to_nat j) with (S (Z.to_nat (j - 1))) by lia.
  cbn [count_upto]. replace (Z.of_nat (S (Z.to_nat (j - 1)))) with j by lia.
  reflexivity.
Qed.

Lemma add_one_small z : 0 <= z < CInt.INT_MAX -> z +i 1 = z + 1.
Proof.
  intros H. unfold CInt.add. apply wrap_small. unfold CInt.INT_MIN. lia.
Qed.

Lemma in_subset_copy n (R Rnew : list bool) :
  (forall i, 1 <= i <= n -> get1 Rnew i = get1 R i) ->
  forall i, 1 <= i <= n -> in_subset Rnew i = in_subset R i.
Proof. intros H i Hi. unfold in_subset. rewrite H by exact Hi. reflexivity. Qed.

(** The counters after lines 166-175. *)
Lemma count_values n k A R Acount Rnewcount Rnew :
  n <= CInt.INT_MAX ->
  iter_up (Z.to_nat n) 1 (count_body k A R) (0, 0, repeat false (Z.to_nat n))
  = Some (Acount, Rnewcount, Rnew) ->
  Acount = count_upto (in_first k A) (Z.to_nat n) /\
  Rnewcount = count_upto (in_subset R) (Z.to_nat n).
Proof.
  intros Hn H.
  apply (iter_up_inv
           (fun j st => fst (fst st) = count_upto (in_first k A) (Z.to_nat (j - 1)) /\
                        snd (fst st) = count_upto (in_subset R) (Z.to_nat (j - 1)))) in H.
  - cbn [fst snd] in H. replace (1 + Z.of_nat (Z.to_nat n) - 1) with (Z.of_nat (Z.to_nat n)) in H by lia.
    rewrite Nat2Z.id in H. exact H.
  - cbn [fst snd]. split; reflexivity.
  - intros j [[ac rc] Rn] s2 Hj [Hac Hrc] Hb. cbn [fst snd count_body] in *.
    apply obind_Some in Hb as (a & Ha & Hb).
    apply obind_Some in Hb as (b & Hb0 & Hb).
    apply obind_Some in Hb as (Rn' & Hset & Hb).
    inversion Hb; subst. cbn [fst snd].
    replace (j + 1 - 1) with j by lia.
    rewrite !(count_upto_step _ j) by lia.
    pose proof (count_upto_bounds (in_first k A) (Z.to_nat (j - 1))) as B1.
    pose proof (count_upto_bounds (in_subset R) (Z.to_nat (j - 1))) as B2.
    assert (E1 : in_first k A j = (a <? k)) by (unfold in_first; rewrite Ha; reflexivity).
    assert (E2 : in_subset R j = b) by (unfold in_subset; rewrite Hb0; reflexivity).
    rewrite E1, E2. split.
    + destruct (a <? k); [apply add_one_small; lia|lia].
    + destruct b; [apply add_one_small; lia|lia].
Qed.

Lemma count_defined n k A R :
  (forall i, 1 <= i <= n -> exists a, geti A i = Some a) ->
  covers n R ->
  exists st, iter_up (Z.to_nat n) 1 (count_body k A R) (0, 0, repeat false (Z.to_nat n))
             = Some st.
Proof.
  intros HA HR.
  destruct (iter_up_defined
              (fun j st => List.length (snd st) = Z.to_nat n)
              (count_body k A R) (Z.to_nat n) 1 (0, 0, repeat false (Z.to_nat n)))
    as (st & Hst & _).
  - apply repeat_length.
  - intros j [[ac rc] Rn] Hj Hlen. cbn [snd] in Hlen. unfold count_body.
    destruct (HA j ltac:(lia)) as [a ->]. destruct (HR j ltac:(lia)) as [b ->].
    cbn [obind].
    destruct (set1_defined Rn j b ltac:(lia)) as [Rn' Hs]. rewrite Hs.
    cbn [obind]. eexists. split; [reflexivity|]. cbn [snd].
    apply set1_spec in Hs as (L & _). congruence.
  - exists st. exact Hst.
Qed.

(** ** The scan of the adjacency *)

Lemma flow_holds_and {St R} (P1 P2 : St -> Prop) (Q1 Q2 : R -> Prop) o :
  flow_holds P1 Q1 o -> flow_holds P2 Q2 o ->
  flow_holds (fun s => P1 s /\ P2 s) (fun r => Q1 r /\ Q2 r) o.
Proof. destruct o as [[s|r]|]; simpl; auto. Qed.

Lemma in_subset_set (Rnew Rnew' : list bool) p b :
  set1 Rnew p b = Some Rnew' ->
  in_subset Rnew' p = b /\ forall i, i <> p -> in_subset Rnew' i = in_subset Rnew i.
Proof.
  intros H. apply set1_spec in H as (_ & G & O). unfold in_subset. rewrite G.
  split; [reflexivity|]. intros i Hi. rewrite O by exact Hi. reflexivity.
Qed.

(** The counter [Rnewcount] is the size of the subset [Rnew] represents,
    and only grows. *)
Lemma scan_body_count n k comb A cosetrep adj newpoint Acount i Rnew Rnewcount kpoint :
  n <= CInt.INT_MAX ->
  List.length Rnew = Z.to_nat n ->
  Rnewcount = count_upto (in_subset Rnew) (Z.to_nat n) ->
  flow_holds (fun st => snd (fst st) = count_upto (in_subset (fst (fst st))) (Z.to_nat n) /\
                        Rnewcount <= snd (fst st))
             (fun _ => True)
    (scan_body n k comb A cosetrep adj newpoint Acount i (Rnew, Rnewcount, kpoint)).
Proof.
  intros Hn Hlen Hc. unfold scan_body.
  destruct (geti adj i) as [ai|]; simpl; [|exact I].
  destruct (get1 comb ai) as [c|]; simpl; [|exact I].
  destruct (candidate k A cosetrep c newpoint kpoint) as [[injective kpoint']|];
    simpl; [|exact I].
  destruct injective; [|simpl; split; [exact Hc|lia]].
  destruct kpoint' as [kp|]; simpl; [|exact I].
  destruct (get1 Rnew kp) as [[|]|] eqn:Eb; simpl; [split; [exact Hc|lia]| |exact I].
  destruct (set1 Rnew kp true) as [Rnew'|] eqn:Es; simpl; [|exact I].
  destruct (early_success n k Acount (Rnewcount +i 1)); simpl; [exact I|].
  apply get1_range in Eb as Hr. apply in_subset_set in Es as [G O].
  assert (E : count_upto (in_subset Rnew') (Z.to_nat n)
              = count_upto (in_subset Rnew) (Z.to_nat n) + 1).
  { apply (count_upto_update _ _ _ kp); [lia| |exact G|exact O].
    unfold in_subset. rewrite Eb. reflexivity. }
  pose proof (count_upto_bounds (in_subset Rnew') (Z.to_nat n)) as B.
  pose proof (count_upto_bounds (in_subset Rnew) (Z.to_nat n)) as B'.
  cbn [fst snd]. rewrite add_one_small by lia. split; lia.
Qed.

(** What holds of [Rnew], [Rnewcount] and [kpoint] throughout the scan. *)
Lemma scanned_facts n k cosetreps adj comb A R newpoint m Acount Rnew Rnewcount kpoint :
  n <= CInt.INT_MAX ->
  subset_of_last n k A R ->
  scanned n k cosetreps adj comb A R newpoint m
  = Some (Acount, Next (Rnew, Rnewcount, kpoint)) ->
  List.length Rnew = Z.to_nat n /\
  subset_of_last n k A Rnew /\
  kpoint_ok k A kpoint /\
  Acount = count_upto (in_first k A) (Z.to_nat n) /\
  Rnewcount = count_upto (in_subset Rnew) (Z.to_nat n) /\
  count_upto (in_subset R) (Z.to_nat n) <= Rnewcount.
Proof.
  intros Hn Hsub H. unfold scanned in H.
  apply obind_Some in H as ([[Ac Rc] Rn] & Hcount & H).
  apply obind_Some in H as (cosetrep & Hcr & H).
  apply obind_Some in H as (fl & Hfl & H). inversion H; subst Ac fl. clear H.
  pose proof (count_copies _ _ _ _ _ _ _ Hcount) as [Hl Hcopy].
  pose proof (count_values _ _ _ _ _ _ _ Hn Hcount) as [HAc HRc].
  assert (HRc' : Rc = count_upto (in_subset Rn) (Z.to_nat n)).
  { rewrite HRc. apply count_upto_ext. intros i Hi. symmetry.
    apply (in_subset_copy n R Rn Hcopy). lia. }
  pose proof (loop_up_inv
                (fun _ st => (List.length (fst (fst st)) = Z.to_nat n /\
                              subset_of_last n k A (fst (fst st)) /\
                              kpoint_ok k A (snd st)) /\
                             (snd (fst st) = count_upto (in_subset (fst (fst st))) (Z.to_nat n) /\
                              Rc <= snd (fst st)))
                (fun _ : unit => True /\ True)
                (scan_body n k comb A cosetrep adj newpoint Acount)
                m 1 (Rn, Rc, None)) as Hinv.
  rewrite Hfl in Hinv. cbn [flow_holds fst snd] in Hinv.
  destruct Hinv as ((H1 & H2 & H3) & H4 & H5).
  - split; [|split; [exact HRc'|lia]]. split; [exact Hl|].
    split; [|intros p Hp; discriminate].
    intros i Hi Ht. apply Hsub; [exact Hi|]. rewrite <- Hcopy by exact Hi. exact Ht.
  - intros j [[Rn1 Rc1] kp1] _ ((Ha & Hb & Hc) & Hd & He). cbn [fst snd] in *.
    apply flow_holds_and.
    + apply scan_body_subset; assumption.
    + pose proof (scan_body_count n k comb A cosetrep adj newpoint Acount j Rn1 Rc1 kp1
                    Hn Ha Hd) as Hf.
      destruct (scan_body n k comb A cosetrep adj newpoint Acount j (Rn1, Rc1, kp1))
        as [[[[Rn2 Rc2] kp2]|u]|]; cbn [flow_holds fst snd] in *; [|exact I|exact I].
      destruct Hf. split; [assumption|lia].
  - repeat split; try assumption. rewrite <- HRc. exact H5.
Qed.

(** The scan is the loop over all the entries of [adj]. *)
Lemma scan_scanned n k cosetreps adj comb A R newpoint :
  scan n k cosetreps adj comb A R newpoint
  = (len <-? Length adj ;;
     res <-? scanned n k cosetreps adj comb A R newpoint (Z.to_nat len) ;;
     match snd res with
     | Next (Rnew', Rnewcount', _) => Some (Next (Rnew', Rnewcount'))
     | Stop _ => Some (Stop tt)
     end).
Proof.
  unfold scan, scanned, for_up.
  destruct (iter_up (Z.to_nat n) 1 (count_body k A R) (0, 0, repeat false (Z.to_nat n)))
    as [[[Ac Rc] Rn]|]; cbn [obind]; [|destruct (Length adj); reflexivity].
  destruct (get1 cosetreps newpoint) as [cosetrep|]; cbn [obind];
    [|destruct (Length adj); reflexivity].
  destruct (Length adj) as [len|]; cbn [obind]; [|reflexivity].
  replace (len - 1 + 1) with len by lia.
  destruct (loop_up (Z.to_nat len) 1 (scan_body n k comb A cosetrep adj newpoint Ac)
              (Rn, Rc, None)) as [fl|]; reflexivity.
Qed.

Lemma loop_up_app {St R} (body : Z -> St -> option (flow St R)) :
  forall m1 m2 i s s1,
    loop_up m1 i body s = Some (Next s1) ->
    loop_up (m1 + m2) i body s = loop_up m2 (i + Z.of_nat m1) body s1.
Proof.
  induction m1 as [|m1 IH]; intros m2 i s s1 H.
  - simpl in H. inversion H; subst. rewrite Z.add_0_r. reflexivity.
  - cbn [loop_up Nat.add] in *. destruct (body i s) as [[s0|r]|]; try discriminate.
    rewrite (IH m2 (i + 1) s0 s1 H). f_equal. lia.
Qed.

Lemma loop_up_ext {St R} (body body' : Z -> St -> option (flow St R)) :
  forall m i s,
    (forall j s0, i <= j < i + Z.of_nat m -> body j s0 = body' j s0) ->
    loop_up m i body s = loop_up m i body' s.
Proof.
  induction m as [|m IH]; intros i s H; [reflexivity|].
  cbn [loop_up]. rewrite <- (H i s) by lia.
  destruct (body i s) as [[s0|r]|]; try reflexivity.
  apply IH. intros j s1 Hj. apply H. lia.
Qed.

Lemma scan_body_adj n k comb A cosetrep adj adj' newpoint Acount i st :
  geti adj' i = geti adj i ->
  scan_body n k comb A cosetrep adj' newpoint Acount i st
  = scan_body n k comb A cosetrep adj newpoint Acount i st.
Proof. intros H. unfold scan_body. rewrite H. reflexivity. Qed.

Lemma early_success_value n k Acount Rnewcount :
  1 <= k <= n -> n * k <= CInt.INT_MAX ->
  0 <= Acount -> 0 <= Rnewcount -> Acount + Rnewcount <= n ->
  early_success n k Acount Rnewcount = ((Acount + Rnewcount) * k >? (k - 1) * n).
Proof.
  intros Hk Hnk HA HR Hs. unfold early_success, CInt.add, CInt.mul, CInt.sub.
  assert (Hk' : k <= CInt.INT_MAX) by nia.
  assert (Hn' : n <= CInt.INT_MAX) by nia.
  rewrite (wrap_small (Acount + Rnewcount)) by (unfold CInt.INT_MIN; lia).
  rewrite (wrap_small (k - 1)) by (unfold CInt.INT_MIN; lia).
  rewrite (wrap_small ((Acount + Rnewcount) * k)) by (unfold CInt.INT_MIN; nia).
  rewrite (wrap_small ((k - 1) * n)) by (unfold CInt.INT_MIN; nia).
  reflexivity.
Qed.

(** ** The rules of a call *)

Lemma TransversalProperty_step fuel n k cosetreps adj comb A R newpoint w :
  enough_memory w ->
  TransversalProperty (S fuel) n k cosetreps adj comb A R newpoint w
  = match scan n k cosetreps adj comb A R newpoint with
    | None => Undef
    | Some (Stop _) => Ret (true, A) w
    | Some (Next (Rnew, Rnewcount)) =>
        if Rnewcount =? 0 then Ret (false, A) w
        else
          match pick n Rnew with
          | None => Undef
          | Some (r, Rnew') =>
              branches
                (fun A' r' => TransversalProperty fuel n k cosetreps adj comb A' Rnew' r')
                (Z.to_nat (k - 1)) 1 k r A w
          end
    end.
Proof.
  intros Hw. cbn [TransversalProperty].
  rewrite (bind_step _ _ _ _ _ (malloc_enough w Hw)). cbn [negb].
  rewrite (bind_step _ _ _ _ _ (malloc_enough w Hw)). cbn [negb].
  destruct (scan n k cosetreps adj comb A R newpoint) as [[[Rnew Rnewcount]|u]|];
    [|reflexivity|reflexivity].
  rewrite (bind_step _ _ _ _ _ (lift_Some _ w)).
  destruct (Rnewcount =? 0); [reflexivity|].
  destruct (pick n Rnew) as [[r Rnew']|]; [|reflexivity].
  rewrite (bind_step _ _ _ _ _ (lift_Some _ w)). reflexivity.
Qed.

Lemma early_return fuel n k cosetreps adj adj' comb A R newpoint w m
    Acount Rnew Rnewcount kpoint kp len' :
  enough_memory w ->
  scanned n k cosetreps adj comb A R newpoint m
  = Some (Acount, Next (Rnew, Rnewcount, kpoint)) ->
  forces k cosetreps adj comb A newpoint kpoint (Z.of_nat m + 1) kp ->
  get1 Rnew kp = Some false ->
  early_success n k Acount (Rnewcount +i 1) = true ->
  (forall j, 1 <= j <= Z.of_nat m + 1 -> geti adj' j = geti adj j) ->
  Length adj' = Some len' -> Z.of_nat m + 1 <= len' ->
  TransversalProperty (S fuel) n k cosetreps adj' comb A R newpoint w = Ret (true, A) w.
Proof.
  intros Hw Hsc (cosetrep & a & c & kp0 & Hcr & Ha & Hc & Hcand & ->) Hfalse Hes Hadj Hlen Hm.
  rewrite TransversalProperty_step by exact Hw.
  rewrite scan_scanned, Hlen. cbn [obind].
  unfold scanned in *.
  destruct (iter_up (Z.to_nat n) 1 (count_body k A R) (0, 0, repeat false (Z.to_nat n)))
    as [[[Ac Rc] Rn]|]; [|discriminate].
  cbn [obind] in *. rewrite Hcr in *. cbn [obind] in *.
  apply obind_Some in Hsc as (fl & Hfl & Hsc). inversion Hsc; subst Ac fl. clear Hsc.
  replace (Z.to_nat len') with (m + S (Z.to_nat (len' - Z.of_nat m - 1)))%nat by lia.
  assert (Hpre : loop_up m 1 (scan_body n k comb A cosetrep adj' newpoint Acount) (Rn, Rc, None)
                 = Some (Next (Rnew, Rnewcount, kpoint))).
  { rewrite <- Hfl. apply loop_up_ext. intros j s0 Hj. apply scan_body_adj.
    apply Hadj. lia. }
  rewrite (loop_up_app _ _ _ _ _ _ Hpre). cbn [loop_up].
  assert (Hbody : scan_body n k comb A cosetrep adj' newpoint Acount (1 + Z.of_nat m)
                    (Rnew, Rnewcount, kpoint) = Some (Stop tt)).
  { unfold scan_body. rewrite Hadj by lia.
    replace (1 + Z.of_nat m) with (Z.of_nat m + 1) by lia.
    rewrite Ha. cbn [obind]. rewrite Hc. cbn [obind]. rewrite Hcand. cbn [obind].
    rewrite Hfalse. cbn [obind negb].
    destruct (set1_defined Rnew kp true) as [Rnew' ->];
      [apply get1_range in Hfalse; exact Hfalse|].
    cbn [obind]. rewrite Hes. reflexivity. }
  rewrite Hbody. reflexivity.
Qed.

Lemma early_success_grows n k A Rnew Acount Rcount Rnewcount kp :
  1 <= k <= n -> n * k <= CInt.INT_MAX ->
  Acount = count_upto (in_first k A) (Z.to_nat n) ->
  Rnewcount = count_upto (in_subset Rnew) (Z.to_nat n) ->
  0 <= Rcount <= Rnewcount ->
  subset_of_last n k A Rnew -> geti A kp = Some k ->
  get1 Rnew kp = Some false ->
  List.length Rnew = Z.to_nat n ->
  early_success n k Acount Rcount = true ->
  early_success n k Acount (Rnewcount +i 1) = true.
Proof.
  intros Hk Hnk HA HR HRc Hsub Hkp Hfalse Hlen Hes.
  assert (Hn : n <= CInt.INT_MAX) by nia.
  destruct (set1_defined Rnew kp true) as [Rnew' Hset];
    [apply get1_range in Hfalse; exact Hfalse|].
  pose proof (get1_range _ _ _ Hfalse) as Hr.
  pose proof (in_subset_set _ _ _ _ Hset) as [G O].
  assert (E : count_upto (in_subset Rnew') (Z.to_nat n) = Rnewcount + 1).
  { rewrite HR. apply (count_upto_update _ _ _ kp); [lia| |exact G|exact O].
    unfold in_subset. rewrite Hfalse. reflexivity. }
  assert (D : count_upto (in_first k A) (Z.to_nat n)
              + count_upto (in_subset Rnew') (Z.to_nat n) <= Z.of_nat (Z.to_nat n)).
  { apply count_upto_disjoint. intros i Hi Hin. unfold in_first in Hin.
    destruct (geti A i) as [ai|] eqn:Eai; [|discriminate]. apply Z.ltb_lt in Hin.
    destruct (Z.eq_dec i kp) as [->|Hne]; [rewrite Hkp in Eai; inversion Eai; lia|].
    rewrite O by exact Hne. unfold in_subset.
    destruct (get1 Rnew i) as [[|]|] eqn:Eb; try reflexivity.
    rewrite (Hsub i ltac:(lia) Eb) in Eai. inversion Eai. lia. }
  pose proof (count_upto_bounds (in_first k A) (Z.to_nat n)) as B1.
  pose proof (count_upto_bounds (in_subset Rnew) (Z.to_nat n)) as B2.
  rewrite add_one_small by lia.
  rewrite early_success_value in Hes by lia.
  rewrite early_success_value by lia.
  apply Z.gtb_lt in Hes. apply Z.gtb_lt. nia.
Qed.

(** C3, as the code has it: when an entry of the adjacency adds a point
    to the working subset and [(Acount+Rnewcount)*k > (k-1)*n] holds then,
    as the code evaluates it in [int], the call returns true, whatever the
    entries after it are; and when [n*k] is in the range of [int] and the
    inequality already holds of [A] and [R] at the start of the scan, the
    first entry that adds a point makes the call return true. *)
Theorem early_success_rule :
  (forall fuel n k cosetreps adj adj' comb A R newpoint w m
          Acount Rnew Rnewcount kpoint kp len',
      enough_memory w ->
      scanned n k cosetreps adj comb A R newpoint m
      = Some (Acount, Next (Rnew, Rnewcount, kpoint)) ->
      forces k cosetreps adj comb A newpoint kpoint (Z.of_nat m + 1) kp ->
      get1 Rnew kp = Some false ->
      early_success n k Acount (Rnewcount +i 1) = true ->
      (forall j, 1 <= j <= Z.of_nat m + 1 -> geti adj' j = geti adj j) ->
      Length adj' = Some len' -> Z.of_nat m + 1 <= len' ->
      TransversalProperty (S fuel) n k cosetreps adj' comb A R newpoint w
      = Ret (true, A) w) /\
  (forall fuel n k cosetreps adj adj' comb A R newpoint w m
          Acount Rnew0 Rcount Rnew Rnewcount kpoint kp len',
      enough_memory w ->
      1 <= k <= n -> n * k <= CInt.INT_MAX -> subset_of_last n k A R ->
      scanned n k cosetreps adj comb A R newpoint 0
      = Some (Acount, Next (Rnew0, Rcount, None)) ->
      early_success n k Acount Rcount = true ->
      scanned n k cosetreps adj comb A R newpoint m
      = Some (Acount, Next (Rnew, Rnewcount, kpoint)) ->
      forces k cosetreps adj comb A newpoint kpoint (Z.of_nat m + 1) kp ->
      get1 Rnew kp = Some false ->
      (forall j, 1 <= j <= Z.of_nat m + 1 -> geti adj' j = geti adj j) ->
      Length adj' = Some len' -> Z.of_nat m + 1 <= len' ->
      TransversalProperty (S fuel) n k cosetreps adj' comb A R newpoint w
      = Ret (true, A) w).
Proof.
  split.
  - intros. eapply early_return; eassumption.
  - intros fuel n k cosetreps adj adj' comb A R newpoint w m Acount Rnew0 Rcount Rnew
           Rnewcount kpoint kp len' Hw Hk Hnk Hsub H0 Hes Hm Hf Hfalse Hadj Hlen Hle.
    assert (Hn : n <= CInt.INT_MAX) by nia.
    pose proof (scanned_facts _ _ _ _ _ _ _ _ _ _ _ _ _ Hn Hsub H0)
      as (_ & _ & _ & _ & HR0 & _).
    pose proof (scanned_facts _ _ _ _ _ _ _ _ _ _ _ _ _ Hn Hsub Hm)
      as (Hl & Hsub' & Hkp & HAc & HRc & Hge).
    assert (HRR : Rcount = count_upto (in_subset R) (Z.to_nat n)).
    { unfold scanned in H0.
      apply obind_Some in H0 as ([[Ac Rc] Rn] & Hcount & H0).
      apply obind_Some in H0 as (cosetrep & Hcr & H0).
      cbn [loop_up obind] in H0. inversion H0; subst.
      apply (count_values _ _ _ _ _ _ _ Hn Hcount). }
    pose proof (count_upto_bounds (in_subset R) (Z.to_nat n)) as B.
    assert (Hkp' : geti A kp = Some k).
    { destruct Hf as (cosetrep & a & c & kp0 & Hcr & Ha & Hc & Hcand & ->).
      eapply candidate_kpoint; [exact Hkp|exact Hcand|reflexivity]. }
    eapply early_return; try eassumption.
    eapply (early_success_grows n k A Rnew Acount Rcount Rnewcount kp);
      try eassumption; lia.
Qed.

Lemma dead_end fuel n k cosetreps adj comb A R newpoint Rnew w :
  enough_memory w ->
  scan n k cosetreps adj comb A R newpoint = Some (Next (Rnew, 0)) ->
  TransversalProperty (S fuel) n k cosetreps adj comb A R newpoint w = Ret (false, A) w.
Proof.
  intros Hw Hs. rewrite TransversalProperty_step by exact Hw. rewrite Hs. reflexivity.
Qed.

Lemma count_empty n k A R :
  (forall i, 1 <= i <= n -> exists a, geti A i = Some a) ->
  (forall i, 1 <= i <= n -> get1 R i = Some false) ->
  exists Acount Rnew,
    iter_up (Z.to_nat n) 1 (count_body k A R) (0, 0, repeat false (Z.to_nat n))
    = Some (Acount, 0, Rnew).
Proof.
  intros HA HR.
  destruct (iter_up_defined
              (fun j st => List.length (snd st) = Z.to_nat n /\ snd (fst st) = 0)
              (count_body k A R) (Z.to_nat n) 1 (0, 0, repeat false (Z.to_nat n)))
    as ([[Ac Rc] Rn] & Hst & _ & Hz).
  - split; [apply repeat_length|reflexivity].
  - intros j [[ac rc] Rn] Hj [Hlen Hz]. cbn [fst snd] in *. unfold count_body.
    destruct (HA j ltac:(lia)) as [a ->]. rewrite (HR j) by lia. cbn [obind].
    destruct (set1_defined Rn j false ltac:(lia)) as [Rn' Hs]. rewrite Hs.
    cbn [obind]. eexists. split; [reflexivity|]. cbn [fst snd].
    apply set1_spec in Hs as (L & _). split; [congruence|exact Hz].
  - cbn [fst snd] in Hz. subst Rc. exists Ac, Rn. exact Hst.
Qed.


(** C2, as the code has it: a call that returns true leaves the buffer
    [A] as it was passed, every entry it changed being set back to [k],
    the value it had as an entry of a point of the subset. *)
Theorem true_return_restores_A (fuel : nat) (n k : Z) (cosetreps : list intlist)
    (adj : intlist) (comb : list intlist) (A : intlist) (R : list bool)
    (newpoint : Z) (w : world) (A' : intlist) (w' : world) :
  subset_of_last n k A R ->
  TransversalProperty fuel n k cosetreps adj comb A R newpoint w = Ret (true, A') w' ->
  A' = A.
Proof. apply true_restores. Qed.

Lemma subset_of_last_empty n k A m : subset_of_last n k A (repeat false m).
Proof. intros i _ H. apply get1_repeat in H. discriminate. Qed.

Lemma true_return_restores_A_witness :
  subset_of_last 6 2 [6; 1; 2; 2; 2; 2; 2] (repeat false 6) /\
  TransversalProperty 2 6 2 (rotation_reps 6) [2; 2; 6] (singletons 6)
    [6; 1; 2; 2; 2; 2; 2] (repeat false 6) 1 quiet
  = Ret (true, [6; 1; 2; 2; 2; 2; 2]) quiet /\
  [6; 1; 2; 2; 2; 2; 2] = [6; 1; 2; 2; 2; 2; 2].
Proof.
  split; [apply subset_of_last_empty|]. split; [vm_compute; reflexivity|].
  apply (true_return_restores_A 2 6 2 (rotation_reps 6) [2; 2; 6] (singletons 6)
           [6; 1; 2; 2; 2; 2; 2] (repeat false 6) 1 quiet _ quiet).
  - apply subset_of_last_empty.
  - vm_compute. reflexivity.
Defined.

(** With the orbit [{1,3},{2,4}] of the rotations of [{1,...,4}] and
    [P = [{1},{2,3,4}]], the call moves 3 to the first part, gets false
    from the recursive call and returns false with [A[3]] still 1. *)
Lemma false_return_leaves_A_changed :
  ~ restores_as_stated 2 4 2 (rotation_reps 4) [1; 3] (singletons 4)
      [4; 1; 2; 2; 2] (repeat false 4) 1 quiet.
Proof.
  intros H. specialize (H false [4; 1; 2; 1; 2] quiet). 
  assert (E : [4; 1; 2; 1; 2] = [4; 1; 2; 2; 2]) by (apply H; vm_compute; reflexivity).
  discriminate E.
Qed.


Lemma enough_memory_quiet : enough_memory quiet.
Proof. reflexivity. Qed.


Lemma early_success_rule_witness :
  TransversalProperty 1 4 2 (rotation_reps 4) [2; 2; 77] (singletons 4)
    [4; 1; 2; 2; 2] [false; false; false; true] 1 quiet
  = Ret (true, [4; 1; 2; 2; 2]) quiet /\
  TransversalProperty 1 4 2 (rotation_reps 4) [3; 2; 77; -5] (singletons 4)
    [4; 1; 2; 2; 2] [false; false; true; true] 1 quiet
  = Ret (true, [4; 1; 2; 2; 2]) quiet.
Proof.
  destruct early_success_rule as (H1 & H2). split.
  - apply (H1 0%nat 4 2 (rotation_reps 4) [2; 2; 4] [2; 2; 77] (singletons 4)
              [4; 1; 2; 2; 2] [false; false; false; true] 1 quiet 0%nat
              1 [false; false; false; true] 1 None 2 2).
    + exact enough_memory_quiet.
    + vm_compute. reflexivity.
    + exists [4; 1; 2; 3; 4], 2, [1; 2], (Some 2). repeat split.
    + reflexivity.
    + vm_compute. reflexivity.
    + intros j Hj. assert (j = 1) by lia. subst j. reflexivity.
    + reflexivity.
    + lia.
  - apply (H2 0%nat 4 2 (rotation_reps 4) [2; 2; 4] [3; 2; 77; -5] (singletons 4)
              [4; 1; 2; 2; 2] [false; false; true; true] 1 quiet 0%nat
              1 [false; false; true; true] 2 [false; false; true; true] 2 None 2 3).
    + exact enough_memory_quiet.
    + lia.
    + unfold CInt.INT_MAX. lia.
    + intros i Hi Ht. assert (Hc : i = 1 \/ i = 2 \/ i = 3 \/ i = 4) by lia.
      destruct Hc as [-> | [-> | [-> | -> ]]]; try discriminate Ht; reflexivity.
    + vm_compute. reflexivity.
    + vm_compute. reflexivity.
    + vm_compute. reflexivity.
    + exists [4; 1; 2; 3; 4], 2, [1; 2], (Some 2). repeat split.
    + reflexivity.
    + intros j Hj. assert (j = 1) by lia. subst j. reflexivity.
    + reflexivity.
    + lia.
Defined.

(** ** Termination *)

Lemma loop_up_total {St R} (P : Z -> St -> Prop) (Q : R -> Prop)
    (body : Z -> St -> option (flow St R)) :
  forall count i s,
    P i s ->
    (forall j s1, i <= j < i + Z.of_nat count -> P j s1 ->
                  exists fl, body j s1 = Some fl /\
                             match fl with Next s2 => P (j + 1) s2 | Stop r => Q r end) ->
    exists fl, loop_up count i body s = Some fl /\
               match fl with Next s' => P (i + Z.of_nat count) s' | Stop r => Q r end.
Proof.
  induction count as [|c IH]; intros i s Hs Hbody.
  - exists (Next s). rewrite Z.add_0_r. split; [reflexivity|exact Hs].
  - cbn [loop_up]. destruct (Hbody i s ltac:(lia) Hs) as (fl & Hfl & Pfl). rewrite Hfl.
    destruct fl as [s1|r]; [|exists (Stop r); split; [reflexivity|exact Pfl]].
    replace (i + Z.of_nat (S c)) with ((i + 1) + Z.of_nat c) by lia.
    apply IH; [exact Pfl|]. intros j a Hj. apply Hbody. lia.
Qed.

Lemma in_subset_repeat_false m i : in_subset (repeat false m) i = false.
Proof.
  unfold in_subset. destruct (get1 (repeat false m) i) as [b|] eqn:E; [|reflexivity].
  apply get1_repeat in E. exact E.
Qed.

Lemma in_subset_true (R : list bool) i : in_subset R i = true <-> get1 R i = Some true.
Proof.
  unfold in_subset. destruct (get1 R i) as [[|]|]; split; intros H; congruence.
Qed.

(** An injective candidate leaves in [kpoint] its point of [P[k]]. *)
Lemma candidate_defined n k A cosetrep c newpoint kpoint :
  1 <= k <= CInt.INT_MAX ->
  labelled n k A ->
  1 <= newpoint <= n ->
  (forall q, 1 <= q <= n -> exists q', geti cosetrep q = Some q' /\ 1 <= q' <= n) ->
  (forall j, 1 <= j <= k - 1 -> exists q, geti c j = Some q /\ 1 <= q <= n) ->
  (forall p, kpoint = Some p -> 1 <= p <= n) ->
  exists injective kpoint',
    candidate k A cosetrep c newpoint kpoint = Some (injective, kpoint') /\
    (forall p, kpoint' = Some p -> 1 <= p <= n) /\
    (injective = true -> exists p, kpoint' = Some p).
Proof.
  intros Hk HA Hnp Hcr Hc Hkp. unfold candidate.
  destruct (HA newpoint Hnp) as (anp & Hanp & Hr). rewrite Hanp. cbn [obind].
  destruct (set1_defined (repeat false (Z.to_nat k)) anp true) as [cov0 Hcov0];
    [rewrite repeat_length; lia|].
  rewrite Hcov0. cbn [obind].
  assert (Ek : k -i 1 = k - 1)
    by (apply wrap_small; unfold CInt.INT_MIN, CInt.INT_MAX in *; lia).
  unfold for_up. rewrite Ek. replace (k - 1 - 1 + 1) with (k - 1) by lia.
  pose proof (in_subset_set _ _ _ _ Hcov0) as [G0 O0].
  pose proof (set1_spec _ _ _ _ Hcov0) as (L0 & _). rewrite repeat_length in L0.
  destruct (loop_up_total
              (fun j st => List.length (fst st) = Z.to_nat k /\
                           count_upto (in_subset (fst st)) (Z.to_nat k) = j /\
                           (in_subset (fst st) k = true -> exists p, snd st = Some p) /\
                           (forall p, snd st = Some p -> 1 <= p <= n))
              (fun kp : option Z => forall p, kp = Some p -> 1 <= p <= n)
              (check_body k A cosetrep c) (Z.to_nat (k - 1)) 1
              (cov0, if anp =? k then Some newpoint else kpoint))
    as (fl & Hfl & Pfl).
  - cbn [fst snd]. split; [exact L0|]. split; [|split].
    + rewrite (count_upto_update (in_subset (repeat false (Z.to_nat k)))
                 (in_subset cov0) (Z.to_nat k) anp); try assumption; [|lia|].
      * assert (E0 : count_upto (in_subset (repeat false (Z.to_nat k))) (Z.to_nat k) = 0)
          by (apply count_upto_zero; intros i _; apply in_subset_repeat_false).
        lia.
      * apply in_subset_repeat_false.
    + intros Ht. destruct (Z.eq_dec anp k) as [->|Hne].
      * rewrite Z.eqb_refl. eexists; reflexivity.
      * rewrite O0, in_subset_repeat_false in Ht by congruence. discriminate.
    + intros p. destruct (anp =? k); [intros E; inversion E; subst; exact Hnp|apply Hkp].
  - intros j [cov kp] Hj (Hlen & Hcount & Hset & Hrange). cbn [fst snd] in *.
    unfold check_body.
    destruct (Hc j ltac:(lia)) as (cj & -> & Hcj). cbn [obind].
    destruct (Hcr cj Hcj) as (p & -> & Hp). cbn [obind].
    destruct (HA p Hp) as (part & -> & Hpart). cbn [obind].
    destruct (get1_defined cov part ltac:(lia)) as [b Hb]. rewrite Hb. cbn [obind].
    destruct b; [eexists; split; [reflexivity|exact Hrange]|].
    destruct (set1_defined cov part true ltac:(lia)) as [cov' Hcov']. rewrite Hcov'.
    cbn [obind]. eexists. split; [reflexivity|]. cbn [fst snd].
    pose proof (in_subset_set _ _ _ _ Hcov') as [G O].
    pose proof (set1_spec _ _ _ _ Hcov') as (L & _).
    split; [congruence|]. split; [|split].
    + rewrite (count_upto_update (in_subset cov) (in_subset cov') (Z.to_nat k) part);
        try assumption; [lia|lia|].
      unfold in_subset. rewrite Hb. reflexivity.
    + intros Ht. destruct (Z.eq_dec part k) as [->|Hne].
      * rewrite Z.eqb_refl. eexists; reflexivity.
      * replace (part =? k) with false by (symmetry; apply Z.eqb_neq; exact Hne).
        apply Hset. rewrite <- O by congruence. exact Ht.
    + intros q. destruct (part =? k); [intros E; inversion E; subst; exact Hp|apply Hrange].
  - rewrite Hfl. cbn [obind]. destruct fl as [[cov kp]|kp]; cbn [fst snd] in Pfl.
    + exists true, kp. split; [reflexivity|]. destruct Pfl as (Hlen & Hcount & Hset & Hrange).
      split; [exact Hrange|]. intros _. apply Hset.
      apply (count_upto_full (in_subset cov) (Z.to_nat k)); lia.
    + exists false, kp. split; [reflexivity|]. split; [exact Pfl|discriminate].
Qed.

Lemma scan_defined n k cosetreps adj comb A R newpoint :
  1 <= k <= CInt.INT_MAX ->
  tables_ok n k cosetreps adj comb -> labelled n k A -> covers n R ->
  1 <= newpoint <= n ->
  exists fl, scan n k cosetreps adj comb A R newpoint = Some fl.
Proof.
  intros Hk [Hcr (len & Hlen & Hadj)] HA HR Hnp. unfold scan.
  destruct (count_defined n k A R) as [[[Ac Rc] Rn] Hcount]; [|exact HR|].
  { intros i Hi. destruct (HA i Hi) as (a & Ha & _). exists a. exact Ha. }
  rewrite Hcount. cbn [obind].
  pose proof (count_copies _ _ _ _ _ _ _ Hcount) as [Hl _].
  destruct (Hcr newpoint Hnp) as (cosetrep & -> & Himg). cbn [obind].
  rewrite Hlen. cbn [obind]. unfold for_up. replace (len - 1 + 1) with len by lia.
  destruct (loop_up_total
              (fun _ st => List.length (fst (fst st)) = Z.to_nat n /\
                           forall p, snd st = Some p -> 1 <= p <= n)
              (fun _ : unit => True)
              (scan_body n k comb A cosetrep adj newpoint Ac) (Z.to_nat len) 1
              (Rn, Rc, None)) as (fl & Hfl & _).
  - cbn [fst snd]. split; [exact Hl|discriminate].
  - intros j [[Rn1 Rc1] kp1] Hj [Hlen1 Hkp1]. cbn [fst snd] in *. unfold scan_body.
    destruct (Hadj j ltac:(lia)) as (a & c & -> & Hc & Hpts). cbn [obind].
    rewrite Hc. cbn [obind].
    destruct (candidate_defined n k A cosetrep c newpoint kp1 Hk HA Hnp Himg Hpts Hkp1)
      as (inj & kp' & -> & Hkp' & Hinj).
    cbn [obind]. destruct inj; [|eexists; split; [reflexivity|]; cbn [fst snd]; auto].
    destruct (Hinj eq_refl) as [p ->]. cbn [obind].
    pose proof (Hkp' p eq_refl) as Hp.
    destruct (get1_defined Rn1 p ltac:(lia)) as [b ->]. cbn [obind].
    destruct b; cbn [negb]; [eexists; split; [reflexivity|]; cbn [fst snd]; auto|].
    destruct (set1_defined Rn1 p true ltac:(lia)) as [Rn2 Hs]. rewrite Hs. cbn [obind].
    destruct (early_success n k Ac (Rc1 +i 1)); eexists; (split; [reflexivity|]);
      [exact I|]. cbn [fst snd]. apply set1_spec in Hs as (L & _).
    split; [congruence|exact Hkp'].
  - rewrite Hfl. cbn [obind]. destruct fl as [[[Rn' Rc'] kp]|u]; eexists; reflexivity.
Qed.

Lemma scan_facts n k cosetreps adj comb A R newpoint Rnew Rnewcount :
  n <= CInt.INT_MAX -> subset_of_last n k A R ->
  scan n k cosetreps adj comb A R newpoint = Some (Next (Rnew, Rnewcount)) ->
  List.length Rnew = Z.to_nat n /\ subset_of_last n k A Rnew /\
  Rnewcount = count_upto (in_subset Rnew) (Z.to_nat n).
Proof.
  intros Hn Hsub Hs. rewrite scan_scanned in Hs.
  apply obind_Some in Hs as (len & Hlen & Hs).
  apply obind_Some in Hs as ([Ac fl] & Hsc & Hs). cbn [snd] in Hs.
  destruct fl as [[[Rn Rc] kp]|u]; [|discriminate]. inversion Hs; subst Rn Rc.
  pose proof (scanned_facts _ _ _ _ _ _ _ _ _ _ _ _ _ Hn Hsub Hsc)
    as (H1 & H2 & _ & _ & H3 & _). auto.
Qed.

Lemma pick_defined n Rnew :
  List.length Rnew = Z.to_nat n -> exists r Rnew', pick n Rnew = Some (r, Rnew').
Proof.
  intros Hlen. unfold pick, for_up. replace (n - 1 + 1) with n by lia.
  destruct (loop_up_total
              (fun _ s => List.length s = Z.to_nat n)
              (fun _ : Z * list bool => True)
              pick_body (Z.to_nat n) 1 Rnew Hlen) as (fl & -> & _).
  - intros j s Hj Hs. unfold pick_body.
    destruct (get1_defined s j ltac:(lia)) as [b ->]. cbn [obind].
    destruct b; [|eexists; split; [reflexivity|exact Hs]].
    destruct (set1_defined s j false ltac:(lia)) as [s' ->]. cbn [obind].
    eexists; split; [reflexivity|exact I].
  - cbn [obind]. destruct fl as [s|[p s]]; eexists _, _; reflexivity.
Qed.

(** Moving a point of [P[k]] to one of the first parts adds one to the
    number of points of these parts. *)
Lemma moved_point n k A p i A1 :
  1 <= p <= n -> geti A p = Some k -> i < k -> seti A p i = Some A1 ->
  count_upto (in_first k A1) (Z.to_nat n) = count_upto (in_first k A) (Z.to_nat n) + 1.
Proof.
  intros Hp Hk Hi Hset. apply seti_spec in Hset as (_ & G & O).
  apply (count_upto_update _ _ _ p); [lia| | |].
  - unfold in_first. rewrite Hk. apply Z.ltb_irrefl.
  - unfold in_first. rewrite G. apply Z.ltb_lt. exact Hi.
  - intros j Hj. unfold in_first. rewrite O by exact Hj. reflexivity.
Qed.

Lemma labelled_moved n k A p i A1 :
  labelled n k A -> 1 <= i <= k -> seti A p i = Some A1 -> labelled n k A1.
Proof.
  intros HA Hi Hset j Hj. apply seti_spec in Hset as (_ & G & O).
  destruct (Z.eq_dec j p) as [->|Hne]; [exists i; auto|].
  rewrite O by exact Hne. apply HA. exact Hj.
Qed.

Section Termination.

Variables (n k : Z) (cosetreps : list intlist) (adj : intlist) (comb : list intlist).
Hypothesis k_range : 2 <= k <= n.
Hypothesis n_range : n <= CInt.INT_MAX.
Hypothesis tables : tables_ok n k cosetreps adj comb.

Lemma branches_return fuel Rnew' p A w :
  enough_memory w ->
  (forall A1 R1 np1, call_ok n k A1 R1 np1 ->
     (Z.to_nat (n - count_upto (in_first k A1) (Z.to_nat n)) < fuel)%nat ->
     exists result A',
       TransversalProperty fuel n k cosetreps adj comb A1 R1 np1 w = Ret (result, A') w) ->
  labelled n k A -> 1 <= p <= n -> geti A p = Some k ->
  List.length Rnew' = Z.to_nat n -> get1 Rnew' p = Some false ->
  subset_of_last n k A Rnew' ->
  (Z.to_nat (n - count_upto (in_first k A) (Z.to_nat n)) <= fuel)%nat ->
  forall count i, 1 <= i -> i + Z.of_nat count <= k ->
    exists result A',
      branches (fun A' r' => TransversalProperty fuel n k cosetreps adj comb A' Rnew' r')
        count i k (Some p) A w = Ret (result, A') w.
Proof.
  intros Hw Hcall HA Hp Hk Hlen Hfalse Hsub Hfuel.
  induction count as [|c IH]; intros i Hi Hic.
  - exists true, A. reflexivity.
  - cbn [branches]. rewrite (bind_step _ _ _ _ _ (lift_Some p w)).
    destruct (seti_defined A p i) as [A1 HA1].
    { apply geti_range in Hk. lia. }
    rewrite HA1, (bind_step _ _ _ _ _ (lift_Some A1 w)).
    pose proof (moved_point n k A p i A1 Hp Hk ltac:(lia) HA1) as Hcount.
    pose proof (count_upto_bounds (in_first k A1) (Z.to_nat n)) as B.
    assert (Hsub1 : subset_of_last n k A1 Rnew').
    { intros j Hj Ht. pose proof (seti_spec _ _ _ _ HA1) as (_ & _ & O).
      rewrite O; [apply Hsub; assumption|]. intros ->. congruence. }
    destruct (Hcall A1 Rnew' p) as (result & A2 & Hres).
    { split; [eapply labelled_moved; [exact HA| |exact HA1]; lia|].
      split; [intros j Hj; apply get1_defined; lia|].
      split; [exact Hsub1|]. split; [exact Hp|].
      unfold in_first. pose proof (seti_spec _ _ _ _ HA1) as (_ & G & _).
      rewrite G. apply Z.ltb_lt. lia. }
    { lia. }
    rewrite (bind_step _ _ _ _ _ Hres). destruct result; cbn [negb].
    + apply true_restores in Hres as ->; [|exact Hsub1].
      rewrite (seti_restore _ _ _ _ _ Hk HA1), (bind_step _ _ _ _ _ (lift_Some A w)).
      apply IH; lia.
    + exists false, A2. reflexivity.
Qed.

Lemma call_returns fuel : forall A R newpoint w,
  enough_memory w -> call_ok n k A R newpoint ->
  (Z.to_nat (n - count_upto (in_first k A) (Z.to_nat n)) < fuel)%nat ->
  exists result A',
    TransversalProperty fuel n k cosetreps adj comb A R newpoint w = Ret (result, A') w.
Proof.
  induction fuel as [|fuel IH]; intros A R newpoint w Hw (HA & HR & Hsub & Hnp & Hin) Hfuel;
    [lia|].
  rewrite TransversalProperty_step by exact Hw.
  destruct (scan_defined n k cosetreps adj comb A R newpoint) as [fl Hfl];
    try assumption; [lia|].
  rewrite Hfl. destruct fl as [[Rnew Rnewcount]|u]; [|exists true, A; reflexivity].
  destruct (Rnewcount =? 0) eqn:E0; [exists false, A; reflexivity|].
  apply Z.eqb_neq in E0.
  pose proof (scan_facts _ _ _ _ _ _ _ _ _ _ n_range Hsub Hfl) as (Hlen & Hsub' & Hcount).
  destruct (pick_defined n Rnew Hlen) as (r & Rnew' & Hpick). rewrite Hpick.
  pose proof (pick_spec _ _ _ _ Hpick) as Hspec. destruct r as [p|].
  - destruct Hspec as (Hp & Ht & Hset & _).
    pose proof (set1_spec _ _ _ _ Hset) as (L & G & O).
    pose proof (Hsub' p Hp Ht) as Hk.
    assert (Hlt : count_upto (in_first k A) (Z.to_nat n) < n).
    { destruct (seti_defined A p 1) as [A1 HA1]; [apply geti_range in Hk; lia|].
      pose proof (moved_point n k A p 1 A1 Hp Hk ltac:(lia) HA1).
      pose proof (count_upto_bounds (in_first k A1) (Z.to_nat n)). lia. }
    assert (Hlen' : List.length Rnew' = Z.to_nat n) by congruence.
    assert (Hsub'' : subset_of_last n k A Rnew').
    { intros j Hj Hjt. destruct (Z.eq_dec j p) as [->|Hne]; [congruence|].
      rewrite O in Hjt by exact Hne. apply Hsub'; assumption. }
    assert (Hfuel' : (Z.to_nat (n - count_upto (in_first k A) (Z.to_nat n)) <= fuel)%nat)
      by lia.
    apply (branches_return fuel Rnew' p A w Hw
             (fun A1 R1 np1 Hok Hf => IH A1 R1 np1 w Hw Hok Hf)
             HA Hp Hk Hlen' G Hsub'' Hfuel' (Z.to_nat (k - 1)) 1); lia.
  - destruct Hspec as [_ Hall]. exfalso. apply E0. rewrite Hcount.
    apply count_upto_zero. intros i Hi. unfold in_subset. rewrite Hall by lia.
    reflexivity.
Qed.

Lemma first_part_not_empty A R newpoint :
  call_ok n k A R newpoint -> 1 <= count_upto (in_first k A) (Z.to_nat n).
Proof.
  intros (_ & _ & _ & Hnp & Hin).
  pose proof (count_upto_bounds (in_first k A) (Z.to_nat n)) as B.
  destruct (Z.eq_dec (count_upto (in_first k A) (Z.to_nat n)) 0) as [E|E]; [|lia].
  rewrite count_upto_zero in E. rewrite E in Hin by lia. discriminate.
Qed.

End Termination.



(** ** Subsets in lexicographic order *)

Lemma consec_length a len : List.length (consec a len) = len.
Proof. revert a. induction len as [|l IH]; intros a; simpl; [reflexivity|]. rewrite IH. reflexivity. Qed.

Lemma consec_nth len : forall a i,
  (i < len)%nat -> nth_error (consec a len) i = Some (a + Z.of_nat i).
Proof.
  induction len as [|l IH]; intros a i Hi; [lia|].
  destruct i as [|i]; simpl; [f_equal; lia|].
  rewrite IH by lia. f_equal. lia.
Qed.

Lemma consec_bounds len : forall a, Forall (fun x => a <= x < a + Z.of_nat len) (consec a len).
Proof.
  induction len as [|l IH]; intros a; simpl; constructor; [lia|].
  eapply Forall_impl; [|apply IH]. simpl. intros x Hx. lia.
Qed.

Lemma ascending_consec len : forall a, ascending (consec a len).
Proof.
  induction len as [|l IH]; intros a; simpl; [exact I|].
  split; [|apply IH]. destruct l; simpl; [exact I|lia].
Qed.

Lemma ascending_cons x c :
  ascending (x :: c) <-> Forall (fun y => x < y) c /\ ascending c.
Proof.
  revert x. induction c as [|y c IH]; intros x.
  - simpl. split; [intros _; split; [constructor|exact I]|auto].
  - change (ascending (x :: y :: c)) with (x < y /\ ascending (y :: c)).
    rewrite IH. split.
    + intros (Hxy & Hall & Hc). split; [|split; assumption].
      constructor; [exact Hxy|]. eapply Forall_impl; [|exact Hall]. simpl. intros; lia.
    + intros (Hall & Hall' & Hc). inversion Hall; subst. auto.
Qed.

Lemma subsets_above lo m k : (m < k)%nat -> subsets lo m k = [].
Proof.
  revert lo k. induction m as [|m IH]; intros lo k H; destruct k as [|k]; try lia;
    [reflexivity|].
  simpl. rewrite !IH by lia. reflexivity.
Qed.

Lemma subsets_length m : forall lo k, Z.of_nat (List.length (subsets lo m k)) = choose m k.
Proof.
  induction m as [|m IH]; intros lo [|k]; try reflexivity.
  cbn [subsets choose]. rewrite length_app, length_map, Nat2Z.inj_add, !IH. reflexivity.
Qed.

Lemma subsets_spec m : forall lo k c,
  In c (subsets lo m k) <->
  List.length c = k /\ ascending c /\ Forall (fun x => lo <= x < lo + Z.of_nat m) c.
Proof.
  induction m as [|m IH]; intros lo k c.
  - destruct k as [|k]; simpl.
    + split.
      * intros [<-|[]]. repeat split; constructor.
      * intros (Hl & _). destruct c; [left; reflexivity|discriminate].
    + split; [intros []|]. intros (Hl & _ & Hf). destruct c as [|x c]; [discriminate|].
      inversion Hf; subst. lia.
  - destruct k as [|k].
    + simpl. split.
      * intros [<-|[]]. repeat split; constructor.
      * intros (Hl & _). destruct c; [left; reflexivity|discriminate].
    + cbn [subsets]. rewrite in_app_iff, in_map_iff. split.
      * intros [(c' & <- & Hin)|Hin].
        -- apply IH in Hin as (Hl & Ha & Hf). split; [simpl; congruence|].
           split.
           ++ apply ascending_cons. split; [|exact Ha].
              eapply Forall_impl; [|exact Hf]. simpl. intros; lia.
           ++ constructor; [lia|]. eapply Forall_impl; [|exact Hf]. simpl. intros; lia.
        -- apply IH in Hin as (Hl & Ha & Hf). split; [exact Hl|]. split; [exact Ha|].
           eapply Forall_impl; [|exact Hf]. simpl. intros; lia.
      * intros (Hl & Ha & Hf). destruct c as [|x c]; [discriminate|].
        inversion Hf as [|? ? Hx Hf']; subst. apply ascending_cons in Ha as [Hgt Hc].
        destruct (Z.eq_dec x lo) as [->|Hne].
        -- left. exists c. split; [reflexivity|]. apply IH. split; [simpl in Hl; lia|].
           split; [exact Hc|].
           apply Forall_forall. intros y Hy.
           rewrite Forall_forall in Hgt, Hf'. specialize (Hgt y Hy). specialize (Hf' y Hy).
           lia.
        -- right. apply IH. split; [exact Hl|]. split.
           ++ apply ascending_cons. auto.
           ++ constructor; [lia|]. apply Forall_forall. intros y Hy.
              rewrite Forall_forall in Hgt, Hf'. specialize (Hgt y Hy). specialize (Hf' y Hy).
              lia.
Qed.

Lemma lex_lt_irrefl c : ~ lex_lt c c.
Proof.
  induction c as [|x c IH]; simpl; [auto|]. intros [H|[_ H]]; [lia|auto].
Qed.

Lemma StronglySorted_map_cons lo L :
  StronglySorted lex_lt L -> StronglySorted lex_lt (map (cons lo) L).
Proof.
  induction 1 as [|c L HL IH Hall]; simpl; constructor; [exact IH|].
  apply Forall_map. eapply Forall_impl; [|exact Hall]. simpl. intros d Hd. right. auto.
Qed.

Lemma StronglySorted_app {T} (R : T -> T -> Prop) L1 L2 :
  StronglySorted R L1 -> StronglySorted R L2 ->
  (forall x y, In x L1 -> In y L2 -> R x y) ->
  StronglySorted R (L1 ++ L2).
Proof.
  intros H1 H2 H. induction H1 as [|c L HL IH Hall]; simpl; [exact H2|].
  constructor.
  - apply IH. intros x y Hx Hy. apply H; [right; exact Hx|exact Hy].
  - apply Forall_app. split; [exact Hall|].
    apply Forall_forall. intros y Hy. apply H; [left; reflexivity|exact Hy].
Qed.

Lemma subsets_sorted m : forall lo k, StronglySorted lex_lt (subsets lo m k).
Proof.
  induction m as [|m IH]; intros lo [|k]; cbn [subsets];
    try (repeat constructor; fail).
  apply StronglySorted_app; [apply StronglySorted_map_cons; apply IH|apply IH|].
  intros x y Hx Hy. apply in_map_iff in Hx as (x' & <- & _).
  apply subsets_spec in Hy as (Hl & _ & Hf). destruct y as [|y0 y]; [discriminate|].
  inversion Hf; subst. simpl. left. lia.
Qed.

Lemma StronglySorted_NoDup {T} (R : T -> T -> Prop) L :
  (forall x, ~ R x x) -> StronglySorted R L -> NoDup L.
Proof.
  intros Hirr. induction 1 as [|c L HL IH Hall]; constructor; [|exact IH].
  intros Hin. rewrite Forall_forall in Hall. apply (Hirr c). apply Hall. exact Hin.
Qed.

Lemma next_comb_length hi c : forall d,
  next_comb hi c = Some d -> List.length d = List.length c.
Proof.
  induction c as [|a rest IH]; intros d H; [discriminate|].
  cbn [next_comb] in H. destruct (next_comb hi rest) as [rest'|].
  - inversion H; subst. simpl. rewrite (IH rest' eq_refl). reflexivity.
  - destruct (a <? hi - Z.of_nat (List.length rest)); [|discriminate].
    inversion H; subst. cbn [consec List.length]. rewrite consec_length. reflexivity.
Qed.

Lemma chain_lengths hi L : forall c d,
  chain hi c L -> In d L -> List.length d = List.length c.
Proof.
  induction L as [|e L IH]; intros c d Hc Hd; [contradiction|].
  destruct Hc as [Hn Hc]. apply next_comb_length in Hn.
  destruct Hd as [<-|Hd]; [exact Hn|]. rewrite <- Hn. eapply IH; eassumption.
Qed.

(** The chain of the lists that start with [lo], then on to the lists
    that do not. *)
Lemma chain_cons hi lo L : forall c T,
  chain hi c L ->
  match T with
  | [] => ~ lo < hi - Z.of_nat (List.length c)
  | d :: T' => lo < hi - Z.of_nat (List.length c) /\
               d = consec (lo + 1) (S (List.length c)) /\ chain hi d T'
  end ->
  chain hi (lo :: c) (map (cons lo) L ++ T).
Proof.
  induction L as [|e L IH]; intros c T Hc HT.
  - simpl in Hc. simpl app. destruct T as [|d T'].
    + simpl. rewrite Hc.
      replace (lo <? hi - Z.of_nat (List.length c)) with false
        by (symmetry; apply Z.ltb_ge; lia). reflexivity.
    + destruct HT as (Hlt & -> & Hd). cbn [chain next_comb]. rewrite Hc.
      replace (lo <? hi - Z.of_nat (List.length c)) with true
        by (symmetry; apply Z.ltb_lt; lia). split; [reflexivity|exact Hd].
  - destruct Hc as [Hn Hc]. cbn [map app chain next_comb]. rewrite Hn.
    split; [reflexivity|]. apply IH; [exact Hc|].
    rewrite (next_comb_length _ _ _ Hn). exact HT.
Qed.

Lemma subsets_chain m : forall lo k,
  (k <= m)%nat ->
  exists L, subsets lo m k = consec lo k :: L /\
            chain (lo + Z.of_nat m - 1) (consec lo k) L.
Proof.
  induction m as [|m IH]; intros lo k Hk.
  - assert (k = 0%nat) by lia. subst k. exists []. split; reflexivity.
  - destruct k as [|k]; [exists []; split; reflexivity|].
    cbn [subsets consec].
    destruct (IH (lo + 1) k ltac:(lia)) as (L1 & E1 & C1). rewrite E1.
    replace (lo + 1 + Z.of_nat m - 1) with (lo + Z.of_nat (S m) - 1) in C1 by lia.
    destruct (Nat.eq_dec k m) as [->|Hne].
    + rewrite (subsets_above (lo + 1) m (S m)) by lia.
      exists (map (cons lo) L1). split; [rewrite app_nil_r; reflexivity|].
      rewrite <- (app_nil_r (map (cons lo) L1)).
      apply chain_cons; [exact C1|]. rewrite consec_length. lia.
    + destruct (IH (lo + 1) (S k) ltac:(lia)) as (L2 & E2 & C2). rewrite E2.
      replace (lo + 1 + Z.of_nat m - 1) with (lo + Z.of_nat (S m) - 1) in C2 by lia.
      exists (map (cons lo) L1 ++ consec (lo + 1) (S k) :: L2).
      split; [reflexivity|].
      apply chain_cons; [exact C1|]. rewrite consec_length.
      split; [lia|]. split; [reflexivity|exact C2].
Qed.

Lemma next_comb_split hi c : forall d,
  next_comb hi c = Some d ->
  exists pre a suf,
    c = pre ++ a :: suf /\ next_comb hi suf = None /\
    a < hi - Z.of_nat (List.length suf) /\
    d = pre ++ consec (a + 1) (S (List.length suf)).
Proof.
  induction c as [|a rest IH]; intros d H; [discriminate|].
  cbn [next_comb] in H. destruct (next_comb hi rest) as [rest'|] eqn:E.
  - inversion H; subst. destruct (IH rest' eq_refl) as (pre & b & suf & -> & Hs & Hb & ->).
    exists (a :: pre), b, suf. auto.
  - destruct (a <? hi - Z.of_nat (List.length rest)) eqn:Ea; [|discriminate].
    inversion H; subst. exists [], a, rest. apply Z.ltb_lt in Ea. auto.
Qed.

Lemma next_comb_none hi suf :
  next_comb hi suf = None ->
  forall s1 x s2, suf = s1 ++ x :: s2 -> ~ x < hi - Z.of_nat (List.length s2).
Proof.
  induction suf as [|a rest IH]; intros H s1 x s2 E; [destruct s1; discriminate|].
  cbn [next_comb] in H. destruct (next_comb hi rest) as [rest'|] eqn:Er; [discriminate|].
  destruct (a <? hi - Z.of_nat (List.length rest)) eqn:Ea; [discriminate|].
  destruct s1 as [|y s1]; simpl in E; inversion E; subst.
  - apply Z.ltb_ge in Ea. lia.
  - eapply IH; [reflexivity|reflexivity].
Qed.

(** ** The successor of a combination in [Combinations] *)

Lemma geti_intlist_of_0 c : geti (intlist_of c) 0 = Some (Z.of_nat (List.length c)).
Proof. reflexivity. Qed.

Lemma geti_cons h (x : list Z) t :
  1 <= t -> geti (h :: x) t = nth_error x (Z.to_nat (t - 1)).
Proof.
  intros Ht. unfold geti. replace (t <? 0) with false by (symmetry; apply Z.ltb_ge; lia).
  replace (Z.to_nat t) with (S (Z.to_nat (t - 1))) by lia. reflexivity.
Qed.

Lemma intlist_ext (x y : intlist) :
  List.length x = List.length y ->
  (forall t, 0 <= t < Z.of_nat (List.length x) -> geti x t = geti y t) ->
  x = y.
Proof.
  intros Hl H. apply nth_error_ext. intros i.
  destruct (Nat.lt_ge_cases i (List.length x)) as [Hi|Hi].
  - specialize (H (Z.of_nat i) ltac:(lia)). unfold geti in H.
    replace (Z.of_nat i <? 0) with false in H by (symmetry; apply Z.ltb_ge; lia).
    rewrite Nat2Z.id in H. exact H.
  - rewrite (proj2 (nth_error_None x i)) by exact Hi.
    rewrite (proj2 (nth_error_None y i)) by lia. reflexivity.
Qed.

Lemma loop_down_skip {St R} (body : Z -> St -> option (flow St R)) :
  forall m r j s,
    (forall t, j - Z.of_nat m < t <= j -> body t s = Some (Next s)) ->
    loop_down (m + r) j body s = loop_down r (j - Z.of_nat m) body s.
Proof.
  induction m as [|m IH]; intros r j s H.
  - simpl. rewrite Z.sub_0_r. reflexivity.
  - cbn [Nat.add loop_down]. rewrite (H j) by lia.
    rewrite IH by (intros t Ht; apply H; lia). f_equal. lia.
Qed.

Lemma sub_small x y : 0 <= y <= x -> x <= CInt.INT_MAX -> x -i y = x - y.
Proof.
  intros H1 H2. apply wrap_small. unfold CInt.INT_MIN. lia.
Qed.

Section Successor.

Variables (n k : Z) (pre suf : list Z) (a : Z).
Let c := pre ++ a :: suf.
Let prev := intlist_of c.
Let j0 := Z.of_nat (List.length pre) + 1.

Hypothesis k_length : Z.of_nat (List.length c) = k.
Hypothesis n_range : k <= n <= CInt.INT_MAX.
Hypothesis c_range : Forall (fun x => 1 <= x <= n) c.
Hypothesis suf_last : next_comb n suf = None.
Hypothesis a_grows : a < n - Z.of_nat (List.length suf).

Lemma k_split : k = Z.of_nat (List.length pre) + 1 + Z.of_nat (List.length suf).
Proof.
  rewrite <- k_length. unfold c. rewrite length_app. simpl. lia.
Qed.

Lemma a_range : 1 <= a <= n.
Proof.
  rewrite Forall_forall in c_range. apply c_range. unfold c.
  apply in_or_app. right. left. reflexivity.
Qed.

Lemma prev_at_j0 : geti prev j0 = Some a.
Proof.
  unfold prev, intlist_of, j0. rewrite geti_cons by lia.
  replace (Z.to_nat (Z.of_nat (List.length pre) + 1 - 1)) with (List.length pre) by lia.
  unfold c. rewrite nth_error_app2 by lia. rewrite Nat.sub_diag. reflexivity.
Qed.

Lemma prev_defined t : 1 <= t <= k -> exists v, geti prev t = Some v /\ 1 <= v <= n.
Proof.
  intros Ht. unfold prev, intlist_of. rewrite geti_cons by lia.
  destruct (nth_error c (Z.to_nat (t - 1))) as [v|] eqn:E.
  - exists v. split; [reflexivity|]. rewrite Forall_forall in c_range.
    apply c_range. eapply nth_error_In. exact E.
  - apply nth_error_None in E. lia.
Qed.

Lemma prev_after t x :
  j0 < t <= k -> geti prev t = Some x -> ~ x < n - (k - t).
Proof.
  intros Ht Hx. unfold prev, intlist_of in Hx. rewrite geti_cons in Hx by (unfold j0 in Ht; lia).
  unfold c, j0 in *. rewrite nth_error_app2 in Hx by lia.
  replace (Z.to_nat (t - 1) - List.length pre)%nat
    with (S (Z.to_nat (t - 1) - List.length pre - 1)) in Hx by lia.
  cbn [nth_error] in Hx. apply nth_error_split in Hx as (s1 & s2 & Es & Hl).
  pose proof (next_comb_none n suf suf_last s1 x s2 Es) as Hn.
  pose proof k_split as Hk. rewrite Es, length_app in Hk. simpl in Hk. lia.
Qed.

Lemma skipped cur t :
  j0 < t <= k -> successor_body n k prev t cur = Some (Next cur).
Proof.
  intros Ht. unfold successor_body.
  destruct (prev_defined t) as (x & Hx & Hr); [unfold j0 in Ht; lia|].
  rewrite Hx. cbn [obind].
  rewrite (sub_small k t) by (unfold j0 in Ht; lia).
  rewrite (sub_small n (k - t)) by lia.
  pose proof (prev_after t x Ht Hx).
  replace (x <? n - (k - t)) with false by (symmetry; apply Z.ltb_ge; lia).
  reflexivity.
Qed.

Lemma built cur :
  List.length cur = S (Z.to_nat k) -> geti cur 0 = Some k ->
  successor_body n k prev j0 cur
  = Some (Stop (intlist_of (pre ++ consec (a + 1) (S (List.length suf))))).
Proof.
  intros Hlen H0. pose proof k_split as Hk. pose proof a_range as Ha.
  unfold successor_body. rewrite prev_at_j0. cbn [obind].
  rewrite (sub_small k j0) by (unfold j0; lia).
  rewrite (sub_small n (k - j0)) by (unfold j0; lia).
  replace (a <? n - (k - j0)) with true by (symmetry; apply Z.ltb_lt; unfold j0; lia).
  destruct (iter_up_defined (St := intlist)
              (fun jj s => List.length s = S (Z.to_nat k) /\ geti s 0 = Some k /\
                           forall t, 1 <= t < jj -> geti s t = geti prev t)
              (fun jj s => v <-? geti prev jj ;; seti s jj v)
              (Z.to_nat (j0 - 1)) 1 cur) as (cur1 & -> & L1 & Z1 & C1).
  { split; [exact Hlen|]. split; [exact H0|]. intros t Ht. lia. }
  { intros jj s Hjj (Ls & Zs & Cs).
    destruct (prev_defined jj) as (v & Hv & _); [unfold j0 in Hjj; lia|].
    rewrite Hv. cbn [obind].
    destruct (seti_defined s jj v) as [s' Hs']; [unfold j0 in Hjj; lia|].
    exists s'. split; [exact Hs'|]. apply seti_spec in Hs' as (L & G & O).
    split; [congruence|]. split; [rewrite O by lia; exact Zs|].
    intros t Ht. destruct (Z.eq_dec t jj) as [->|Hne]; [congruence|].
    rewrite O by exact Hne. apply Cs. lia. }
  cbn [obind]. replace (1 + Z.of_nat (Z.to_nat (j0 - 1))) with j0 in C1 by (unfold j0; lia).
  rewrite add_one_small by (unfold CInt.INT_MAX in *; lia).
  destruct (seti_defined cur1 j0 (a + 1)) as [cur2 Hcur2]; [unfold j0; lia|].
  rewrite Hcur2. cbn [obind]. apply seti_spec in Hcur2 as (L2 & G2 & O2).
  destruct (iter_up_defined (St := intlist)
              (fun jj s => List.length s = S (Z.to_nat k) /\ geti s 0 = Some k /\
                           (forall t, 1 <= t < j0 -> geti s t = geti prev t) /\
                           forall t, j0 <= t < jj -> geti s t = Some (a + 1 + (t - j0)))
              (fun jj s => v <-? geti s (jj -i 1) ;; seti s jj (v +i 1))
              (Z.to_nat (k - j0)) (j0 + 1) cur2) as (cur3 & -> & L3 & Z3 & C3 & F3).
  { split; [congruence|]. split; [rewrite O2 by (unfold j0; lia); exact Z1|].
    split; [intros t Ht; rewrite O2 by lia; apply C1; exact Ht|].
    intros t Ht. assert (t = j0) by lia. subst t. rewrite G2. f_equal. lia. }
  { intros jj s Hjj (Ls & Zs & Cs & Fs).
    rewrite (sub_small jj 1) by (unfold j0 in *; lia).
    rewrite (Fs (jj - 1)) by lia. cbn [obind].
    rewrite add_one_small by (unfold j0, CInt.INT_MAX in *; lia).
    destruct (seti_defined s jj (a + 1 + (jj - 1 - j0) + 1)) as [s' Hs'];
      [unfold j0 in *; lia|].
    exists s'. split; [exact Hs'|]. apply seti_spec in Hs' as (L & G & O).
    split; [congruence|]. split; [rewrite O by (unfold j0 in *; lia); exact Zs|].
    split; [intros t Ht; rewrite O by lia; apply Cs; exact Ht|].
    intros t Ht. destruct (Z.eq_dec t jj) as [->|Hne]; [rewrite G; f_equal; lia|].
    rewrite O by exact Hne. apply Fs. lia. }
  cbn [obind]. f_equal. f_equal.
  replace (j0 + 1 + Z.of_nat (Z.to_nat (k - j0))) with (k + 1) in F3 by (unfold j0; lia).
  apply intlist_ext.
  - rewrite L3. unfold intlist_of.
    change (List.length (?h :: ?x)) with (S (List.length x)).
    rewrite length_app, consec_length. f_equal. lia.
  - intros t Ht. rewrite L3 in Ht.
    destruct (Z.eq_dec t 0) as [->|Hne].
    + rewrite Z3, geti_intlist_of_0, length_app, consec_length. f_equal. lia.
    + unfold intlist_of. rewrite (geti_cons _ (pre ++ _)) by lia.
      destruct (Z_lt_ge_dec t j0) as [Hlt|Hge].
      * rewrite C3 by lia. unfold prev, intlist_of. rewrite geti_cons by lia.
        unfold c. rewrite !nth_error_app1 by (unfold j0 in Hlt; lia). reflexivity.
      * rewrite F3 by lia. rewrite nth_error_app2 by (unfold j0 in Hge; lia).
        rewrite consec_nth by (unfold j0 in Hge; lia). f_equal. unfold j0 in *. lia.
Qed.

Lemma successor_split cur :
  List.length cur = S (Z.to_nat k) -> geti cur 0 = Some k ->
  successor n k prev cur
  = Some (intlist_of (pre ++ consec (a + 1) (S (List.length suf)))).
Proof.
  intros Hlen H0. pose proof k_split as Hk. unfold successor, for_down.
  replace (Z.to_nat (k - 1 + 1)) with (List.length suf + S (List.length pre))%nat by lia.
  rewrite loop_down_skip by (intros t Ht; apply skipped; unfold j0; lia).
  replace (k - Z.of_nat (List.length suf)) with j0 by (unfold j0; lia).
  cbn [loop_down]. rewrite (built cur Hlen H0). reflexivity.
Qed.

End Successor.

Lemma successor_next n k c d :
  Z.of_nat (List.length c) = k -> k <= n <= CInt.INT_MAX ->
  Forall (fun x => 1 <= x <= n) c ->
  next_comb n c = Some d ->
  successor n k (intlist_of c) (k :: repeat 0 (Z.to_nat k)) = Some (intlist_of d).
Proof.
  intros Hk Hn Hc Hd.
  apply next_comb_split in Hd as (pre & a & suf & -> & Hs & Ha & ->).
  apply successor_split; try assumption.
  - simpl. rewrite repeat_length. reflexivity.
  - reflexivity.
Qed.

(** ** Combinations *)

Lemma to_unsigned_wrap z : CInt.to_unsigned (CInt.wrap z) = z mod 2 ^ 32.
Proof.
  unfold CInt.to_unsigned, CInt.wrap. rewrite Zminus_mod_idemp_l. f_equal. lia.
Qed.

Lemma first_combination k :
  0 <= k ->
  iter_up (Z.to_nat k) 1 (fun j c => seti c j j) (k :: repeat 0 (Z.to_nat k))
  = Some (intlist_of (consec 1 (Z.to_nat k))).
Proof.
  intros Hk.
  destruct (iter_up_defined (St := intlist)
              (fun jj s => List.length s = S (Z.to_nat k) /\ geti s 0 = Some k /\
                           forall t, 1 <= t < jj -> geti s t = Some t)
              (fun j c => seti c j j) (Z.to_nat k) 1 (k :: repeat 0 (Z.to_nat k)))
    as (c1 & -> & L & Z0 & C).
  - split; [simpl; rewrite repeat_length; reflexivity|]. split; [reflexivity|].
    intros t Ht. lia.
  - intros jj s Hjj (Ls & Zs & Cs).
    destruct (seti_defined s jj jj) as [s' Hs']; [lia|].
    exists s'. split; [exact Hs'|]. apply seti_spec in Hs' as (L & G & O).
    split; [congruence|]. split; [rewrite O by lia; exact Zs|].
    intros t Ht. destruct (Z.eq_dec t jj) as [->|Hne]; [exact G|].
    rewrite O by exact Hne. apply Cs. lia.
  - f_equal. apply intlist_ext.
    + rewrite L. unfold intlist_of.
      change (List.length (?h :: ?x)) with (S (List.length x)).
      rewrite consec_length. reflexivity.
    + intros t Ht. rewrite L in Ht. destruct (Z.eq_dec t 0) as [->|Hne].
      * rewrite Z0, geti_intlist_of_0, consec_length. f_equal. lia.
      * unfold intlist_of. rewrite (geti_cons _ (consec _ _)) by lia.
        rewrite C by lia. rewrite consec_nth by lia. f_equal. lia.
Qed.

Lemma fill_table_chain n k cells w :
  enough_memory w -> 0 <= k <= n -> n <= CInt.INT_MAX ->
  forall L T c i,
    chain n c L ->
    Z.of_nat (List.length c) = k ->
    (forall x, In x (c :: L) -> Forall (fun y => 1 <= y <= n) x) ->
    i = Z.of_nat (List.length T) + 2 ->
    i + Z.of_nat (List.length L) <= cells -> cells <= CInt.INT_MAX + 1 ->
    fill_table (List.length L) i n k cells (map intlist_of (T ++ [c])) w
    = Ret (map intlist_of (T ++ c :: L)) w.
Proof.
  intros Hw Hk Hn. induction L as [|d L IH]; intros T c i Hc Hlen Hall Hi Hcells Hmax.
  - reflexivity.
  - destruct Hc as [Hd Hc]. cbn [List.length fill_table].
    replace (cells <=? i) with false
      by (symmetry; apply Z.leb_gt; simpl List.length in Hcells; lia).
    rewrite (bind_step _ _ _ _ _ (IntList_enough k w ltac:(lia) Hw)).
    assert (Hprev : get1 (map intlist_of (T ++ [c])) (i -i 1) = Some (intlist_of c)).
    { rewrite sub_small by (unfold CInt.INT_MAX in *; simpl List.length in Hcells; lia).
      unfold get1. replace (i - 1 <? 1) with false by (symmetry; apply Z.ltb_ge; lia).
      replace (Z.to_nat (i - 1 - 1)) with (List.length T) by lia.
      rewrite nth_error_map, nth_error_app2 by lia. rewrite Nat.sub_diag. reflexivity. }
    rewrite Hprev, (bind_step _ _ _ _ _ (lift_Some _ w)).
    rewrite (successor_next n k c d Hlen ltac:(lia)
               (Hall c ltac:(left; reflexivity)) Hd).
    rewrite (bind_step _ _ _ _ _ (lift_Some _ w)).
    replace (map intlist_of (T ++ [c]) ++ [intlist_of d])
      with (map intlist_of ((T ++ [c]) ++ [d]))
      by (rewrite !map_app; reflexivity).
    rewrite (IH (T ++ [c]) d (i + 1)).
    + rewrite <- app_assoc. reflexivity.
    + exact Hc.
    + rewrite (next_comb_length _ _ _ Hd). exact Hlen.
    + intros x Hx. apply Hall. right. exact Hx.
    + rewrite length_app. simpl. lia.
    + simpl List.length in Hcells. lia.
    + exact Hmax.
Qed.

Lemma Combinations_value n k w :
  0 <= k <= n -> n <= CInt.INT_MAX -> fits n k -> enough_memory w ->
  Combinations n k w
  = Ret (map intlist_of (subsets 1 (Z.to_nat n) (Z.to_nat k))) w.
Proof.
  intros Hk Hn Hfit Hw. unfold Combinations.
  replace (n <? k) with false by (symmetry; apply Z.ltb_ge; lia).
  replace (k <? 0) with false by (symmetry; apply Z.ltb_ge; lia).
  cbn [orb]. rewrite (bind_step _ _ _ _ _ (Binomial_value n k w Hk Hfit)).
  rewrite (bind_step _ _ _ _ _ (malloc_enough w Hw)). cbn [negb].
  pose proof (choose_pos (Z.to_nat n) (Z.to_nat k) ltac:(lia)) as Hpos.
  fold (chooseZ n k) in Hpos.
  assert (Hmax : chooseZ n k <= CInt.INT_MAX).
  { unfold fits in Hfit. destruct (Z.eq_dec k 0) as [->|Hne].
    - unfold chooseZ. simpl. destruct (Z.to_nat n); simpl; unfold CInt.INT_MAX; lia.
    - nia. }
  assert (Hcells : CInt.to_unsigned (chooseZ n k +i 1) = chooseZ n k + 1).
  { unfold CInt.add. rewrite to_unsigned_wrap. apply Z.mod_small.
    unfold CInt.INT_MAX in *. lia. }
  rewrite Hcells.
  replace (chooseZ n k + 1 <=? 1) with false by (symmetry; apply Z.leb_gt; lia).
  rewrite (bind_step _ _ _ _ _ (IntList_enough k w ltac:(lia) Hw)).
  rewrite first_combination by lia.
  rewrite (bind_step _ _ _ _ _ (lift_Some _ w)).
  destruct (subsets_chain (Z.to_nat n) 1 (Z.to_nat k) ltac:(lia)) as (L & EL & CL).
  rewrite EL.
  pose proof (subsets_length (Z.to_nat n) 1 (Z.to_nat k)) as Hlen.
  rewrite EL in Hlen. fold (chooseZ n k) in Hlen. simpl List.length in Hlen.
  replace (Z.to_nat (chooseZ n k - 1)) with (List.length L) by lia.
  replace (1 + Z.of_nat (Z.to_nat n) - 1) with n in CL by lia.
  apply (fill_table_chain n k (chooseZ n k + 1) w Hw Hk Hn L []
           (consec 1 (Z.to_nat k)) 2).
  - exact CL.
  - rewrite consec_length. lia.
  - intros x Hx. rewrite <- EL in Hx. apply subsets_spec in Hx as (_ & _ & Hf).
    eapply Forall_impl; [|exact Hf]. cbv beta. intros y Hy. lia.
  - reflexivity.
  - lia.
  - lia.
Qed.




(** ** Fuel *)

Lemma branches_more call call' :
  (forall A r w res w', call A r w = Ret res w' -> call' A r w = Ret res w') ->
  forall count i k r A w res w',
    branches call count i k r A w = Ret res w' ->
    branches call' count i k r A w = Ret res w'.
Proof.
  intros Hcall. induction count as [|c IH]; intros i k r A w res w' H; [exact H|].
  cbn [branches] in *.
  apply bind_Ret in H as (r' & w1 & Hr & H). rewrite (bind_step _ _ _ _ _ Hr).
  apply bind_Ret in H as (A1 & w2 & HA & H). rewrite (bind_step _ _ _ _ _ HA).
  apply bind_Ret in H as ([tp A2] & w3 & Hc & H).
  rewrite (bind_step _ _ _ _ _ (Hcall _ _ _ _ _ Hc)).
  destruct tp; cbn [negb] in *; [|exact H].
  apply bind_Ret in H as (A3 & w4 & HA3 & H). rewrite (bind_step _ _ _ _ _ HA3).
  apply IH. exact H.
Qed.

(** A call that returns with some fuel returns the same with more. *)
Lemma more_fuel fuel : forall fuel' n k cosetreps adj comb A R newpoint w res w',
  (fuel <= fuel')%nat ->
  TransversalProperty fuel n k cosetreps adj comb A R newpoint w = Ret res w' ->
  TransversalProperty fuel' n k cosetreps adj comb A R newpoint w = Ret res w'.
Proof.
  induction fuel as [|fuel IH];
    intros fuel' n k cosetreps adj comb A R newpoint w res w' Hle H; [discriminate|].
  destruct fuel' as [|fuel']; [lia|].
  cbn [TransversalProperty] in *.
  apply bind_Ret in H as (ok & w1 & Hm & H). rewrite (bind_step _ _ _ _ _ Hm).
  destruct ok; cbn [negb] in *; [|discriminate].
  apply bind_Ret in H as (ok' & w2 & Hm' & H). rewrite (bind_step _ _ _ _ _ Hm').
  destruct ok'; cbn [negb] in *; [|discriminate].
  apply bind_Ret in H as (fl & w3 & Hs & H). rewrite (bind_step _ _ _ _ _ Hs).
  destruct fl as [[Rnew Rnewcount]|u]; [|exact H].
  destruct (Rnewcount =? 0); [exact H|].
  apply bind_Ret in H as ([r Rnew'] & w4 & Hp & H). rewrite (bind_step _ _ _ _ _ Hp).
  eapply branches_more; [|exact H].
  intros A0 r0 w0 res0 w0' H0. cbv beta in *. apply (IH fuel'); [lia|exact H0].
Qed.

Lemma result_unique fuel fuel' n k cosetreps adj comb A R newpoint w res w' res' w'' :
  TransversalProperty fuel n k cosetreps adj comb A R newpoint w = Ret res w' ->
  TransversalProperty fuel' n k cosetreps adj comb A R newpoint w = Ret res' w'' ->
  res' = res /\ w'' = w'.
Proof.
  intros H H'.
  apply (more_fuel fuel (Nat.max fuel fuel')) in H; [|lia].
  apply (more_fuel fuel' (Nat.max fuel fuel')) in H'; [|lia].
  rewrite H in H'. inversion H'. auto.
Qed.

(** ** The contract in the comment of [TransversalProperty] *)

Lemma In_rotations_3 g :
  In g (rotation_reps 3) -> g = [3; 1; 2; 3] \/ g = [3; 2; 3; 1] \/ g = [3; 3; 1; 2].
Proof. simpl. intros [H|[H|[H|[]]]]; auto. Qed.

Lemma three_points x : 1 <= x <= 3 -> x = 1 \/ x = 2 \/ x = 3.
Proof. lia. Qed.

Lemma rotations_3_group : group_on 3 (rotation_reps 3) /\ transitive_on 3 (rotation_reps 3).
Proof.
  split; [split; [|split; [|split]]|].
  - intros g Hg. apply In_rotations_3 in Hg.
    destruct Hg as [-> | [-> | -> ]]; (split; [reflexivity|]); split;
      try (intros x Hx; apply three_points in Hx; destruct Hx as [-> | [-> | -> ]];
           vm_compute; split; discriminate);
      intros x y Hx Hy; apply three_points in Hx, Hy;
      destruct Hx as [-> | [-> | -> ]]; destruct Hy as [-> | [-> | -> ]];
      vm_compute; intros E; try reflexivity; discriminate E.
  - exists [3; 1; 2; 3]. split; [left; reflexivity|].
    intros x Hx. apply three_points in Hx. destruct Hx as [-> | [-> | -> ]]; reflexivity.
  - intros g h Hg Hh. apply In_rotations_3 in Hg, Hh.
    destruct Hg as [-> | [-> | -> ]]; destruct Hh as [-> | [-> | -> ]];
      [exists [3; 1; 2; 3]|exists [3; 2; 3; 1]|exists [3; 3; 1; 2]
      |exists [3; 2; 3; 1]|exists [3; 3; 1; 2]|exists [3; 1; 2; 3]
      |exists [3; 3; 1; 2]|exists [3; 1; 2; 3]|exists [3; 2; 3; 1]];
      (split; [simpl; auto|]);
      intros x Hx; apply three_points in Hx; destruct Hx as [-> | [-> | -> ]]; reflexivity.
  - intros g Hg. apply In_rotations_3 in Hg.
    destruct Hg as [-> | [-> | -> ]];
      [exists [3; 1; 2; 3]|exists [3; 3; 1; 2]|exists [3; 2; 3; 1]];
      (split; [simpl; auto|]);
      intros x Hx; apply three_points in Hx; destruct Hx as [-> | [-> | -> ]]; reflexivity.
  - intros x y Hx Hy. apply three_points in Hx, Hy.
    destruct Hx as [-> | [-> | -> ]]; destruct Hy as [-> | [-> | -> ]];
      [exists [3; 1; 2; 3]|exists [3; 2; 3; 1]|exists [3; 3; 1; 2]
      |exists [3; 3; 1; 2]|exists [3; 1; 2; 3]|exists [3; 2; 3; 1]
      |exists [3; 2; 3; 1]|exists [3; 3; 1; 2]|exists [3; 1; 2; 3]];
      (split; [simpl; auto|reflexivity]).
Qed.

Lemma triangle_encoded :
  encodes 3 2 (rotation_reps 3) [1; 2] (rotation_reps 3) [2; 2; 3] (singletons 3).
Proof.
  split; [|split; [|split]].
  - split; [reflexivity|]. split; [simpl; lia|]. repeat constructor; lia.
  - intros p Hp. apply three_points in Hp. destruct Hp as [-> | [-> | -> ]];
      eexists; (split; [reflexivity|]); (split; [simpl; auto|reflexivity]).
  - reflexivity.
  - exists 2. split; [reflexivity|]. intros a. split.
    + intros (i & Hi & Ha). assert (Hc : i = 1 \/ i = 2) by lia.
      destruct Hc as [-> | -> ]; inversion Ha; subst a.
      * exists [2]. split; [reflexivity|]. exists [3; 1; 2; 3].
        split; [simpl; auto|]. intros x. simpl. tauto.
      * exists [3]. split; [reflexivity|]. exists [3; 3; 1; 2].
        split; [simpl; auto|]. intros x. simpl. tauto.
    + intros (c & Hc & g & Hg & Hs). unfold get1 in Hc.
      destruct (a <? 1) eqn:Ea; [discriminate|]. apply Z.ltb_ge in Ea.
      destruct (Z.to_nat (a - 1)) as [|[|[|m]]] eqn:En; simpl in Hc;
        try (destruct m; discriminate Hc).
      * exfalso. inversion Hc; subst c. apply In_rotations_3 in Hg.
        destruct Hg as [-> | [-> | -> ]].
        -- destruct (Hs 2) as [_ H]. simpl in H. destruct H as [H|[H|[]]]; auto; lia.
        -- destruct (Hs 2) as [_ H]. simpl in H. destruct H as [H|[H|[]]]; auto; lia.
        -- destruct (Hs 3) as [_ H]. simpl in H. destruct H as [H|[H|[]]]; auto; lia.
      * exists 1. split; [lia|]. replace a with 2 by lia. reflexivity.
      * exists 2. split; [lia|]. replace a with 3 by lia. reflexivity.
Qed.

Lemma first_part_of_triangle x : part_of [3; 1; 2; 2] x = 1 -> x = 1.
Proof.
  unfold part_of, geti. destruct (x <? 0) eqn:E; [discriminate|].
  apply Z.ltb_ge in E. destruct (Z.to_nat x) as [|[|[|[|m]]]] eqn:En; simpl;
    try discriminate; [lia|destruct m; discriminate].
Qed.

Lemma triangle_documented :
  documented_input 3 2 (rotation_reps 3) [1; 2] (rotation_reps 3) [2; 2; 3]
    (singletons 3) [3; 1; 2; 2] [false; true; true] 1.
Proof.
  destruct rotations_3_group as [HG HT].
  split; [lia|]. split; [exact HG|]. split; [exact HT|].
  split; [exact triangle_encoded|]. split; [reflexivity|].
  split; [intros i Hi; apply three_points in Hi; destruct Hi as [-> | [-> | -> ]];
          eexists; (split; [reflexivity|lia])|].
  split; [intros i Hi; apply three_points in Hi; destruct Hi as [-> | [-> | -> ]];
          eexists; reflexivity|].
  split; [intros i Hi Ht; apply three_points in Hi; destruct Hi as [-> | [-> | -> ]];
          try discriminate Ht; reflexivity|].
  split; [lia|]. split; [reflexivity|]. split; [vm_compute; discriminate|].
  intros K HK Hnot Hmeet x Hx Hpart. exfalso.
  destruct (Hmeet 1 ltac:(lia)) as (y & Hy & Hy1 & _).
  apply first_part_of_triangle in Hy1. subst y. contradiction.
Qed.

Lemma triangle_no_completion Q :
  ~ completion 3 2 [3; 1; 2; 2] [false; true; true] Q.
Proof.
  intros (HQ & Hext & Havoid & Hsize).
  pose proof (Hext 1 ltac:(lia) eq_refl) as H1. change (part_of [3; 1; 2; 2] 1) with 1 in H1.
  pose proof (Havoid 2 ltac:(lia) eq_refl) as H2.
  pose proof (Havoid 3 ltac:(lia) eq_refl) as H3.
  change (Z.to_nat 3) with 3%nat in Hsize. cbn [count_upto] in Hsize.
  change (Z.of_nat 1) with 1 in Hsize. change (Z.of_nat 2) with 2 in Hsize.
  change (Z.of_nat 3) with 3 in Hsize. rewrite H1 in Hsize.
  replace (part_of Q 2 =? 2) with false in Hsize by (symmetry; apply Z.eqb_neq; exact H2).
  replace (part_of Q 3 =? 2) with false in Hsize by (symmetry; apply Z.eqb_neq; exact H3).
  simpl in Hsize. lia.
Qed.


(** ** Reading integer lists *)

Lemma replace_nth_app {T} (pre : list T) z zs v :
  replace_nth (pre ++ z :: zs) (List.length pre) v = Some (pre ++ v :: zs).
Proof.
  induction pre as [|h pre IH]; simpl; [reflexivity|]. rewrite IH. reflexivity.
Qed.

Lemma scan_int_value z zs ms out err :
  CInt.in_range z ->
  scan_int (World ms (z :: zs) out err) = Ret z (World ms zs out err).
Proof.
  intros Hz. unfold scan_int. cbn [stdin mallocs stdout stderr].
  rewrite (in_rangeb_true z Hz). reflexivity.
Qed.

Lemma read_cells_reads el : forall h pre zeros rest ms out err,
  Forall CInt.in_range el ->
  List.length zeros = List.length el ->
  read_cells (List.length el) (Z.of_nat (List.length pre) + 1) (h :: pre ++ zeros)
    (World ms (el ++ rest) out err)
  = Ret (h :: pre ++ el) (World ms rest out err).
Proof.
  induction el as [|v el IH]; intros h pre zeros rest ms out err Hr Hlen.
  - destruct zeros; [|discriminate]. reflexivity.
  - destruct zeros as [|z zeros]; [discriminate|]. cbn [List.length read_cells].
    inversion Hr as [|? ? Hv Hr']; subst. cbn [app].
    rewrite (bind_step _ _ _ _ _ (scan_int_value v (el ++ rest) ms out err Hv)).
    assert (Hset : seti (h :: pre ++ z :: zeros) (Z.of_nat (List.length pre) + 1) v
                   = Some (h :: pre ++ v :: zeros)).
    { unfold seti.
      replace (Z.of_nat (List.length pre) + 1 <? 0) with false
        by (symmetry; apply Z.ltb_ge; lia).
      replace (Z.to_nat (Z.of_nat (List.length pre) + 1)) with (S (List.length pre)) by lia.
      cbn [replace_nth]. rewrite replace_nth_app. reflexivity. }
    rewrite Hset, (bind_step _ _ _ _ _ (lift_Some _ _)).
    replace (Z.of_nat (List.length pre) + 1 + 1)
      with (Z.of_nat (List.length (pre ++ [v])) + 1)
      by (rewrite length_app; simpl; lia).
    replace (pre ++ v :: zeros) with ((pre ++ [v]) ++ zeros)
      by (rewrite <- app_assoc; reflexivity).
    rewrite IH by (assumption || (simpl in Hlen; lia)).
    rewrite <- app_assoc. reflexivity.
Qed.

Lemma IntListRead_value (elems rest : list Z) (w : world) :
  enough_memory w ->
  Z.of_nat (List.length elems) <= CInt.INT_MAX -> Forall CInt.in_range elems ->
  stdin w = Z.of_nat (List.length elems) :: elems ++ rest ->
  IntListRead w
  = Ret (intlist_of elems) (World (mallocs w) rest (stdout w) (stderr w)).
Proof.
  intros Hw Hlen Hr Hin. destruct w as [ms inp out err]. unfold enough_memory in Hw.
  simpl in Hw, Hin. subst ms inp. unfold IntListRead.
  rewrite (bind_step _ _ _ _ _
             (scan_int_value (Z.of_nat (List.length elems)) (elems ++ rest) [] out err
                ltac:(unfold CInt.in_range, CInt.INT_MIN; lia))).
  replace (Z.of_nat (List.length elems) <? 0) with false
    by (symmetry; apply Z.ltb_ge; lia).
  rewrite (bind_step _ _ _ _ _
             (IntList_enough (Z.of_nat (List.length elems))
                (World [] (elems ++ rest) out err) ltac:(lia) eq_refl)).
  rewrite Nat2Z.id.
  apply (read_cells_reads elems (Z.of_nat (List.length elems)) []
           (repeat 0 (List.length elems)) rest [] out err Hr).
  apply repeat_length.
Qed.



(** ** The tables read by [main] *)

Lemma read_lists_reads rows : forall rest out err,
  Forall ints rows ->
  read_lists (List.length rows) (World [] (List.concat (map intlist_of rows) ++ rest) out err)
  = Ret (map intlist_of rows) (World [] rest out err).
Proof.
  induction rows as [|row rows IH]; intros rest out err Hr; [reflexivity|].
  inversion Hr as [|? ? [Hl Hrow] Hr']; subst.
  cbn [List.length read_lists map List.concat]. rewrite <- app_assoc.
  rewrite (bind_step _ _ _ _ _
             (IntListRead_value row (List.concat (map intlist_of rows) ++ rest)
                (World [] (intlist_of row ++ List.concat (map intlist_of rows) ++ rest) out err)
                eq_refl Hl Hrow eq_refl)).
  cbn [mallocs stdout stderr]. rewrite (bind_step _ _ _ _ _ (IH rest out err Hr')).
  reflexivity.
Qed.

Lemma setup_value (n k : Z) (rows : list (list Z)) (adjl rest : list Z) (w : world) :
  enough_memory w ->
  2 <= k <= n -> n <= CInt.INT_MAX -> fits n (k - 1) ->
  Z.of_nat (List.length rows) = n -> Forall ints rows -> ints adjl ->
  stdin w = n :: k :: List.concat (map intlist_of rows) ++ intlist_of adjl ++ rest ->
  setup w
  = Ret (Setting n k (map intlist_of rows) (intlist_of adjl)
           (map intlist_of (subsets 1 (Z.to_nat n) (Z.to_nat (k - 1))))
           (n :: repeat 0 (Z.to_nat n)) (repeat false (Z.to_nat n)))
        (World [] rest (stdout w) (stderr w)).
Proof.
  intros Hw Hk Hn Hfit Hrows Hr [Hal Har] Hin. destruct w as [ms inp out err].
  unfold enough_memory in Hw. simpl in Hw, Hin. subst ms inp. unfold setup.
  rewrite (bind_step _ _ _ _ _
             (scan_int_value n _ [] out err
                ltac:(unfold CInt.in_range, CInt.INT_MIN; lia))).
  rewrite (bind_step _ _ _ _ _
             (scan_int_value k _ [] out err
                ltac:(unfold CInt.in_range, CInt.INT_MIN; lia))).
  replace (k <? 2) with false by (symmetry; apply Z.ltb_ge; lia).
  replace (k >? n) with false by (rewrite Z.gtb_ltb; symmetry; apply Z.ltb_ge; lia).
  cbn [orb]. unfold bind at 1. cbn [malloc mallocs negb].
  replace (Z.to_nat n) with (List.length rows) at 1 by lia.
  rewrite (bind_step _ _ _ _ _ (read_lists_reads rows _ out err Hr)).
  rewrite (bind_step _ _ _ _ _
             (IntListRead_value adjl rest (World [] (intlist_of adjl ++ rest) out err)
                eq_refl Hal Har eq_refl)).
  cbn [mallocs stdout stderr].
  rewrite sub_small by lia.
  rewrite (bind_step _ _ _ _ _
             (Combinations_value n (k - 1) (World [] rest out err)
                ltac:(lia) Hn Hfit eq_refl)).
  rewrite (bind_step _ _ _ _ _
             (IntList_enough n (World [] rest out err) ltac:(lia) eq_refl)).
  unfold bind at 1. cbn [malloc mallocs negb]. reflexivity.
Qed.



(** ** The call [main] makes for a trial *)

Lemma all_false_repeat (R : list bool) m :
  List.length R = m -> (forall i, 1 <= i <= Z.of_nat m -> get1 R i = Some false) ->
  R = repeat false m.
Proof.
  intros Hl H. apply nth_error_ext. intros j.
  destruct (Nat.lt_ge_cases j m) as [Hj|Hj].
  - specialize (H (Z.of_nat j + 1) ltac:(lia)). unfold get1 in H.
    replace (Z.of_nat j + 1 <? 1) with false in H by (symmetry; apply Z.ltb_ge; lia).
    replace (Z.to_nat (Z.of_nat j + 1 - 1)) with j in H by lia. rewrite H.
    symmetry. apply nth_error_repeat. exact Hj.
  - rewrite (proj2 (nth_error_None R j)) by lia.
    rewrite (proj2 (nth_error_None (repeat false m) j)) by (rewrite repeat_length; lia).
    reflexivity.
Qed.

Lemma count_members (ps : list Z) : forall m f,
  NoDup ps -> Forall (fun p => 1 <= p <= Z.of_nat m) ps ->
  (forall i, 1 <= i <= Z.of_nat m -> (f i = true <-> In i ps)) ->
  count_upto f m = Z.of_nat (List.length ps).
Proof.
  induction ps as [|p ps IH]; intros m f Hnd Hr Hf.
  - apply count_upto_zero. intros i Hi. destruct (f i) eqn:E; [|reflexivity].
    apply Hf in E; [destruct E|exact Hi].
  - inversion Hnd as [|? ? Hnot Hnd']; subst. inversion Hr as [|? ? Hp Hr']; subst.
    rewrite (count_upto_update (fun i => f i && negb (i =? p)) f m p).
    + rewrite (IH m (fun i => f i && negb (i =? p)) Hnd' Hr').
      * simpl List.length. lia.
      * intros i Hi. rewrite andb_true_iff, negb_true_iff, Z.eqb_neq, (Hf i Hi).
        simpl. split.
        -- intros [[E|E] Hne]; [congruence|exact E].
        -- intros E. split; [right; exact E|]. intros ->. contradiction.
    + exact Hp.
    + rewrite Z.eqb_refl, andb_false_r. reflexivity.
    + apply Hf; [exact Hp|left; reflexivity].
    + intros i Hi. replace (i =? p) with false by (symmetry; apply Z.eqb_neq; exact Hi).
      rewrite andb_true_r. reflexivity.
Qed.

Section Trial.

Variables (n k : Z) (ps : list Z) (A : intlist) (R : list bool).
Hypothesis k_range : 2 <= k <= n.
Hypothesis A_length : List.length A = S (Z.to_nat n).
Hypothesis R_length : List.length R = Z.to_nat n.
Hypothesis ps_distinct : NoDup ps.
Hypothesis ps_range : Forall (fun p => 1 <= p <= n) ps.
Hypothesis ps_length : 1 <= Z.of_nat (List.length ps) <= k - 1.

Lemma reset_buffers :
  exists A0,
    iter_up (Z.to_nat n) 1
      (fun i st => A' <-? seti (fst st) i k ;;
                   R' <-? set1 (snd st) i false ;; Some (A', R')) (A, R)
    = Some (A0, repeat false (Z.to_nat n)) /\
    List.length A0 = S (Z.to_nat n) /\ geti A0 0 = geti A 0 /\
    forall i, 1 <= i <= n -> geti A0 i = Some k.
Proof.
  destruct (iter_up_defined (St := intlist * list bool)
              (fun j st => List.length (fst st) = S (Z.to_nat n) /\
                           List.length (snd st) = Z.to_nat n /\
                           geti (fst st) 0 = geti A 0 /\
                           forall i, 1 <= i < j ->
                             geti (fst st) i = Some k /\ get1 (snd st) i = Some false)
              (fun i st => A' <-? seti (fst st) i k ;;
                           R' <-? set1 (snd st) i false ;; Some (A', R'))
              (Z.to_nat n) 1 (A, R)) as ([A0 R0] & E & LA & LR & Z0 & Hall).
  - cbn [fst snd]. split; [exact A_length|]. split; [exact R_length|].
    split; [reflexivity|]. intros i Hi. lia.
  - intros j [A' R'] Hj (LA & LR & Z0 & Hall). cbn [fst snd] in *.
    destruct (seti_defined A' j k ltac:(lia)) as [A2 HA2].
    destruct (set1_defined R' j false ltac:(lia)) as [R2 HR2].
    rewrite HA2. cbn [obind]. rewrite HR2. cbn [obind].
    eexists. split; [reflexivity|]. cbn [fst snd].
    apply seti_spec in HA2 as (L1 & G1 & O1). apply set1_spec in HR2 as (L2 & G2 & O2).
    split; [congruence|]. split; [congruence|].
    split; [rewrite O1 by lia; exact Z0|].
    intros i Hi. destruct (Z.eq_dec i j) as [->|Hne]; [auto|].
    rewrite O1, O2 by exact Hne. apply Hall. lia.
  - cbn [fst snd] in *. exists A0.
    assert (R0 = repeat false (Z.to_nat n)) as ->.
    { apply all_false_repeat; [exact LR|]. intros i Hi. apply Hall. lia. }
    split; [exact E|]. split; [exact LA|]. split; [exact Z0|].
    intros i Hi. apply Hall. lia.
Qed.

Lemma place_points A0 :
  List.length A0 = S (Z.to_nat n) ->
  (forall i, 1 <= i <= n -> geti A0 i = Some k) ->
  exists A1,
    iter_up (List.length ps) 1
      (fun i A' => p <-? geti (intlist_of ps) i ;; seti A' p i) A0 = Some A1 /\
    List.length A1 = S (Z.to_nat n) /\ geti A1 0 = geti A0 0 /\
    (forall t p, nth_error ps t = Some p -> geti A1 p = Some (Z.of_nat t + 1)) /\
    (forall i, 1 <= i <= n -> ~ In i ps -> geti A1 i = Some k).
Proof.
  intros LA Hk.
  destruct (iter_up_defined (St := intlist)
              (fun j A' => List.length A' = S (Z.to_nat n) /\ geti A' 0 = geti A0 0 /\
                           (forall t p, Z.of_nat t + 1 < j -> nth_error ps t = Some p ->
                                        geti A' p = Some (Z.of_nat t + 1)) /\
                           (forall i, 1 <= i <= n ->
                              (forall t, Z.of_nat t + 1 < j -> nth_error ps t <> Some i) ->
                              geti A' i = Some k))
              (fun i A' => p <-? geti (intlist_of ps) i ;; seti A' p i)
              (List.length ps) 1 A0) as (A1 & E & L1 & Z1 & P1 & K1).
  - split; [exact LA|]. split; [reflexivity|]. split; [intros t p Ht; lia|].
    intros i Hi _. apply Hk. exact Hi.
  - intros j A' Hj (L & Z0 & P & K).
    unfold intlist_of. rewrite geti_cons by lia.
    destruct (nth_error ps (Z.to_nat (j - 1))) as [p|] eqn:Ep;
      [|apply nth_error_None in Ep; lia].
    cbn [obind]. pose proof (nth_error_In _ _ Ep) as Hin.
    rewrite Forall_forall in ps_range. pose proof (ps_range p Hin) as Hp.
    destruct (seti_defined A' p j ltac:(lia)) as [A2 HA2]. exists A2.
    split; [exact HA2|]. apply seti_spec in HA2 as (L2 & G2 & O2).
    split; [congruence|]. split; [rewrite O2 by lia; exact Z0|]. split.
    + intros t q Ht Hq. destruct (Z.eq_dec (Z.of_nat t + 1) j) as [Et|Et].
      * replace (Z.to_nat (j - 1)) with t in Ep by lia.
        rewrite Ep in Hq. inversion Hq; subst q. rewrite G2. f_equal. lia.
      * rewrite O2; [apply P; [lia|exact Hq]|]. intros ->.
        pose proof (proj1 (NoDup_nth_error ps) ps_distinct t (Z.to_nat (j - 1))) as Hnd.
        assert (t = Z.to_nat (j - 1)); [|lia].
        apply Hnd; [apply nth_error_Some; congruence|congruence].
    + intros i Hi Hnot. rewrite O2.
      * apply K; [exact Hi|]. intros t Ht. apply Hnot. lia.
      * intros ->. apply (Hnot (Z.to_nat (j - 1))); [lia|exact Ep].
  - exists A1. split; [exact E|]. split; [exact L1|]. split; [exact Z1|]. split.
    + intros t p Hp. apply P1; [|exact Hp].
      assert (t < List.length ps)%nat by (apply nth_error_Some; congruence). lia.
    + intros i Hi Hnot. apply K1; [exact Hi|]. intros t _ Ht. apply Hnot.
      eapply nth_error_In. exact Ht.
Qed.

(** The partition a trial starts from gives the points of [shortrep] the
    parts 1, 2, ... in order and every other point the part [k]; with the
    empty subset and the first point of [shortrep] it is an input that
    [TransversalProperty] expects, within the bound on the first parts. *)
Lemma trial_start :
  exists A1,
    init_trial n k (intlist_of ps) A R = Some (A1, repeat false (Z.to_nat n)) /\
    geti A1 0 = geti A 0 /\
    (forall t p, nth_error ps t = Some p -> geti A1 p = Some (Z.of_nat t + 1)) /\
    (forall i, 1 <= i <= n -> ~ In i ps -> geti A1 i = Some k) /\
    call_ok n k A1 (repeat false (Z.to_nat n)) (hd 0 ps) /\
    count_upto (in_first k A1) (Z.to_nat n) = Z.of_nat (List.length ps) /\
    count_upto (in_first k A1) (Z.to_nat n) * k <= (k - 1) * n.
Proof.
  destruct reset_buffers as (A0 & E0 & L0 & Z0 & K0).
  destruct (place_points A0 L0 K0) as (A1 & E1 & L1 & Z1 & P1 & K1).
  exists A1. unfold init_trial. rewrite E0. cbn [obind fst snd].
  change (Length (intlist_of ps)) with (Some (Z.of_nat (List.length ps))).
  cbn [obind]. rewrite Nat2Z.id, E1. cbn [obind].
  assert (Hin : forall i, 1 <= i <= n -> (in_first k A1 i = true <-> In i ps)).
  { intros i Hi. unfold in_first. split.
    - intros H. destruct (in_dec Z.eq_dec i ps) as [Hi'|Hi']; [exact Hi'|].
      rewrite (K1 i Hi Hi'), Z.ltb_irrefl in H. discriminate.
    - intros H. apply In_nth_error in H as [t Ht]. rewrite (P1 t i Ht).
      apply Z.ltb_lt. assert (t < List.length ps)%nat by (apply nth_error_Some; congruence).
      lia. }
  assert (Hcount : count_upto (in_first k A1) (Z.to_nat n) = Z.of_nat (List.length ps)).
  { apply count_members; [exact ps_distinct| |].
    - eapply Forall_impl; [|exact ps_range]. cbv beta. intros p Hp. lia.
    - intros i Hi. apply Hin. lia. }
  split; [reflexivity|]. split; [congruence|]. split; [exact P1|]. split; [exact K1|].
  split; [|split; [exact Hcount|rewrite Hcount; nia]].
  split; [|split; [|split; [|split]]].
  - intros i Hi. destruct (in_dec Z.eq_dec i ps) as [Hi'|Hi'].
    + apply In_nth_error in Hi' as [t Ht]. exists (Z.of_nat t + 1).
      split; [apply P1; exact Ht|].
      assert (t < List.length ps)%nat by (apply nth_error_Some; congruence). lia.
    + exists k. split; [apply K1; assumption|lia].
  - intros i Hi. apply get1_defined. rewrite repeat_length. lia.
  - apply subset_of_last_empty.
  - destruct ps as [|p0 ps']; [simpl in ps_length; lia|].
    inversion ps_range; subst. assumption.
  - destruct ps as [|p0 ps']; [simpl in ps_length; lia|].
    unfold in_first. cbn [hd]. rewrite (P1 0%nat p0 eq_refl). apply Z.ltb_lt. lia.
Qed.

End Trial.

(** X3: for a [shortrep] of at most [k-1] distinct points of [{1,...,n}], the
    call of a trial is on an input as [TransversalProperty] expects it, with
    at most [((k-1)*n)/k] points in the first parts. *)
Theorem trial_input_ok (n k : Z) (ps : list Z) (A : intlist) (R : list bool) :
  2 <= k <= n ->
  List.length A = S (Z.to_nat n) -> List.length R = Z.to_nat n ->
  NoDup ps -> Forall (fun p => 1 <= p <= n) ps ->
  1 <= Z.of_nat (List.length ps) <= k - 1 ->
  exists A1,
    init_trial n k (intlist_of ps) A R = Some (A1, repeat false (Z.to_nat n)) /\
    geti A1 0 = geti A 0 /\
    (forall t p, nth_error ps t = Some p -> geti A1 p = Some (Z.of_nat t + 1)) /\
    (forall i, 1 <= i <= n -> ~ In i ps -> geti A1 i = Some k) /\
    call_ok n k A1 (repeat false (Z.to_nat n)) (hd 0 ps) /\
    count_upto (in_first k A1) (Z.to_nat n) = Z.of_nat (List.length ps) /\
    count_upto (in_first k A1) (Z.to_nat n) * k <= (k - 1) * n.
Proof. intros. apply trial_start; assumption. Qed.

Lemma trial_input_ok_witness :
  exists A1,
    init_trial 5 3 (intlist_of [4; 2]) [5; 0; 0; 0; 0; 0] (repeat false 5)
    = Some (A1, repeat false (Z.to_nat 5)) /\
    geti A1 0 = geti [5; 0; 0; 0; 0; 0] 0 /\
    (forall t p, nth_error [4; 2] t = Some p -> geti A1 p = Some (Z.of_nat t + 1)) /\
    (forall i, 1 <= i <= 5 -> ~ In i [4; 2] -> geti A1 i = Some 3) /\
    call_ok 5 3 A1 (repeat false (Z.to_nat 5)) (hd 0 [4; 2]) /\
    count_upto (in_first 3 A1) (Z.to_nat 5) = Z.of_nat (List.length [4; 2]) /\
    count_upto (in_first 3 A1) (Z.to_nat 5) * 3 <= (3 - 1) * 5.
Proof.
  apply (trial_input_ok 5 3 [4; 2] [5; 0; 0; 0; 0; 0] (repeat false 5)).
  - lia.
  - reflexivity.
  - reflexivity.
  - repeat constructor; simpl; intuition lia.
  - repeat constructor; lia.
  - simpl. lia.
Defined.

(** ** What a call changes in the buffer [A] *)

Lemma only_moved_refl n k A : only_moved n k A A.
Proof. split; [reflexivity|]. intros i. left. reflexivity. Qed.

Lemma only_moved_step n k A r l A1 A2 :
  1 <= r <= n -> geti A r = Some k -> 1 <= l <= k - 1 ->
  seti A r l = Some A1 -> only_moved n k A1 A2 -> only_moved n k A A2.
Proof.
  intros Hr Hk Hl Hset [Hlen Hm]. apply seti_spec in Hset as (L & G & O).
  split; [congruence|]. intros i. destruct (Z.eq_dec i r) as [->|Hne].
  - right. split; [exact Hr|]. split; [exact Hk|].
    destruct (Hm r) as [E|(_ & E & _)]; [|rewrite G in E; inversion E; lia].
    exists l. split; [congruence|exact Hl].
  - rewrite <- (O i Hne). apply Hm.
Qed.

Lemma branches_frame n k call Rnew' p A :
  1 <= p <= n -> geti A p = Some k ->
  get1 Rnew' p = Some false ->
  subset_of_last n k A Rnew' ->
  (forall A1 w res A2 w',
      subset_of_last n k A1 Rnew' ->
      call A1 p w = Ret (res, A2) w' ->
      only_moved n k A1 A2 /\ (res = true -> A2 = A1)) ->
  forall count i w res A' w',
    1 <= i -> i + Z.of_nat count <= k ->
    branches call count i k (Some p) A w = Ret (res, A') w' ->
    only_moved n k A A'.
Proof.
  intros Hp Hk Hfalse Hsub Hcall. induction count as [|c IH]; intros i w res A' w' Hi Hic H.
  - simpl in H. unfold ret in H. inversion H. apply only_moved_refl.
  - cbn [branches] in H.
    apply bind_Ret in H as (r' & w1 & Hr & H). apply lift_Ret in Hr as [Hr ->].
    inversion Hr; subst r'.
    apply bind_Ret in H as (A1 & w1 & HA & H). apply lift_Ret in HA as [HA ->].
    apply bind_Ret in H as ([tp A2] & w1 & Hc & H).
    assert (Hsub1 : subset_of_last n k A1 Rnew').
    { intros j Hj Ht. pose proof (seti_spec _ _ _ _ HA) as (_ & _ & O).
      rewrite O; [apply Hsub; assumption|]. intros ->. congruence. }
    destruct (Hcall _ _ _ _ _ Hsub1 Hc) as [Hm Htrue].
    destruct tp; cbn [negb] in H.
    + rewrite (Htrue eq_refl) in H.
      apply bind_Ret in H as (A3 & w2 & HA3 & H). apply lift_Ret in HA3 as [HA3 ->].
      rewrite (seti_restore _ _ _ _ _ Hk HA) in HA3. inversion HA3; subst A3.
      apply (IH (i + 1) w1 res A' w'); [lia|lia|exact H].
    + unfold ret in H. inversion H; subst.
      apply (only_moved_step n k A p i A1 A'); try assumption. lia.
Qed.

Lemma call_frame fuel : forall n k cosetreps adj comb A R newpoint w res A' w',
  subset_of_last n k A R ->
  TransversalProperty fuel n k cosetreps adj comb A R newpoint w = Ret (res, A') w' ->
  only_moved n k A A'.
Proof.
  induction fuel as [|fuel IH];
    intros n k cosetreps adj comb A R newpoint w res A' w' Hsub H; [discriminate|].
  cbn [TransversalProperty] in H.
  apply bind_Ret in H as (ok & w1 & _ & H). destruct ok; simpl in H; [|discriminate].
  apply bind_Ret in H as (ok' & w2 & _ & H). destruct ok'; simpl in H; [|discriminate].
  apply bind_Ret in H as (fl & w3 & Hs & H). apply lift_Ret in Hs as [Hs ->].
  destruct fl as [[Rnew Rnewcount]|u];
    [|unfold ret in H; inversion H; apply only_moved_refl].
  destruct (Rnewcount =? 0); [unfold ret in H; inversion H; apply only_moved_refl|].
  apply bind_Ret in H as ([r Rnew'] & w3 & Hp & H). apply lift_Ret in Hp as [Hp ->].
  apply scan_subset in Hs as [Hlen Hsub']; [|exact Hsub].
  apply pick_spec in Hp. destruct r as [p|].
  - destruct Hp as (Hr & Ht & Hset & _). apply set1_spec in Hset as (_ & G & O).
    destruct (Z_le_gt_dec 1 (k - 1)) as [Hk1|Hk1].
    + eapply (branches_frame n k _ Rnew' p A Hr (Hsub' p Hr Ht) G); [| | | |exact H].
      * intros j Hj Hjt. destruct (Z.eq_dec j p) as [->|Hne]; [congruence|].
        rewrite O in Hjt by exact Hne. apply Hsub'; assumption.
      * intros A1 w0 res0 A2 w0' Hsub1 Hcall. cbv beta in Hcall. split.
        -- eapply IH; eassumption.
        -- intros ->. eapply true_restores; eassumption.
      * lia.
      * lia.
    + replace (Z.to_nat (k - 1)) with 0%nat in H by lia. simpl in H.
      unfold ret in H. inversion H. apply only_moved_refl.
  - destruct (Z.to_nat (k - 1)) as [|c]; cbn [branches] in H.
    + unfold ret in H. inversion H. apply only_moved_refl.
    + apply bind_Ret in H as (r' & wr & Hr & _). apply lift_Ret in Hr as [Hr _].
      discriminate.
Qed.

(** X4: whatever a call returns, the buffer [A] keeps its length and its
    entries, but for points of the last part that now have one of the
    first [k-1] parts: the points of the first parts and the length cell
    are as they were. *)
Theorem call_only_moves_points (fuel : nat) (n k : Z) (cosetreps : list intlist)
    (adj : intlist) (comb : list intlist) (A : intlist) (R : list bool)
    (newpoint : Z) (w : world) (res : bool) (A' : intlist) (w' : world) :
  subset_of_last n k A R ->
  TransversalProperty fuel n k cosetreps adj comb A R newpoint w = Ret (res, A') w' ->
  only_moved n k A A' /\
  (forall i, in_first k A i = true -> geti A' i = geti A i) /\
  (1 <= k <= n -> Length A = Some n -> Length A' = Some n).
Proof.
  intros Hsub H. pose proof (call_frame _ _ _ _ _ _ _ _ _ _ _ _ _ Hsub H) as Hm.
  split; [exact Hm|]. destruct Hm as [_ Hm]. split.
  - intros i Hi. destruct (Hm i) as [E|(_ & E & _)]; [exact E|].
    unfold in_first in Hi. rewrite E, Z.ltb_irrefl in Hi. discriminate.
  - intros Hk HL. unfold Length in *. destruct (Hm 0) as [E|(H0 & _)]; [congruence|lia].
Qed.

Lemma call_only_moves_points_witness :
  only_moved 4 2 [4; 1; 2; 2; 2] [4; 1; 2; 1; 2] /\
  (forall i, in_first 2 [4; 1; 2; 2; 2] i = true ->
             geti [4; 1; 2; 1; 2] i = geti [4; 1; 2; 2; 2] i) /\
  (1 <= 2 <= 4 -> Length [4; 1; 2; 2; 2] = Some 4 -> Length [4; 1; 2; 1; 2] = Some 4).
Proof.
  apply (call_only_moves_points 2 4 2 (rotation_reps 4) [1; 3] (singletons 4)
           [4; 1; 2; 2; 2] (repeat false 4) 1 quiet false [4; 1; 2; 1; 2] quiet).
  - apply subset_of_last_empty.
  - vm_compute. reflexivity.
Defined.

(** ** The first branch that fails *)

Lemma branches_true_prefix k call p A w :
  geti A p = Some k ->
  forall count i,
    (forall j, i <= j < i + Z.of_nat count ->
       exists Aj, seti A p j = Some Aj /\ call Aj p w = Ret (true, Aj) w) ->
    forall more res w',
      branches call more (i + Z.of_nat count) k (Some p) A w = Ret res w' ->
      branches call (count + more) i k (Some p) A w = Ret res w'.
Proof.
  intros Hk. induction count as [|c IH]; intros i Hpre more res w' H.
  - rewrite Z.add_0_r in H. exact H.
  - cbn [Nat.add branches]. rewrite (bind_step _ _ _ _ _ (lift_Some p w)).
    destruct (Hpre i ltac:(lia)) as (Ai & HAi & Hcall).
    rewrite HAi, (bind_step _ _ _ _ _ (lift_Some Ai w)).
    rewrite (bind_step _ _ _ _ _ Hcall). cbn [negb].
    rewrite (seti_restore _ _ _ _ _ Hk HAi), (bind_step _ _ _ _ _ (lift_Some A w)).
    apply IH.
    + intros j Hj. apply Hpre. lia.
    + replace (i + 1 + Z.of_nat c) with (i + Z.of_nat (S c)) by lia. exact H.
Qed.

(** X5: when the recursive calls for the parts before [i] return true and the
    one for the part [i] returns false, the call returns false, with the
    buffer as that recursive call left it: the parts after [i] are not
    tried. *)
Theorem first_false_branch_decides (fuel : nat) (n k : Z) (cosetreps : list intlist)
    (adj : intlist) (comb : list intlist) (A : intlist) (R : list bool)
    (newpoint : Z) (w : world) (Rnew : list bool) (Rnewcount : Z) (r : Z)
    (Rnew' : list bool) (i : Z) (Ai A2 : intlist) :
  enough_memory w ->
  subset_of_last n k A R ->
  scan n k cosetreps adj comb A R newpoint = Some (Next (Rnew, Rnewcount)) ->
  Rnewcount <> 0 ->
  pick n Rnew = Some (Some r, Rnew') ->
  1 <= i <= k - 1 ->
  (forall j, 1 <= j < i ->
     exists Aj A', seti A r j = Some Aj /\
       TransversalProperty fuel n k cosetreps adj comb Aj Rnew' r w = Ret (true, A') w) ->
  seti A r i = Some Ai ->
  TransversalProperty fuel n k cosetreps adj comb Ai Rnew' r w = Ret (false, A2) w ->
  TransversalProperty (S fuel) n k cosetreps adj comb A R newpoint w = Ret (false, A2) w.
Proof.
  intros Hw Hsub Hs Hc Hp Hi Hpre HAi Hfalse.
  rewrite TransversalProperty_step by exact Hw. rewrite Hs.
  replace (Rnewcount =? 0) with false by (symmetry; apply Z.eqb_neq; exact Hc).
  rewrite Hp.
  pose proof (scan_subset _ _ _ _ _ _ _ _ _ _ Hsub Hs) as [Hlen Hsub'].
  pose proof (pick_spec _ _ _ _ Hp) as (Hr & Ht & Hset & _).
  pose proof (set1_spec _ _ _ _ Hset) as (_ & G & O).
  assert (Hsub'' : subset_of_last n k A Rnew').
  { intros j Hj Hjt. destruct (Z.eq_dec j r) as [->|Hne]; [congruence|].
    rewrite O in Hjt by exact Hne. apply Hsub'; assumption. }
  replace (Z.to_nat (k - 1)) with (Z.to_nat (i - 1) + S (Z.to_nat (k - 1 - i)))%nat by lia.
  apply (branches_true_prefix k _ r A w (Hsub' r Hr Ht)).
  - intros j Hj. destruct (Hpre j ltac:(lia)) as (Aj & A' & HAj & Hcall).
    exists Aj. split; [exact HAj|]. cbv beta.
    assert (Hsubj : subset_of_last n k Aj Rnew').
    { intros t Ht' Htt. pose proof (seti_spec _ _ _ _ HAj) as (_ & _ & Oj).
      rewrite Oj; [apply Hsub''; assumption|]. intros ->. congruence. }
    rewrite (true_restores _ _ _ _ _ _ _ _ _ _ _ _ Hsubj Hcall) in Hcall. exact Hcall.
  - replace (1 + Z.of_nat (Z.to_nat (i - 1))) with i by lia.
    cbn [branches]. rewrite (bind_step _ _ _ _ _ (lift_Some r w)).
    rewrite HAi, (bind_step _ _ _ _ _ (lift_Some Ai w)).
    rewrite (bind_step _ _ _ _ _ Hfalse). reflexivity.
Qed.

Lemma first_false_branch_decides_witness :
  TransversalProperty 7 6 3 (rotation_reps 6) [3; 6; 9; 15]
    (map intlist_of (subsets 1 6 2)) [6; 1; 2; 3; 3; 3; 3] (repeat false 6) 1 quiet
  = Ret (false, [6; 1; 2; 2; 3; 3; 1]) quiet.
Proof.
  apply (first_false_branch_decides 6 6 3 (rotation_reps 6) [3; 6; 9; 15]
           (map intlist_of (subsets 1 6 2)) [6; 1; 2; 3; 3; 3; 3] (repeat false 6) 1
           quiet [false; false; true; false; false; true] 2 3
           [false; false; false; false; false; true] 2
           [6; 1; 2; 2; 3; 3; 3] [6; 1; 2; 2; 3; 3; 1]).
  - reflexivity.
  - apply subset_of_last_empty.
  - vm_compute. reflexivity.
  - discriminate.
  - vm_compute. reflexivity.
  - lia.
  - intros j Hj. assert (j = 1) by lia. subst j.
    exists [6; 1; 2; 1; 3; 3; 3], [6; 1; 2; 1; 3; 3; 3].
    split; [reflexivity|vm_compute; reflexivity].
  - reflexivity.
  - vm_compute. reflexivity.
Defined.

(** ** The range in which [Binomial] and [Combinations] are exact *)

Lemma next_row_nth r : forall prev k,
  nth k (next_row r prev) 0 = nth k (prev :: r) 0 + nth k r 0.
Proof.
  induction r as [|x t IH]; intros prev k.
  - destruct k as [|[|k]]; simpl; lia.
  - destruct k as [|k]; [simpl; lia|].
    change (nth (S k) (next_row (x :: t) prev) 0) with (nth k (next_row t x) 0).
    rewrite IH. reflexivity.
Qed.

Lemma choose_zero n : choose n 0 = 1.
Proof. destruct n; reflexivity. Qed.

Lemma pascal_row_nth n : forall k, nth k (pascal_row n) 0 = choose n k.
Proof.
  induction n as [|n IH]; intros k.
  - destruct k as [|[|k]]; reflexivity.
  - cbn [pascal_row]. rewrite next_row_nth. destruct k as [|k].
    + cbn [nth]. rewrite IH, choose_zero. reflexivity.
    + cbn [nth choose]. rewrite !IH. reflexivity.
Qed.

Lemma rows_fit :
  forallb (fun n => forallb (fun k => Z.of_nat k * nth k (pascal_row n) 0 <=? CInt.INT_MAX)
                      (seq 0 (S n)))
          (seq 0 30) = true.
Proof. vm_compute. reflexivity. Qed.

Lemma fits_up_to_29 n k : 0 <= k <= n -> n <= 29 -> fits n k.
Proof.
  intros Hk Hn. unfold fits, chooseZ. pose proof rows_fit as H.
  rewrite forallb_forall in H. specialize (H (Z.to_nat n)).
  rewrite forallb_forall in H. specialize (H ltac:(apply in_seq; lia) (Z.to_nat k)).
  rewrite pascal_row_nth in H. apply Z.leb_le. rewrite <- (Z2Nat.id k) at 1 by lia.
  apply H. apply in_seq. lia.
Qed.

(** X10: for [0 <= k <= n <= 29] no product that [Binomial] forms leaves
    the range of [int]: [Binomial(n,k)] is the number of [k]-subsets of an
    [n]-set and, with memory, [Combinations(n,k)] is the table of the
    [k]-subsets of [{1,...,n}] in lexicographic order. *)
Theorem exact_up_to_29 (n k : Z) (w : world) :
  0 <= k <= n -> n <= 29 ->
  Binomial n k w = Ret (chooseZ n k) w /\
  (enough_memory w ->
   Combinations n k w = Ret (map intlist_of (subsets 1 (Z.to_nat n) (Z.to_nat k))) w).
Proof.
  intros Hk Hn. pose proof (fits_up_to_29 n k Hk Hn) as Hfit. split.
  - apply Binomial_value; assumption.
  - intros Hw. apply Combinations_value; try assumption. unfold CInt.INT_MAX. lia.
Qed.

Lemma exact_up_to_29_witness :
  Binomial 29 14 quiet = Ret (chooseZ 29 14) quiet /\
  (enough_memory quiet ->
   Combinations 29 14 quiet
   = Ret (map intlist_of (subsets 1 (Z.to_nat 29) (Z.to_nat 14))) quiet).
Proof. apply (exact_up_to_29 29 14 quiet); lia. Defined.

(** ** Trial points that [main] does not check *)

Lemma iter_up_fails {St} (P : St -> Prop) (body : Z -> St -> option St) (j : Z) :
  (forall i s s', P s -> body i s = Some s' -> P s') ->
  (forall s, P s -> body j s = None) ->
  forall count i s, P s -> i <= j < i + Z.of_nat count -> iter_up count i body s = None.
Proof.
  intros Hkeep Hfail. induction count as [|c IH]; intros i s Hs Hj; [lia|].
  cbn [iter_up]. destruct (Z.eq_dec i j) as [->|Hne]; [rewrite Hfail by exact Hs; reflexivity|].
  destruct (body i s) as [s1|] eqn:E; [|reflexivity]. cbn [obind].
  apply IH; [eapply Hkeep; eassumption|lia].
Qed.

(** X11: [main] does not check the points of a trial: when the sequence
    has a point below 0 or above [n], the assignment [A[shortrep[i]]=i] of
    line 305 is outside the array [A] of [n+1] cells, and lines 299-305
    have no defined result. *)
Theorem trial_point_out_of_range (n k : Z) (ps : list Z) (A : intlist) (R : list bool)
    (p : Z) :
  2 <= k <= n ->
  List.length A = S (Z.to_nat n) -> List.length R = Z.to_nat n ->
  In p ps -> p < 0 \/ n < p ->
  init_trial n k (intlist_of ps) A R = None.
Proof.
  intros Hk HA HR Hin Hp.
  destruct (reset_buffers n k ps A R Hk HA HR) as (A0 & E0 & L0 & _).
  unfold init_trial. rewrite E0. cbn [obind fst snd].
  change (Length (intlist_of ps)) with (Some (Z.of_nat (List.length ps))).
  cbn [obind]. rewrite Nat2Z.id.
  apply In_nth_error in Hin as [t Ht].
  assert (Hlt : (t < List.length ps)%nat) by (apply nth_error_Some; congruence).
  assert (E1 : iter_up (List.length ps) 1
                 (fun i A' => q <-? geti (intlist_of ps) i ;; seti A' q i) A0 = None);
    [|rewrite E1; reflexivity].
  apply (iter_up_fails (St := intlist) (fun A' => List.length A' = S (Z.to_nat n)) _
           (Z.of_nat t + 1)); [| |exact L0|lia].
  - intros i s s' Hs Hb. apply obind_Some in Hb as (q & _ & Hb).
    apply seti_spec in Hb as (L & _). congruence.
  - intros s Hs. unfold intlist_of. rewrite geti_cons by lia.
    replace (Z.to_nat (Z.of_nat t + 1 - 1)) with t by lia. rewrite Ht. cbn [obind].
    unfold seti. destruct (p <? 0) eqn:E; [reflexivity|]. apply Z.ltb_ge in E.
    assert (Hnone : forall (l : list Z) i v, (List.length l <= i)%nat ->
                                             replace_nth l i v = None).
    { induction l as [|h l IHl]; intros i v Hi; [destruct i; reflexivity|].
      destruct i as [|i]; [simpl in Hi; lia|]. cbn [replace_nth].
      rewrite IHl by (simpl in Hi; lia). reflexivity. }
    apply Hnone. lia.
Qed.

Lemma trial_point_out_of_range_witness :
  init_trial 3 2 (intlist_of [5]) [3; 0; 0; 0] (repeat false 3) = None.
Proof.
  apply (trial_point_out_of_range 3 2 [5] [3; 0; 0; 0] (repeat false 3) 5).
  - lia.
  - reflexivity.
  - reflexivity.
  - left. reflexivity.
  - right. lia.
Defined.

(** ** Candidates and transversals *)

Lemma positions_S m : positions (S m) = positions m ++ [Z.of_nat (S m)].
Proof. unfold positions. rewrite seq_S, map_app. reflexivity. Qed.

Lemma positions_length m : List.length (positions m) = m.
Proof. unfold positions. rewrite length_map, length_seq. reflexivity. Qed.

Lemma In_positions m j : In j (positions m) <-> 1 <= j <= Z.of_nat m.
Proof.
  unfold positions. rewrite in_map_iff. split.
  - intros (i & <- & Hi). apply in_seq in Hi. lia.
  - intros Hj. exists (Z.to_nat j). split; [lia|]. apply in_seq. lia.
Qed.

Lemma NoDup_positions m : NoDup (positions m).
Proof.
  unfold positions. generalize (seq_NoDup m 1). generalize (seq 1 m).
  induction l as [|h l IH]; intros Hnd; cbn [map]; [constructor|].
  inversion Hnd as [|? ? Hnot Hnd']; subst. constructor; [|apply IH; exact Hnd'].
  rewrite in_map_iff. intros (i & E & Hi). apply Hnot.
  replace h with i by lia. exact Hi.
Qed.

Lemma NoDup_snoc {T} (l : list T) x : NoDup (l ++ [x]) <-> NoDup l /\ ~ In x l.
Proof.
  split.
  - intros H. apply NoDup_remove in H as [H1 H2]. rewrite app_nil_r in *. auto.
  - intros [H1 H2]. apply NoDup_Add with (a := x) (l := l).
    + clear. induction l as [|h l IH]; simpl; constructor. exact IH.
    + auto.
Qed.

Lemma NoDup_map_eq {T U} (f : T -> U) (l : list T) x y :
  NoDup (map f l) -> In x l -> In y l -> f x = f y -> x = y.
Proof.
  induction l as [|h l IH]; intros Hnd Hx Hy E; [contradiction|].
  simpl in Hnd. inversion Hnd as [|? ? Hnot Hnd']; subst.
  destruct Hx as [->|Hx]; destruct Hy as [->|Hy]; auto.
  - exfalso. apply Hnot. rewrite E. apply in_map. exact Hy.
  - exfalso. apply Hnot. rewrite <- E. apply in_map. exact Hx.
Qed.

(** A list of [k] parts covers [{1,...,k}] exactly when no part comes twice. *)
Lemma parts_pigeonhole (k : nat) (ls : list Z) :
  List.length ls = k -> Forall (fun l => 1 <= l <= Z.of_nat k) ls ->
  (NoDup ls <-> forall j, 1 <= j <= Z.of_nat k -> In j ls).
Proof.
  intros Hlen Hr. split.
  - intros Hnd j Hj.
    apply (NoDup_length_incl Hnd (l' := positions k)).
    + rewrite positions_length. lia.
    + intros l Hl. apply In_positions. rewrite Forall_forall in Hr. apply Hr. exact Hl.
    + apply In_positions. exact Hj.
  - intros Hall. apply (NoDup_incl_NoDup (l := positions k)).
    + apply NoDup_positions.
    + rewrite positions_length. lia.
    + intros j Hj. apply Hall. apply In_positions. exact Hj.
Qed.

Lemma part_of_geti A i a : geti A i = Some a -> part_of A i = a.
Proof. unfold part_of. intros ->. reflexivity. Qed.

Lemma image_geti g x y : geti g x = Some y -> image g x = y.
Proof. unfold image. intros ->. reflexivity. Qed.

Section Candidate.

Variables (n k : Z) (A cosetrep c : intlist) (newpoint : Z).
Hypothesis k_range : 1 <= k <= CInt.INT_MAX.
Hypothesis A_labelled : labelled n k A.
Hypothesis newpoint_range : 1 <= newpoint <= n.
Hypothesis cosetrep_ok :
  forall q, 1 <= q <= n -> exists q', geti cosetrep q = Some q' /\ 1 <= q' <= n.
Hypothesis c_ok : forall j, 1 <= j <= k - 1 -> exists q, geti c j = Some q /\ 1 <= q <= n.

Let point (j : Z) : Z := image cosetrep (image c j).
Let prefix (m : nat) : list Z := candidate_prefix cosetrep c newpoint m.

Lemma point_range j : 1 <= j <= k - 1 -> 1 <= point j <= n.
Proof.
  intros Hj. unfold point. destruct (c_ok j Hj) as (q & Hq & Hqr).
  rewrite (image_geti _ _ _ Hq). destruct (cosetrep_ok q Hqr) as (q' & Hq' & Hr).
  rewrite (image_geti _ _ _ Hq'). exact Hr.
Qed.

Lemma prefix_range m : Z.of_nat m <= k - 1 -> Forall (fun x => 1 <= x <= n) (prefix m).
Proof.
  intros Hm. constructor; [exact newpoint_range|]. apply Forall_map, Forall_forall.
  intros j Hj. apply In_positions in Hj. apply point_range. lia.
Qed.

Lemma part_range x : 1 <= x <= n -> 1 <= part_of A x <= k.
Proof.
  intros Hx. destruct (A_labelled x Hx) as (a & Ha & Hr).
  rewrite (part_of_geti _ _ _ Ha). exact Hr.
Qed.

Lemma prefix_S m : prefix (S m) = prefix m ++ [point (Z.of_nat (S m))].
Proof. unfold prefix, candidate_prefix. rewrite positions_S, map_app. reflexivity. Qed.

Lemma check_body_met m st :
  Z.of_nat (S m) <= k - 1 -> met k A cosetrep c newpoint m st ->
  match check_body k A cosetrep c (Z.of_nat (S m)) st with
  | Some (Next st') => met k A cosetrep c newpoint (S m) st'
  | Some (Stop _) => ~ NoDup (map (part_of A) (prefix (S m)))
  | None => False
  end.
Proof.
  intros Hm (Hlen & Hcov & Hnd & Hkp). destruct st as [covered kpoint].
  cbn [fst snd] in *. unfold check_body.
  destruct (c_ok (Z.of_nat (S m)) ltac:(lia)) as (cj & Hcj & Hcjr). rewrite Hcj.
  cbn [obind]. destruct (cosetrep_ok cj Hcjr) as (p & Hp & Hpr). rewrite Hp.
  cbn [obind]. destruct (A_labelled p Hpr) as (part & Hpart & Hpartr). rewrite Hpart.
  cbn [obind].
  assert (Epoint : point (Z.of_nat (S m)) = p).
  { unfold point. rewrite (image_geti _ _ _ Hcj). apply image_geti. exact Hp. }
  assert (Epart : part_of A p = part) by (apply part_of_geti; exact Hpart).
  destruct (get1_defined covered part ltac:(lia)) as [b Hb]. rewrite Hb. cbn [obind].
  destruct b; [|unfold met]; rewrite prefix_S, map_app, Epoint; cbn [map];
    rewrite Epart.
  - rewrite NoDup_snoc. intros [_ Hnot]. apply Hnot. apply Hcov; [exact Hpartr|].
    unfold in_subset. rewrite Hb. reflexivity.
  - destruct (set1_defined covered part true ltac:(lia)) as [cov' Hcov']. rewrite Hcov'.
    cbn [obind]. pose proof (in_subset_set _ _ _ _ Hcov') as [G O].
    pose proof (set1_spec _ _ _ _ Hcov') as (L & _).
    assert (Hnew : ~ In part (map (part_of A) (prefix m))).
    { intros Hin. apply Hcov in Hin; [|exact Hpartr]. unfold in_subset in Hin.
      rewrite Hb in Hin. discriminate. }
    split; [cbn [fst]; congruence|]. split; [|split].
    + intros l Hl. cbn [fst]. rewrite in_app_iff. destruct (Z.eq_dec l part) as [->|Hne].
      * rewrite G. split; [intros _; right; left; reflexivity|reflexivity].
      * rewrite O by exact Hne. rewrite (Hcov l Hl). split; [auto|].
        intros [H|[H|[]]]; [exact H|congruence].
    + apply NoDup_snoc. auto.
    + intros x Hx Hxk. cbn [snd]. apply in_app_iff in Hx as [Hx|[<-|[]]].
      * destruct (part =? k) eqn:E; [|apply Hkp; assumption].
        exfalso. apply Z.eqb_eq in E. apply Hnew. rewrite E, <- Hxk.
        apply in_map. exact Hx.
      * replace (part =? k) with true; [reflexivity|].
        symmetry. apply Z.eqb_eq. congruence.
Qed.

Lemma met_start covered0 anp kpoint :
  geti A newpoint = Some anp ->
  set1 (repeat false (Z.to_nat k)) anp true = Some covered0 ->
  met k A cosetrep c newpoint 0 (covered0, if anp =? k then Some newpoint else kpoint).
Proof.
  intros Hanp Hset. pose proof (in_subset_set _ _ _ _ Hset) as [G O].
  pose proof (set1_spec _ _ _ _ Hset) as (L & _). rewrite repeat_length in L.
  pose proof (part_of_geti _ _ _ Hanp) as Epart.
  unfold met, candidate_prefix. cbn [fst snd positions seq map]. rewrite Epart.
  split; [exact L|]. split; [|split].
  - intros l Hl. destruct (Z.eq_dec l anp) as [->|Hne].
    + rewrite G. split; [intros _; left; reflexivity|reflexivity].
    + rewrite O, in_subset_repeat_false by exact Hne.
      split; [discriminate|]. intros [H|[]]. congruence.
  - repeat constructor. intros [].
  - intros x [<-|[]] Hxk. replace (anp =? k) with true; [reflexivity|].
    symmetry. apply Z.eqb_eq. congruence.
Qed.

Lemma loop_met : forall count m st,
  Z.of_nat (m + count) <= k - 1 -> met k A cosetrep c newpoint m st ->
  match loop_up count (Z.of_nat (S m)) (check_body k A cosetrep c) st with
  | Some (Next st') => met k A cosetrep c newpoint (m + count) st'
  | Some (Stop _) => ~ NoDup (map (part_of A) (prefix (m + count)))
  | None => False
  end.
Proof.
  induction count as [|count IH]; intros m st Hm Hmet.
  - cbn [loop_up]. rewrite Nat.add_0_r. exact Hmet.
  - cbn [loop_up]. pose proof (check_body_met m st ltac:(lia) Hmet) as Hb.
    destruct (check_body k A cosetrep c (Z.of_nat (S m)) st) as [[st'|kp]|];
      [| |exact Hb].
    + replace (Z.of_nat (S m) + 1) with (Z.of_nat (S (S m))) by lia.
      replace (m + S count)%nat with (S m + count)%nat by lia.
      apply IH; [lia|exact Hb].
    + intros Hnd. apply Hb. replace (m + S count)%nat with (S m + count)%nat in Hnd by lia.
      clear IH Hm Hb. induction count as [|count IHc].
      * rewrite Nat.add_0_r in Hnd. exact Hnd.
      * apply IHc. replace (S m + S count)%nat with (S (S m + count)) in Hnd by lia.
        rewrite prefix_S, map_app in Hnd. apply NoDup_snoc in Hnd as [Hnd _]. exact Hnd.
Qed.

(** What the test of a candidate computes: [injective] says that the [k]
    points have distinct parts, and then [kpoint] is the one of part [k]. *)
Lemma candidate_spec kpoint :
  exists injective kpoint',
    candidate k A cosetrep c newpoint kpoint = Some (injective, kpoint') /\
    (injective = true <-> NoDup (map (part_of A) (candidate_set k cosetrep c newpoint))) /\
    (injective = true ->
     forall x, In x (candidate_set k cosetrep c newpoint) -> part_of A x = k ->
               kpoint' = Some x).
Proof.
  unfold candidate. destruct (A_labelled newpoint newpoint_range) as (anp & Hanp & Hr).
  rewrite Hanp. cbn [obind].
  destruct (set1_defined (repeat false (Z.to_nat k)) anp true) as [cov0 Hcov0];
    [rewrite repeat_length; lia|].
  rewrite Hcov0. cbn [obind].
  assert (Ek : k -i 1 = k - 1)
    by (apply wrap_small; unfold CInt.INT_MIN, CInt.INT_MAX in *; lia).
  unfold for_up. rewrite Ek. replace (k - 1 - 1 + 1) with (k - 1) by lia.
  pose proof (loop_met (Z.to_nat (k - 1)) 0
                (cov0, if anp =? k then Some newpoint else kpoint)
                ltac:(lia) (met_start cov0 anp kpoint Hanp Hcov0)) as Hl.
  change (Z.of_nat 1) with 1 in Hl. cbn [Nat.add] in Hl.
  fold (prefix (Z.to_nat (k - 1))) in Hl.
  change (candidate_set k cosetrep c newpoint) with (prefix (Z.to_nat (k - 1))).
  destruct (loop_up (Z.to_nat (k - 1)) 1 (check_body k A cosetrep c)
              (cov0, if anp =? k then Some newpoint else kpoint))
    as [[[cov kp]|kp]|]; [| |contradiction]; cbn [obind].
  - exists true, kp. split; [reflexivity|]. destruct Hl as (_ & _ & Hnd & Hkp).
    split; [split; auto|]. intros _. exact Hkp.
  - exists false, kp. split; [reflexivity|]. split; [|discriminate].
    split; [discriminate|]. intros Hnd. contradiction.
Qed.

Lemma candidate_set_range :
  Forall (fun x => 1 <= x <= n) (candidate_set k cosetrep c newpoint).
Proof. apply prefix_range. lia. Qed.

Lemma candidate_set_length :
  List.length (candidate_set k cosetrep c newpoint) = Z.to_nat k.
Proof.
  unfold candidate_set, candidate_prefix. cbn [List.length].
  rewrite length_map, positions_length. lia.
Qed.

End Candidate.

(** ** Transversals and completions *)

Lemma count_upto_find f m :
  (exists i, 1 <= i <= Z.of_nat m /\ f i = true) \/
  (forall i, 1 <= i <= Z.of_nat m -> f i = false).
Proof.
  induction m as [|m IH]; [right; intros i Hi; simpl in Hi; lia|].
  destruct (f (Z.of_nat (S m))) eqn:E; [left; exists (Z.of_nat (S m)); split; [lia|exact E]|].
  destruct IH as [(i & Hi & Hf)|Hall]; [left; exists i; split; [lia|exact Hf]|].
  right. intros i Hi. destruct (Z.eq_dec i (Z.of_nat (S m))) as [->|Hne]; [exact E|].
  apply Hall. lia.
Qed.

Lemma count_upto_or f g m :
  (forall i, 1 <= i <= Z.of_nat m -> f i = true -> g i = false) ->
  count_upto (fun i => f i || g i) m = count_upto f m + count_upto g m.
Proof.
  induction m as [|m IH]; intros H; [reflexivity|].
  cbn [count_upto]. rewrite IH by (intros i Hi; apply H; lia).
  pose proof (H (Z.of_nat (S m)) ltac:(lia)) as Hm.
  destruct (f (Z.of_nat (S m))); [rewrite Hm by reflexivity; simpl; lia|].
  destruct (g (Z.of_nat (S m))); simpl; lia.
Qed.

Lemma count_upto_split f g m :
  (forall i, 1 <= i <= Z.of_nat m -> g i = negb (f i)) ->
  count_upto f m + count_upto g m = Z.of_nat m.
Proof.
  induction m as [|m IH]; intros H; [reflexivity|].
  cbn [count_upto]. specialize (IH ltac:(intros i Hi; apply H; lia)).
  rewrite (H (Z.of_nat (S m))) by lia. destruct (f (Z.of_nat (S m))); simpl; lia.
Qed.

Lemma in_first_part n k A i :
  labelled n k A -> 1 <= i <= n -> in_first k A i = (part_of A i <? k).
Proof.
  intros HA Hi. destruct (HA i Hi) as (a & Ha & _). unfold in_first, part_of.
  rewrite Ha. reflexivity.
Qed.

Lemma transversal_same_parts k A Q K :
  (forall x, In x K -> part_of Q x = part_of A x) ->
  transversal k A K -> transversal k Q K.
Proof.
  intros Heq Ht j Hj. destruct (Ht j Hj) as (x & Hx & Hp & Hu).
  exists x. split; [exact Hx|]. split; [rewrite Heq by exact Hx; exact Hp|].
  intros y Hy Hyp. apply Hu; [exact Hy|]. rewrite <- Heq by exact Hy. exact Hyp.
Qed.

Lemma labels_in_range n k A (L : list Z) :
  0 <= k -> labelled n k A -> Forall (fun x => 1 <= x <= n) L ->
  Forall (fun l => 1 <= l <= Z.of_nat (Z.to_nat k)) (map (part_of A) L).
Proof.
  intros Hk HA Hr. apply Forall_map. revert Hr. apply Forall_impl. intros x Hx.
  destruct (HA x Hx) as (a & Ha & Har). rewrite (part_of_geti _ _ _ Ha). lia.
Qed.

(** [k] points with distinct parts form a transversal. *)
Lemma labels_transversal n k A (L : list Z) :
  0 <= k -> labelled n k A -> Forall (fun x => 1 <= x <= n) L ->
  List.length L = Z.to_nat k ->
  NoDup (map (part_of A) L) -> transversal k A L.
Proof.
  intros Hk HA Hr Hlen Hnd j Hj.
  assert (Hall : In j (map (part_of A) L)).
  { apply (parts_pigeonhole (Z.to_nat k));
      [rewrite length_map; exact Hlen|apply (labels_in_range n); assumption|exact Hnd|lia]. }
  apply in_map_iff in Hall as (x & Hx & Hin).
  exists x. split; [exact Hin|]. split; [exact Hx|]. intros y Hy Hyp.
  apply (NoDup_map_eq (part_of A) L); auto. congruence.
Qed.

(** The [k] points of a transversal have distinct parts. *)
Lemma transversal_labels n k A (K L : list Z) :
  0 <= k -> labelled n k A -> Forall (fun x => 1 <= x <= n) L ->
  List.length L = Z.to_nat k -> same_set K L ->
  transversal k A K -> NoDup (map (part_of A) L).
Proof.
  intros Hk HA Hr Hlen Hs Ht.
  apply (parts_pigeonhole (Z.to_nat k));
    [rewrite length_map; exact Hlen|apply (labels_in_range n); assumption|].
  intros j Hj. destruct (Ht j ltac:(lia)) as (x & Hx & Hp & _).
  apply in_map_iff. exists x. split; [exact Hp|]. apply Hs. exact Hx.
Qed.

Section Completions.

Variables (n k : Z) (orb : list Z -> Prop).
Hypothesis k_range : 2 <= k <= n.
Hypothesis orb_range : forall K x, orb K -> In x K -> 1 <= x <= n.

(** A set of the orbit that is a transversal of [A] is a transversal of
    every completion that keeps its point of the last part there. *)
Lemma forced_transversal A R Q x :
  labelled n k A -> forced k orb A x -> completion n k A R Q -> part_of Q x = k ->
  exists K, orb K /\ transversal k Q K.
Proof.
  intros HA (K & HK & Ht & Hx & Hxk) (HQ & Hext & _ & _) HQx.
  exists K. split; [exact HK|]. apply (transversal_same_parts k A); [|exact Ht].
  intros y Hy. pose proof (orb_range K y HK Hy) as Hyr.
  destruct (Z.eq_dec (part_of A y) k) as [E|E].
  - destruct (Ht k ltac:(lia)) as (x0 & _ & _ & Hu).
    rewrite (Hu y Hy E), <- (Hu x Hx Hxk). congruence.
  - apply Hext; [exact Hyr|]. rewrite (in_first_part n) by assumption.
    apply Z.ltb_lt. destruct (HA y Hyr) as (a & Ha & Har).
    rewrite (part_of_geti _ _ _ Ha) in *. lia.
Qed.

(** Adding forced points to the subset does not change what is asked. *)
Lemma guaranteed_forced A R Rn :
  labelled n k A ->
  (forall i, 1 <= i <= n -> in_subset R i = true -> in_subset Rn i = true) ->
  (forall x, 1 <= x <= n -> in_subset Rn x = true ->
             in_subset R x = true \/ forced k orb A x) ->
  (guaranteed n k orb A R <-> guaranteed n k orb A Rn).
Proof.
  intros HA Hsub Hsem. split; intros Hg Q HQ.
  - apply Hg. destruct HQ as (H1 & H2 & H3 & H4). repeat split; try assumption.
    intros i Hi Hin. apply H3; [exact Hi|]. apply Hsub; assumption.
  - destruct (count_upto_find (fun i => in_subset Rn i && (part_of Q i =? k)) (Z.to_nat n))
      as [(x & Hx & Hin)|Hall].
    + apply andb_true_iff in Hin as [Hin Hk]. apply Z.eqb_eq in Hk.
      destruct (Hsem x ltac:(lia) Hin) as [HR|Hf].
      * exfalso. destruct HQ as (_ & _ & H3 & _). apply (H3 x); [lia|exact HR|exact Hk].
      * apply (forced_transversal A R Q x); assumption.
    + apply Hg. destruct HQ as (H1 & H2 & H3 & H4). repeat split; try assumption.
      intros i Hi Hin Hk. specialize (Hall i ltac:(lia)).
      rewrite Hin, Hk, Z.eqb_refl in Hall. discriminate.
Qed.

(** Past the bound of line 214 no completion is left. *)
Lemma no_completion A Rn Q :
  labelled n k A -> subset_of_last n k A Rn ->
  (count_upto (in_first k A) (Z.to_nat n) + count_upto (in_subset Rn) (Z.to_nat n)) * k
  > (k - 1) * n ->
  ~ completion n k A Rn Q.
Proof.
  intros HA Hsub Hbig (HQ & Hext & Havoid & Hsize).
  assert (D1 : forall i, 1 <= i <= Z.of_nat (Z.to_nat n) ->
                         in_first k A i = true -> in_subset Rn i = false).
  { intros i Hi Hin. destruct (in_subset Rn i) eqn:E; [|reflexivity].
    apply in_subset_true in E. apply Hsub in E; [|lia].
    unfold in_first in Hin. rewrite E, Z.ltb_irrefl in Hin. discriminate. }
  pose proof (count_upto_or _ _ _ D1) as Hor.
  assert (D2 : count_upto (fun i => in_first k A i || in_subset Rn i) (Z.to_nat n)
               + count_upto (fun i => part_of Q i =? k) (Z.to_nat n)
               <= Z.of_nat (Z.to_nat n)).
  { apply count_upto_disjoint. intros i Hi Hin. apply Z.eqb_neq.
    apply orb_true_iff in Hin as [Hin|Hin].
    - rewrite Hext by (lia || exact Hin). rewrite (in_first_part n) in Hin by (lia || exact HA).
      apply Z.ltb_lt in Hin. lia.
    - apply Havoid; [lia|exact Hin]. }
  nia.
Qed.

(** With room left and no transversal in the orbit, the partition itself
    is a completion without a transversal. *)
Lemma own_completion A R :
  labelled n k A ->
  (forall i, 1 <= i <= n -> in_subset R i = false) ->
  count_upto (in_first k A) (Z.to_nat n) * k <= (k - 1) * n ->
  completion n k A R A.
Proof.
  intros HA Hempty Hroom. split; [exact HA|]. split; [reflexivity|].
  split; [intros i Hi Hin; rewrite Hempty in Hin by exact Hi; discriminate|].
  assert (Hs : count_upto (in_first k A) (Z.to_nat n)
               + count_upto (fun i => part_of A i =? k) (Z.to_nat n)
               = Z.of_nat (Z.to_nat n)).
  { apply count_upto_split. intros i Hi. rewrite (in_first_part n) by (lia || exact HA).
    destruct (HA i ltac:(lia)) as (a & Ha & Har). rewrite (part_of_geti _ _ _ Ha).
    destruct (Z.eqb_spec a k) as [->|Hne]; [rewrite Z.ltb_irrefl; reflexivity|].
    symmetry. apply negb_false_iff, Z.ltb_lt. lia. }
  nia.
Qed.

(** The point [r] of the subset goes to one of the first parts in every
    completion: what is asked splits into the [k-1] cases of lines
    240-251. *)
Lemma guaranteed_split A Rn Rn' r :
  labelled n k A -> 1 <= r <= n -> geti A r = Some k ->
  in_subset Rn r = true -> in_subset Rn' r = false ->
  (forall i, i <> r -> in_subset Rn' i = in_subset Rn i) ->
  (guaranteed n k orb A Rn <->
   forall l A1, 1 <= l <= k - 1 -> seti A r l = Some A1 -> guaranteed n k orb A1 Rn').
Proof.
  intros HA Hr Hk Hin Hout Hother. split.
  - intros Hg l A1 Hl Hset Q (HQ & Hext & Havoid & Hsize).
    pose proof (seti_spec _ _ _ _ Hset) as (_ & G & O).
    assert (HQr : part_of Q r = l).
    { rewrite Hext; [apply part_of_geti; exact G|exact Hr|].
      unfold in_first. rewrite G. apply Z.ltb_lt. lia. }
    apply Hg. split; [exact HQ|]. split; [|split; [|exact Hsize]].
    + intros i Hi Hf. assert (Hne : i <> r).
      { intros ->. unfold in_first in Hf. rewrite Hk, Z.ltb_irrefl in Hf. discriminate. }
      assert (E : part_of A1 i = part_of A i) by (unfold part_of; rewrite O by exact Hne; reflexivity).
      rewrite <- E. apply Hext; [exact Hi|]. unfold in_first in *.
      rewrite O by exact Hne. exact Hf.
    + intros i Hi Hf. destruct (Z.eq_dec i r) as [->|Hne]; [lia|].
      apply Havoid; [exact Hi|]. rewrite Hother by exact Hne. exact Hf.
  - intros Hall Q (HQ & Hext & Havoid & Hsize).
    destruct (HQ r Hr) as (l & Hl & Hlr).
    pose proof (part_of_geti _ _ _ Hl) as HQr.
    assert (Hlk : l <> k) by (rewrite <- HQr; apply Havoid; assumption).
    destruct (seti_defined A r l) as [A1 Hset]; [apply geti_range in Hk; lia|].
    pose proof (seti_spec _ _ _ _ Hset) as (_ & G & O).
    apply (Hall l A1 ltac:(lia) Hset). split; [exact HQ|].
    split; [|split; [|exact Hsize]].
    + intros i Hi Hf. destruct (Z.eq_dec i r) as [->|Hne].
      * rewrite HQr. symmetry. apply part_of_geti. exact G.
      * assert (E : part_of A1 i = part_of A i)
          by (unfold part_of; rewrite O by exact Hne; reflexivity).
        rewrite E. apply Hext; [exact Hi|]. unfold in_first in *.
        rewrite O in Hf by exact Hne. exact Hf.
    + intros i Hi Hf. destruct (Z.eq_dec i r) as [->|Hne]; [congruence|].
      apply Havoid; [exact Hi|]. rewrite <- Hother by exact Hne. exact Hf.
Qed.

End Completions.

(** ** What the scan establishes *)

Section Scan.

Variables (n k : Z) (cosetreps : list intlist) (adj : intlist) (comb : list intlist).
Variable orb : list Z -> Prop.
Hypothesis k_range : 2 <= k <= n.
Hypothesis nk_range : n * k <= CInt.INT_MAX.
Hypothesis tables : tables_ok n k cosetreps adj comb.
Hypothesis orbit : represents n k cosetreps adj comb orb.

Lemma n_small : n <= CInt.INT_MAX.
Proof. nia. Qed.

Lemma subset_counts A Rn :
  subset_of_last n k A Rn ->
  count_upto (in_first k A) (Z.to_nat n) + count_upto (in_subset Rn) (Z.to_nat n) <= n.
Proof.
  intros Hsub. replace n with (Z.of_nat (Z.to_nat n)) at 3 by lia.
  apply count_upto_disjoint. intros i Hi Hin.
  destruct (in_subset Rn i) eqn:E; [|reflexivity].
  apply in_subset_true in E. apply Hsub in E; [|lia].
  unfold in_first in Hin. rewrite E, Z.ltb_irrefl in Hin. discriminate.
Qed.

Section Entry.

Variables (A : intlist) (R : list bool) (newpoint : Z) (cosetrep : intlist).
Hypothesis A_labelled : labelled n k A.
Hypothesis newpoint_range : 1 <= newpoint <= n.
Hypothesis cosetrep_here : get1 cosetreps newpoint = Some cosetrep.

Lemma cosetrep_images :
  forall q, 1 <= q <= n -> exists q', geti cosetrep q = Some q' /\ 1 <= q' <= n.
Proof.
  destruct tables as [Hcr _]. destruct (Hcr newpoint newpoint_range) as (cr & Hcr' & Himg).
  rewrite cosetrep_here in Hcr'. inversion Hcr'; subst cr. exact Himg.
Qed.

(** One entry of [adj]: lines 180-221. *)
Lemma scan_body_sem j st :
  adj_entry adj j (match geti adj j with Some a => a | None => 0 end) ->
  scan_inv n k orb cosetrep adj comb A R newpoint j st ->
  flow_holds (scan_inv n k orb cosetrep adj comb A R newpoint (j + 1))
             (fun _ => guaranteed n k orb A R)
    (scan_body n k comb A cosetrep adj newpoint
       (count_upto (in_first k A) (Z.to_nat n)) j st).
Proof.
  intros (len & Hlen & Hj & Hgeti) Hinv. destruct st as [[Rn Rc] kp].
  destruct Hinv as (HlenR & Hsub & Hc & [Hmono Hsem] & Hcomp & Hroom).
  cbn [fst snd] in *.
  destruct tables as [_ (len' & Hlen' & Hadj)].
  rewrite Hlen in Hlen'. inversion Hlen'; subst len'. clear Hlen'.
  destruct (Hadj j Hj) as (a & c & Ha & Hcm & Hpts).
  unfold scan_body. rewrite Ha. cbn [obind]. rewrite Hcm. cbn [obind].
  pose proof cosetrep_images as Himg.
  destruct (candidate_spec n k A cosetrep c newpoint ltac:(pose proof n_small; lia)
              A_labelled newpoint_range Himg Hpts kp)
    as (inj & kp' & Ec & Hinj & Hkp).
  rewrite Ec. cbn [obind].
  assert (Hk : 1 <= k <= CInt.INT_MAX) by (pose proof n_small; lia).
  pose proof (candidate_set_range n k cosetrep c newpoint Hk newpoint_range Himg Hpts)
    as Hrange.
  pose proof (candidate_set_length k cosetrep c newpoint Hk) as Hlength.
  assert (Hmore : forall Rn' y,
             (forall x, In x (candidate_set k cosetrep c newpoint) -> part_of A x = k ->
                        x = y) ->
             in_subset Rn' y = true ->
             (forall i, in_subset Rn i = true -> in_subset Rn' i = true) ->
             scan_complete k cosetrep adj comb A newpoint Rn' (j + 1)).
  { intros Rn' y Hy Hin Hgrow i a' c' Hi Ha' Hc' Hnd x Hx Hxk.
    destruct (Z.eq_dec i j) as [->|Hne].
    - rewrite Ha in Ha'. inversion Ha'; subst a'. rewrite Hcm in Hc'.
      inversion Hc'; subst c'. rewrite (Hy x Hx Hxk). exact Hin.
    - apply Hgrow. apply (Hcomp i a' c'); try assumption. lia. }
  destruct inj.
  2:{ cbn [flow_holds]. unfold scan_inv. cbn [fst snd].
      split; [exact HlenR|]. split; [exact Hsub|]. split; [exact Hc|].
      split; [split; assumption|]. split; [|exact Hroom].
      intros i a' c' Hi Ha' Hc' Hnd x Hx Hxk.
      destruct (Z.eq_dec i j) as [->|Hne].
      - rewrite Ha in Ha'. inversion Ha'; subst a'. rewrite Hcm in Hc'.
        inversion Hc'; subst c'. apply Hinj in Hnd. discriminate.
      - apply (Hcomp i a' c'); try assumption. lia. }
  pose proof (proj1 Hinj eq_refl) as Hnd.
  pose proof (labels_transversal n k A _ ltac:(lia) A_labelled Hrange Hlength Hnd) as Htr.
  destruct (Htr k ltac:(lia)) as (x & Hx & Hxk & Hux).
  rewrite (Hkp eq_refl x Hx Hxk). cbn [obind].
  assert (Hxr : 1 <= x <= n) by (rewrite Forall_forall in Hrange; apply Hrange; exact Hx).
  destruct (get1_defined Rn x ltac:(lia)) as [b Hb]. rewrite Hb. cbn [obind].
  destruct b; cbn [negb].
  - cbn [flow_holds]. unfold scan_inv. cbn [fst snd].
    split; [exact HlenR|]. split; [exact Hsub|]. split; [exact Hc|].
    split; [split; assumption|]. split; [|exact Hroom].
    apply (Hmore Rn x); auto. unfold in_subset. rewrite Hb. reflexivity.
  - destruct (set1_defined Rn x true ltac:(lia)) as [Rn' Hset]. rewrite Hset.
    cbn [obind]. pose proof (in_subset_set _ _ _ _ Hset) as [G O].
    pose proof (set1_spec _ _ _ _ Hset) as (L & _).
    assert (HAx : geti A x = Some k).
    { destruct (A_labelled x Hxr) as (ax & Hax & _).
      rewrite (part_of_geti _ _ _ Hax) in Hxk. congruence. }
    assert (Hsub' : subset_of_last n k A Rn').
    { intros i Hi Ht. destruct (Z.eq_dec i x) as [->|Hne]; [exact HAx|].
      apply Hsub; [exact Hi|]. apply in_subset_true. rewrite <- O by exact Hne.
      apply in_subset_true. exact Ht. }
    assert (Ecount : count_upto (in_subset Rn') (Z.to_nat n) = Rc + 1).
    { rewrite Hc. apply (count_upto_update _ _ _ x); [lia| |exact G|exact O].
      unfold in_subset. rewrite Hb. reflexivity. }
    assert (Hsound' : scan_sound n k orb A R Rn').
    { split.
      - intros i Hi Hin. destruct (Z.eq_dec i x) as [->|Hne]; [exact G|].
        rewrite O by exact Hne. apply Hmono; assumption.
      - intros y Hy Hin. destruct (Z.eq_dec y x) as [->|Hne].
        + right. exists (candidate_set k cosetrep c newpoint).
          split; [|split; [exact Htr|split; [exact Hx|exact Hxk]]].
          apply (proj2 orbit newpoint _ newpoint_range).
          exists j, a, c, cosetrep. split; [exists len; auto|].
          split; [exact Hcm|]. split; [exact cosetrep_here|]. intros z. reflexivity.
        + rewrite O in Hin by exact Hne. apply Hsem; assumption. }
    pose proof (subset_counts A Rn' Hsub') as Hle. rewrite Ecount in Hle.
    pose proof (count_upto_bounds (in_first k A) (Z.to_nat n)) as B1.
    pose proof (count_upto_bounds (in_subset Rn) (Z.to_nat n)) as B2.
    pose proof n_small as Hn.
    rewrite add_one_small by lia.
    rewrite early_success_value by lia.
    destruct ((count_upto (in_first k A) (Z.to_nat n) + (Rc + 1)) * k >? (k - 1) * n)
      eqn:Ees; cbn [flow_holds fst snd].
    + apply Z.gtb_lt in Ees.
      apply (guaranteed_forced n k orb k_range (proj1 orbit) A R Rn' A_labelled
               (proj1 Hsound') (proj2 Hsound')).
      intros Q HQ. exfalso.
      apply (no_completion n k k_range A Rn' Q A_labelled Hsub'); [rewrite Ecount; lia|exact HQ].
    + unfold scan_inv. cbn [fst snd]. split; [congruence|]. split; [exact Hsub'|].
      split; [symmetry; exact Ecount|]. split; [exact Hsound'|]. split.
      * apply (Hmore Rn' x); auto. intros i Hi.
        destruct (Z.eq_dec i x) as [->|Hne]; [exact G|]. rewrite O by exact Hne. exact Hi.
      * unfold room_left. rewrite Ecount. rewrite Z.gtb_ltb in Ees.
        apply Z.ltb_ge in Ees. exact Ees.
Qed.

End Entry.

(** Lines 166-222: an early return is right, and otherwise [Rnew] has
    the point of the last part of every transversal of [A] in the orbit,
    asks the same as [R] and leaves room. *)
Lemma scan_sem A R newpoint :
  call_ok n k A R newpoint -> witnesses_covered k orb A R newpoint ->
  room_left n k A R ->
  match scan n k cosetreps adj comb A R newpoint with
  | Some (Stop _) => guaranteed n k orb A R
  | Some (Next (Rnew, Rnewcount)) =>
      List.length Rnew = Z.to_nat n /\ subset_of_last n k A Rnew /\
      Rnewcount = count_upto (in_subset Rnew) (Z.to_nat n) /\
      room_left n k A Rnew /\
      (guaranteed n k orb A R <-> guaranteed n k orb A Rnew) /\
      (forall K, orb K -> transversal k A K ->
         forall x, In x K -> part_of A x = k -> in_subset Rnew x = true)
  | None => True
  end.
Proof.
  intros (HA & HR & Hsub & Hnp & Hin) Hwit Hroom. unfold scan.
  destruct (iter_up (Z.to_nat n) 1 (count_body k A R) (0, 0, repeat false (Z.to_nat n)))
    as [[[Ac Rc] Rn]|] eqn:Hcount; cbn [obind]; [|exact I].
  pose proof (count_copies _ _ _ _ _ _ _ Hcount) as [Hl Hcopy].
  pose proof (count_values _ _ _ _ _ _ _ n_small Hcount) as [HAc HRc].
  pose proof (in_subset_copy n R Rn Hcopy) as Hsame.
  destruct (get1 cosetreps newpoint) as [cosetrep|] eqn:Hcr; cbn [obind]; [|exact I].
  destruct (Length adj) as [len|] eqn:Hlen; cbn [obind]; [|exact I].
  pose proof (loop_up_inv
                (scan_inv n k orb cosetrep adj comb A R newpoint)
                (fun _ : unit => guaranteed n k orb A R)
                (scan_body n k comb A cosetrep adj newpoint Ac)
                (Z.to_nat (len - 1 + 1)) 1 (Rn, Rc, None)) as Hinv.
  unfold for_up.
  destruct (loop_up (Z.to_nat (len - 1 + 1)) 1
              (scan_body n k comb A cosetrep adj newpoint Ac) (Rn, Rc, None))
    as [[[[Rn' Rc'] kp]|u]|]; cbn [obind flow_holds] in *; [| |exact I].
  - destruct Hinv as (H1 & H2 & H3 & [H4 H4'] & H5 & H6); cbn [fst snd] in *.
    + repeat split; cbn [fst snd].
      * exact Hl.
      * intros i Hi Ht. apply Hsub; [exact Hi|]. rewrite <- Hcopy by exact Hi. exact Ht.
      * rewrite HRc. apply count_upto_ext. intros i Hi. symmetry. apply Hsame. lia.
      * intros i Hi Ht. rewrite Hsame by exact Hi. exact Ht.
      * intros x Hx Ht. left. rewrite <- Hsame by exact Hx. exact Ht.
      * intros i a c Hi. lia.
      * unfold room_left in *.
        rewrite (count_upto_ext (in_subset Rn) (in_subset R)); [exact Hroom|].
        intros i Hi. apply Hsame. lia.
    + intros j s1 Hj Hs1. subst Ac. apply scan_body_sem; try assumption.
      destruct tables as [_ (len' & Hlen' & Hadj)].
      rewrite Hlen in Hlen'. inversion Hlen'; subst len'.
      destruct (Hadj j ltac:(lia)) as (a & c & Ha & _). rewrite Ha.
      exists len. split; [exact Hlen|]. split; [lia|exact Ha].
    + split; [exact H1|]. split; [exact H2|]. split; [exact H3|]. split; [exact H6|].
      split; [apply (guaranteed_forced n k orb k_range (proj1 orbit)); assumption|].
      intros K HK Ht x Hx Hxk. pose proof (proj1 orbit K x HK Hx) as Hxr.
      destruct (in_dec Z.eq_dec newpoint K) as [Hin'|Hout].
      * destruct (proj1 (proj2 orbit newpoint K Hnp) (conj HK Hin'))
          as (i & a & c & cr & (len' & Hlen' & Hi & Ha) & Hc & Hcr' & Hs).
        rewrite Hcr in Hcr'. inversion Hcr'; subst cr.
        rewrite Hlen in Hlen'. inversion Hlen'; subst len'.
        destruct tables as [_ (len' & Hlen'' & Hadj)].
        rewrite Hlen in Hlen''. inversion Hlen''; subst len'.
        destruct (Hadj i Hi) as (a0 & c0 & Ha0 & Hc0 & Hpts).
        rewrite Ha in Ha0. inversion Ha0; subst a0.
        rewrite Hc in Hc0. inversion Hc0; subst c0.
        pose proof (cosetrep_images newpoint cosetrep Hnp Hcr) as Himg.
        apply (H5 i a c); try assumption; [lia| |apply Hs; exact Hx].
        apply (transversal_labels n k A K); try assumption; [lia| |].
        -- apply (candidate_set_range n k cosetrep c newpoint); try assumption.
           pose proof n_small. lia.
        -- apply candidate_set_length. pose proof n_small. lia.
      * apply H4; [exact Hxr|]. apply (Hwit K); assumption.
  - apply Hinv.
    + repeat split; cbn [fst snd].
      * exact Hl.
      * intros i Hi Ht. apply Hsub; [exact Hi|]. rewrite <- Hcopy by exact Hi. exact Ht.
      * rewrite HRc. apply count_upto_ext. intros i Hi. symmetry. apply Hsame. lia.
      * intros i Hi Ht. rewrite Hsame by exact Hi. exact Ht.
      * intros x Hx Ht. left. rewrite <- Hsame by exact Hx. exact Ht.
      * intros i a c Hi. lia.
      * unfold room_left in *.
        rewrite (count_upto_ext (in_subset Rn) (in_subset R)); [exact Hroom|].
        intros i Hi. apply Hsame. lia.
    + intros j s1 Hj Hs1. subst Ac. apply scan_body_sem; try assumption.
      destruct tables as [_ (len' & Hlen' & Hadj)].
      rewrite Hlen in Hlen'. inversion Hlen'; subst len'.
      destruct (Hadj j ltac:(lia)) as (a & c & Ha & _). rewrite Ha.
      exists len. split; [exact Hlen|]. split; [lia|exact Ha].
Qed.

End Scan.

(** ** What a call decides *)

Section Decides.

Variables (n k : Z) (cosetreps : list intlist) (adj : intlist) (comb : list intlist).
Variable orb : list Z -> Prop.
Hypothesis k_range : 2 <= k <= n.
Hypothesis nk_range : n * k <= CInt.INT_MAX.
Hypothesis tables : tables_ok n k cosetreps adj comb.
Hypothesis orbit : represents n k cosetreps adj comb orb.

(** What lines 240-251 hand to the recursive call is what a call
    assumes. *)
Lemma moved_ok A Rn Rn' p l A1 :
  labelled n k A -> List.length Rn = Z.to_nat n -> subset_of_last n k A Rn ->
  room_left n k A Rn ->
  (forall K, orb K -> transversal k A K ->
     forall x, In x K -> part_of A x = k -> in_subset Rn x = true) ->
  1 <= p <= n -> get1 Rn p = Some true -> set1 Rn p false = Some Rn' ->
  1 <= l <= k - 1 -> seti A p l = Some A1 ->
  call_ok n k A1 Rn' p /\ witnesses_covered k orb A1 Rn' p /\ room_left n k A1 Rn'.
Proof.
  intros HA Hlen Hsub Hroom Hall Hp Ht Hset Hl HA1.
  pose proof (set1_spec _ _ _ _ Hset) as (L & G & O).
  pose proof (in_subset_set _ _ _ _ Hset) as [G' O'].
  pose proof (seti_spec _ _ _ _ HA1) as (_ & GA & OA).
  pose proof (Hsub p Hp Ht) as Hk.
  assert (Hsub1 : subset_of_last n k A1 Rn').
  { intros j Hj Hjt. destruct (Z.eq_dec j p) as [->|Hne]; [congruence|].
    rewrite OA by exact Hne. apply Hsub; [exact Hj|]. rewrite <- O by exact Hne.
    exact Hjt. }
  split; [|split].
  - split; [eapply labelled_moved; [exact HA| |exact HA1]; lia|].
    split; [intros j Hj; apply get1_defined; lia|].
    split; [exact Hsub1|]. split; [exact Hp|].
    unfold in_first. rewrite GA. apply Z.ltb_lt. lia.
  - intros K HK Hout Htr x Hx Hxk.
    assert (Hsame : forall y, In y K -> part_of A y = part_of A1 y).
    { intros y Hy. unfold part_of. rewrite OA; [reflexivity|]. intros ->. contradiction. }
    assert (Hne : x <> p) by (intros ->; contradiction).
    rewrite O' by exact Hne. apply (Hall K); try assumption.
    + apply (transversal_same_parts k A1); assumption.
    + rewrite Hsame by exact Hx. exact Hxk.
  - unfold room_left in *.
    rewrite (moved_point n k A p l A1 Hp Hk ltac:(lia) HA1).
    assert (E : count_upto (in_subset Rn) (Z.to_nat n)
                = count_upto (in_subset Rn') (Z.to_nat n) + 1).
    { apply (count_upto_update _ _ _ p); [lia|exact G'| |].
      - apply in_subset_true. exact Ht.
      - intros i Hi. symmetry. apply O'. exact Hi. }
    rewrite E in Hroom.
    replace (count_upto (in_first k A) (Z.to_nat n) + 1
             + count_upto (in_subset Rn') (Z.to_nat n))
      with (count_upto (in_first k A) (Z.to_nat n)
            + (count_upto (in_subset Rn') (Z.to_nat n) + 1)) by lia.
    exact Hroom.
Qed.

(** Lines 240-251: the loop returns true exactly when every recursive
    call would. *)
Lemma branches_sem fuel Rn' p A :
  (forall A1 R1 np1 w res A' w',
     call_ok n k A1 R1 np1 -> witnesses_covered k orb A1 R1 np1 -> room_left n k A1 R1 ->
     TransversalProperty fuel n k cosetreps adj comb A1 R1 np1 w = Ret (res, A') w' ->
     (res = true <-> guaranteed n k orb A1 R1)) ->
  geti A p = Some k ->
  (forall l A1, 1 <= l <= k - 1 -> seti A p l = Some A1 ->
     call_ok n k A1 Rn' p /\ witnesses_covered k orb A1 Rn' p /\ room_left n k A1 Rn') ->
  forall count i w res A' w', 1 <= i -> i + Z.of_nat count = k ->
    branches (fun A0 r' => TransversalProperty fuel n k cosetreps adj comb A0 Rn' r')
      count i k (Some p) A w = Ret (res, A') w' ->
    (res = true <->
     forall l A1, i <= l <= k - 1 -> seti A p l = Some A1 -> guaranteed n k orb A1 Rn').
Proof.
  intros IH Hk Hpre. induction count as [|c IHc]; intros i w res A' w' Hi Hic H.
  - cbn [branches] in H. unfold ret in H. inversion H; subst.
    split; [intros _ l A1 Hl; lia|reflexivity].
  - cbn [branches] in H.
    apply bind_Ret in H as (r' & w1 & Hr & H). apply lift_Ret in Hr as [Hr ->].
    inversion Hr; subst r'.
    apply bind_Ret in H as (A1 & w1 & HA & H). apply lift_Ret in HA as [HA ->].
    apply bind_Ret in H as ([tp A2] & w1 & Hc & H).
    destruct (Hpre i A1 ltac:(lia) HA) as (Hok & Hwit & Hroom).
    pose proof (IH _ _ _ _ _ _ _ Hok Hwit Hroom Hc) as Hiff.
    destruct tp; cbn [negb] in H.
    + apply true_restores in Hc; [|apply Hok]. subst A2.
      apply bind_Ret in H as (A3 & w2 & HA3 & H). apply lift_Ret in HA3 as [HA3 ->].
      rewrite (seti_restore _ _ _ _ _ Hk HA) in HA3. inversion HA3; subst A3.
      apply IHc in H; [|lia|lia]. rewrite H. split.
      * intros Hall l A4 Hl HA4. destruct (Z.eq_dec l i) as [->|Hne].
        -- rewrite HA in HA4. inversion HA4; subst A4. apply Hiff. reflexivity.
        -- apply (Hall l A4); [lia|exact HA4].
      * intros Hall l A4 Hl. apply Hall. lia.
    + unfold ret in H. inversion H; subst. split; [discriminate|].
      intros Hall. apply Hiff. apply (Hall i A1); [lia|exact HA].
Qed.

(** A call that returns has decided what its comment asks. *)
Lemma call_decides fuel : forall A R newpoint w res A' w',
  call_ok n k A R newpoint -> witnesses_covered k orb A R newpoint ->
  room_left n k A R ->
  TransversalProperty fuel n k cosetreps adj comb A R newpoint w = Ret (res, A') w' ->
  (res = true <-> guaranteed n k orb A R).
Proof.
  induction fuel as [|fuel IH]; intros A R newpoint w res A' w' Hok Hwit Hroom H;
    [discriminate|].
  pose proof (scan_sem n k cosetreps adj comb orb k_range nk_range tables orbit
                A R newpoint Hok Hwit Hroom) as Hsem.
  destruct Hok as (HA & HR & Hsub & Hnp & Hin).
  cbn [TransversalProperty] in H.
  apply bind_Ret in H as (ok & w1 & _ & H). destruct ok; simpl in H; [|discriminate].
  apply bind_Ret in H as (ok' & w2 & _ & H). destruct ok'; simpl in H; [|discriminate].
  apply bind_Ret in H as (fl & w3 & Hs & H). apply lift_Ret in Hs as [Hs ->].
  rewrite Hs in Hsem.
  destruct fl as [[Rnew Rnewcount]|u];
    [|unfold ret in H; inversion H; subst; split; [intros _; exact Hsem|reflexivity]].
  destruct Hsem as (Hlen & Hsub' & Hcount & Hroom' & Hsame & Hall).
  destruct (Rnewcount =? 0) eqn:E0.
  - unfold ret in H. inversion H; subst res A' w'. split; [discriminate|].
    intros Hg. exfalso. apply Hsame in Hg. apply Z.eqb_eq in E0.
    assert (Hempty : forall i, 1 <= i <= n -> in_subset Rnew i = false).
    { intros i Hi. rewrite E0 in Hcount. symmetry in Hcount.
      rewrite count_upto_zero in Hcount. apply Hcount. lia. }
    destruct (Hg A) as (K & HK & Ht).
    { apply (own_completion n k k_range); [exact HA|exact Hempty|].
      unfold room_left in Hroom'. rewrite <- Hcount, E0 in Hroom'.
      rewrite Z.add_0_r in Hroom'. exact Hroom'. }
    destruct (Ht k ltac:(lia)) as (x & Hx & Hxk & _).
    pose proof (Hall K HK Ht x Hx Hxk) as Hxin.
    rewrite Hempty in Hxin by (apply (proj1 orbit K); assumption). discriminate.
  - apply bind_Ret in H as ([r Rnew'] & w3 & Hp & H). apply lift_Ret in Hp as [Hp ->].
    apply pick_spec in Hp. destruct r as [p|].
    + destruct Hp as (Hr & Ht & Hset & _).
      pose proof (in_subset_set _ _ _ _ Hset) as [G O].
      pose proof (Hsub' p Hr Ht) as Hk.
      apply (branches_sem fuel Rnew' p A IH Hk) in H; [| |lia|lia].
      * rewrite H, Hsame. symmetry. apply guaranteed_split; try assumption.
        apply in_subset_true. exact Ht.
      * intros l A1 Hl HA1.
        apply (moved_ok A Rnew Rnew' p l A1); assumption.
    + exfalso. destruct (Z.to_nat (k - 1)) as [|c] eqn:Ec; [lia|].
      cbn [branches] in H. apply bind_Ret in H as (r' & w4 & Hr & _).
      apply lift_Ret in Hr as [Hr _]. discriminate.
Qed.

End Decides.

(** ** Orbits given by coset representatives and an adjacency *)

Lemma images_intlist_cells h (c : list Z) :
  map (image (h :: c)) (positions (List.length c)) = c.
Proof.
  induction c as [|x c IH] using rev_ind; [reflexivity|].
  rewrite length_app. cbn [List.length]. rewrite Nat.add_1_r, positions_S, map_app.
  cbn [map]. f_equal.
  - transitivity (map (image (h :: c)) (positions (List.length c))); [|exact IH].
    apply map_ext_in. intros j Hj. apply In_positions in Hj.
    unfold image. rewrite !geti_cons by lia.
    rewrite nth_error_app1 by lia. reflexivity.
  - unfold image. rewrite geti_cons by lia.
    replace (Z.to_nat (Z.of_nat (S (List.length c)) - 1)) with (List.length c) by lia.
    rewrite nth_error_app2, Nat.sub_diag by lia. reflexivity.
Qed.

Lemma candidate_set_encoded k cr (c0 : list Z) p :
  List.length c0 = Z.to_nat (k - 1) -> image cr 1 = p ->
  candidate_set k cr (intlist_of c0) p = map (image cr) (1 :: c0).
Proof.
  intros Hlen Hp. unfold candidate_set, candidate_prefix. cbn [map]. rewrite Hp.
  f_equal. rewrite <- Hlen, <- (map_map (image (intlist_of c0)) (image cr)).
  unfold intlist_of. rewrite images_intlist_cells. reflexivity.
Qed.

Lemma In_consec len : forall a x, In x (consec a len) <-> a <= x < a + Z.of_nat len.
Proof.
  induction len as [|l IH]; intros a x; cbn [consec In]; [lia|].
  rewrite IH. lia.
Qed.

Lemma ascending_filter f (l : list Z) : ascending l -> ascending (filter f l).
Proof.
  induction l as [|x l IH]; intros H; [exact I|].
  apply ascending_cons in H as [Hall Hl]. cbn [filter].
  destruct (f x); [|apply IH; exact Hl].
  apply ascending_cons. split; [|apply IH; exact Hl].
  apply Forall_forall. intros y Hy. apply filter_In in Hy as [Hy _].
  rewrite Forall_forall in Hall. apply Hall. exact Hy.
Qed.

Lemma ascending_NoDup (l : list Z) : ascending l -> NoDup l.
Proof.
  induction l as [|x l IH]; intros H; [constructor|].
  apply ascending_cons in H as [Hall Hl]. constructor; [|apply IH; exact Hl].
  intros Hin. rewrite Forall_forall in Hall. specialize (Hall x Hin). lia.
Qed.

Lemma existsb_eqb x (l : list Z) : existsb (Z.eqb x) l = true <-> In x l.
Proof.
  rewrite existsb_exists. split.
  - intros (y & Hy & E). apply Z.eqb_eq in E. subst y. exact Hy.
  - intros H. exists x. split; [exact H|apply Z.eqb_refl].
Qed.

Lemma same_length_sets (l l' : list Z) :
  NoDup l -> NoDup l' -> same_set l l' -> List.length l = List.length l'.
Proof.
  intros H H' Hs. apply Nat.le_antisymm; apply NoDup_incl_length; try assumption;
    intros x Hx; apply Hs; exact Hx.
Qed.

Lemma NoDup_map_on {T U} (f : T -> U) (l : list T) :
  (forall x y, In x l -> In y l -> f x = f y -> x = y) -> NoDup l -> NoDup (map f l).
Proof.
  induction l as [|x l IH]; intros Hinj Hnd; [constructor|].
  inversion Hnd as [|? ? Hnot Hnd']; subst. cbn [map]. constructor.
  - rewrite in_map_iff. intros (y & E & Hy). apply Hnot.
    rewrite (Hinj x y); [exact Hy|left; reflexivity|right; exact Hy|symmetry; exact E].
  - apply IH; [|exact Hnd']. intros a b Ha Hb. apply Hinj; right; assumption.
Qed.

Section Encoded.

Variables (n k : Z) (G : list intlist) (K0 : list Z).
Variables (cosetreps : list intlist) (adj : intlist) (comb : list intlist).
Hypothesis k_range : 2 <= k <= n.
Hypothesis group : group_on n G.
Hypothesis encoded : encodes n k G K0 cosetreps adj comb.

Lemma image_range g x : In g G -> 1 <= x <= n -> 1 <= image g x <= n.
Proof. intros Hg. destruct group as [Hperm _]. apply (Hperm g Hg). Qed.

Lemma image_injective g x y :
  In g G -> 1 <= x <= n -> 1 <= y <= n -> image g x = image g y -> x = y.
Proof. intros Hg. destruct group as [Hperm _]. apply (Hperm g Hg). Qed.

Lemma K0_range x : In x K0 -> 1 <= x <= n.
Proof.
  destruct encoded as [(_ & _ & Hr) _]. rewrite Forall_forall in Hr. apply Hr.
Qed.

Lemma K0_size : List.length K0 = Z.to_nat k /\ NoDup K0.
Proof.
  destruct encoded as [(Hl & Ha & _) _]. split; [lia|apply ascending_NoDup; exact Ha].
Qed.

Lemma orbit_range K x : in_orbit G K0 K -> In x K -> 1 <= x <= n.
Proof.
  intros (g & Hg & Hs) Hx. apply Hs in Hx. apply in_map_iff in Hx as (y & <- & Hy).
  apply image_range; [exact Hg|apply K0_range; exact Hy].
Qed.

(** The inverse of a group element, on both sides. *)
Lemma inverse_in_group g :
  In g G ->
  exists h, In h G /\ (forall x, 1 <= x <= n -> image h (image g x) = x) /\
            (forall y, 1 <= y <= n -> image g (image h y) = y).
Proof.
  intros Hg. destruct group as (_ & _ & _ & Hinv).
  destruct (Hinv g Hg) as (h & Hh & Hleft). exists h. split; [exact Hh|].
  split; [exact Hleft|]. intros y Hy.
  apply (image_injective h); [exact Hh| |exact Hy|].
  - apply image_range; [exact Hg|]. apply image_range; assumption.
  - apply Hleft. apply image_range; assumption.
Qed.

Lemma comb_entry a c :
  get1 comb a = Some c ->
  exists c0, c = intlist_of c0 /\ List.length c0 = Z.to_nat (k - 1) /\
             ascending c0 /\ Forall (fun x => 1 <= x <= n) c0.
Proof.
  intros H. destruct encoded as (_ & _ & Hcomb & _). subst comb.
  unfold get1 in H. destruct (a <? 1); [discriminate|].
  apply nth_error_In in H. apply in_map_iff in H as (c0 & <- & Hc0).
  apply subsets_spec in Hc0 as (Hl & Ha & Hr). exists c0.
  split; [reflexivity|]. split; [exact Hl|]. split; [exact Ha|].
  revert Hr. apply Forall_impl. intros x Hx. lia.
Qed.

Lemma comb_index c0 :
  List.length c0 = Z.to_nat (k - 1) -> ascending c0 ->
  Forall (fun x => 1 <= x <= n) c0 ->
  exists a, get1 comb a = Some (intlist_of c0).
Proof.
  intros Hl Ha Hr. destruct encoded as (_ & _ & Hcomb & _). subst comb.
  assert (Hin : In (intlist_of c0)
                  (map intlist_of (subsets 1 (Z.to_nat n) (Z.to_nat (k - 1))))).
  { apply in_map. apply subsets_spec. split; [exact Hl|]. split; [exact Ha|].
    revert Hr. apply Forall_impl. intros x Hx. lia. }
  apply In_nth_error in Hin as [i Hi]. exists (Z.of_nat i + 1). unfold get1.
  replace (Z.of_nat i + 1 <? 1) with false by (symmetry; apply Z.ltb_ge; lia).
  replace (Z.to_nat (Z.of_nat i + 1 - 1)) with i by lia. exact Hi.
Qed.

(** The tables of an orbit represent it: the sets of the orbit with the
    point [p] are the candidates at [p]. *)
Lemma encoded_represents : represents n k cosetreps adj comb (in_orbit G K0).
Proof.
  split; [intros K x; apply orbit_range|].
  intros p K Hp. destruct encoded as (_ & Hreps & _ & (len & Hlen & Hadj)).
  destruct (Hreps p Hp) as (cr & Hcr & HcrG & Hcr1).
  destruct group as (_ & _ & Hcomp & _). split.
  - intros [(g & Hg & Hs) HpK].
    destruct (inverse_in_group cr HcrG) as (h & Hh & Hleft & Hright).
    destruct (Hcomp h g Hh Hg) as (f & Hf & Hfx).
    set (K1 := map (image f) K0).
    set (c0 := filter (fun x => existsb (Z.eqb x) K1) (consec 2 (Z.to_nat (n - 1)))).
    assert (HK1 : forall x, In x K1 <-> exists y, In y K /\ x = image h y).
    { intros x. unfold K1. rewrite in_map_iff. split.
      - intros (z & <- & Hz). exists (image g z). split.
        + apply Hs. apply in_map. exact Hz.
        + apply Hfx. apply K0_range. exact Hz.
      - intros (y & Hy & ->). apply Hs in Hy. apply in_map_iff in Hy as (z & <- & Hz).
        exists z. split; [apply Hfx; apply K0_range; exact Hz|exact Hz]. }
    assert (HK1r : forall x, In x K1 -> 1 <= x <= n).
    { intros x Hx. apply in_map_iff in Hx as (z & <- & Hz).
      apply image_range; [exact Hf|apply K0_range; exact Hz]. }
    assert (H1 : In 1 K1).
    { apply HK1. exists p. split; [exact HpK|]. rewrite <- Hcr1. symmetry.
      apply Hleft. lia. }
    assert (Hc0 : forall x, In x c0 <-> In x K1 /\ x <> 1).
    { intros x. unfold c0. rewrite filter_In, In_consec, existsb_eqb. split.
      - intros [Hx Hin]. split; [exact Hin|lia].
      - intros [Hin Hne]. split; [|exact Hin]. specialize (HK1r x Hin). lia. }
    assert (Hasc : ascending c0) by (apply ascending_filter, ascending_consec).
    assert (Hset : same_set (1 :: c0) K1).
    { intros x. cbn [In]. rewrite Hc0. split.
      - intros [<-|[Hin _]]; assumption.
      - intros Hin. destruct (Z.eq_dec x 1) as [->|Hne]; [left; reflexivity|].
        right. split; assumption. }
    assert (Hlen0 : List.length c0 = Z.to_nat (k - 1)).
    { assert (E : List.length (1 :: c0) = List.length K1).
      { apply same_length_sets; [| |exact Hset].
        - constructor; [|apply ascending_NoDup; exact Hasc].
          intros Hin. apply Hc0 in Hin as [_ Hne]. apply Hne. reflexivity.
        - apply NoDup_map_on; [|apply K0_size].
          intros x y Hx Hy E. apply (image_injective f); try assumption;
            apply K0_range; assumption. }
      unfold K1 in E. rewrite length_map, (proj1 K0_size) in E.
      cbn [List.length] in E. lia. }
    assert (Hr0 : Forall (fun x => 1 <= x <= n) c0).
    { apply Forall_forall. intros x Hx. apply Hc0 in Hx as [Hx _]. apply HK1r, Hx. }
    destruct (comb_index c0 Hlen0 Hasc Hr0) as [a Ha].
    destruct (proj2 (Hadj a)) as (i & Hi & Hai).
    { exists c0. split; [exact Ha|]. exists f. split; [exact Hf|exact Hset]. }
    exists i, a, (intlist_of c0), cr. split; [exists len; auto|].
    split; [exact Ha|]. split; [exact Hcr|].
    rewrite (candidate_set_encoded k cr c0 p Hlen0 Hcr1). intros x.
    rewrite in_map_iff. split.
    + intros Hx. exists (image h x).
      assert (Hxr : 1 <= x <= n).
      { apply (orbit_range K); [exists g; auto|exact Hx]. }
      split; [apply Hright; exact Hxr|]. apply Hset. apply HK1. exists x. auto.
    + intros (y & <- & Hy). apply Hset in Hy. apply HK1 in Hy as (z & Hz & ->).
      rewrite Hright; [exact Hz|]. apply (orbit_range K); [exists g; auto|exact Hz].
  - intros (i & a & c & cr' & (len' & Hlen' & Hi & Hai) & Hc & Hcr' & Hs).
    rewrite Hcr in Hcr'. inversion Hcr'; subst cr'.
    rewrite Hlen in Hlen'. inversion Hlen'; subst len'.
    destruct (proj1 (Hadj a)) as (c0 & Hc0 & g & Hg & Hs0); [exists i; auto|].
    rewrite Hc in Hc0. inversion Hc0; subst c.
    destruct (comb_entry a _ Hc) as (c1 & E & Hl1 & _).
    assert (c1 = c0) by (unfold intlist_of in E; inversion E; reflexivity). subst c1.
    rewrite (candidate_set_encoded k cr c0 p Hl1 Hcr1) in Hs.
    destruct (Hcomp cr g HcrG Hg) as (f & Hf & Hfx). split.
    + exists f. split; [exact Hf|]. intros x. rewrite (Hs x), !in_map_iff. split.
      * intros (y & <- & Hy). apply Hs0 in Hy. apply in_map_iff in Hy as (z & <- & Hz).
        exists z. split; [apply Hfx; apply K0_range; exact Hz|exact Hz].
      * intros (z & <- & Hz). exists (image g z).
        split; [symmetry; apply Hfx; apply K0_range; exact Hz|].
        apply Hs0. apply in_map. exact Hz.
    + apply Hs. left. exact Hcr1.
Qed.

End Encoded.

(** ** What the program decides *)

Section Program.

Variables (n k : Z) (cosetreps : list intlist) (adj : intlist) (comb : list intlist).
Variable orb : list Z -> Prop.
Hypothesis k_range : 2 <= k <= n.
Hypothesis nk_range : n * k <= CInt.INT_MAX.
Hypothesis tables : tables_ok n k cosetreps adj comb.
Hypothesis orbit : represents n k cosetreps adj comb orb.

Section OneTrial.

Variables (ps : list Z) (A1 : intlist).
Hypothesis ps_ok : trial_ok n k ps.
Hypothesis ps_parts :
  forall t p, nth_error ps t = Some p -> geti A1 p = Some (Z.of_nat t + 1).
Hypothesis other_parts : forall i, 1 <= i <= n -> ~ In i ps -> geti A1 i = Some k.

Lemma trial_first_parts i :
  1 <= i <= n ->
  (in_first k A1 i = true <-> exists t, nth_error ps t = Some i).
Proof.
  intros Hi. unfold in_first. split.
  - intros H. destruct (in_dec Z.eq_dec i ps) as [Hin|Hout].
    + apply In_nth_error. exact Hin.
    + rewrite (other_parts i Hi Hout), Z.ltb_irrefl in H. discriminate.
  - intros (t & Ht). rewrite (ps_parts t i Ht). apply Z.ltb_lt.
    assert (t < List.length ps)%nat by (apply nth_error_Some; congruence).
    destruct ps_ok as (_ & _ & Hl). lia.
Qed.

(** The question of a trial, in the terms of the call. *)
Lemma trial_question :
  guaranteed n k orb A1 (repeat false (Z.to_nat n)) <-> trial_guaranteed n k orb ps.
Proof.
  split.
  - intros Hg Q HQ Hps Hsize. apply Hg. split; [exact HQ|]. split; [|split; [|exact Hsize]].
    + intros i Hi Hin. apply trial_first_parts in Hin as (t & Ht); [|exact Hi].
      rewrite (Hps t i Ht). symmetry. apply part_of_geti. apply ps_parts. exact Ht.
    + intros i Hi Hin. rewrite in_subset_repeat_false in Hin. discriminate.
  - intros Hg Q (HQ & Hext & _ & Hsize). apply Hg; [exact HQ| |exact Hsize].
    intros t p Ht. destruct ps_ok as (_ & Hr & _). rewrite Forall_forall in Hr.
    pose proof (Hr p (nth_error_In _ _ Ht)) as Hp.
    rewrite Hext; [apply part_of_geti; apply ps_parts; exact Ht|exact Hp|].
    apply trial_first_parts; [exact Hp|]. exists t. exact Ht.
Qed.

(** Every transversal of the partition of a trial has the first point of
    the sequence. *)
Lemma trial_witnesses R : witnesses_covered k orb A1 R (hd 0 ps).
Proof.
  intros K HK Hout Ht. exfalso. apply Hout.
  destruct (Ht 1 ltac:(lia)) as (x & Hx & Hx1 & _).
  pose proof (proj1 orbit K x HK Hx) as Hxr.
  destruct (in_dec Z.eq_dec x ps) as [Hin|Hnot].
  - apply In_nth_error in Hin as [t Hnth].
    rewrite (part_of_geti _ _ _ (ps_parts t x Hnth)) in Hx1.
    assert (t = 0%nat) by lia. subst t. destruct ps as [|p0 ps']; [discriminate|].
    inversion Hnth; subst. exact Hx.
  - rewrite (part_of_geti _ _ _ (other_parts x Hxr Hnot)) in Hx1. lia.
Qed.

End OneTrial.

Lemma trial_start_length ps A R :
  List.length A = S (Z.to_nat n) ->
  forall A1 R1, init_trial n k (intlist_of ps) A R = Some (A1, R1) ->
  List.length A1 = S (Z.to_nat n).
Proof.
  intros HA A1 R1 H. unfold init_trial in H.
  apply obind_Some in H as ([A0 R0] & H0 & H).
  apply obind_Some in H as (len & _ & H).
  apply obind_Some in H as (A2 & H2 & H). inversion H; subst A2 R1. clear H.
  cbn [fst snd] in H2.
  apply (iter_up_inv (fun _ st => List.length (fst st) = S (Z.to_nat n))) in H0.
  - apply (iter_up_inv (fun _ A' => List.length A' = S (Z.to_nat n))) in H2;
      [exact H2|exact H0|].
    intros j s1 s2 _ Hs Hb. apply obind_Some in Hb as (p & _ & Hb).
    apply seti_spec in Hb as (L & _). congruence.
  - exact HA.
  - intros j [s1 r1] s2 _ Hs Hb. cbn [fst snd] in *.
    apply obind_Some in Hb as (A' & HA' & Hb).
    apply obind_Some in Hb as (R' & _ & Hb). inversion Hb; subst s2. cbn [fst].
    apply seti_spec in HA' as (L & _). congruence.
Qed.

Variable fuel : nat.
Hypothesis enough_fuel : (Z.to_nat n <= fuel)%nat.

(** The loop over the trials: it goes on as long as the answer is yes. *)
Lemma trials_decide A0 R0 : forall shortreps A rest out err,
  Forall (trial_ok n k) shortreps ->
  List.length A = S (Z.to_nat n) ->
  exists results w',
    trial_run fuel (Setting n k cosetreps adj comb A0 R0) A (repeat false (Z.to_nat n))
      (World [] (List.concat (map intlist_of shortreps) ++ 0 :: rest) out err)
      results w' /\
    mallocs w' = [] /\ stdout w' = out /\ stderr w' = err /\
    (last results true = true <-> Forall (trial_guaranteed n k orb) shortreps).
Proof.
  induction shortreps as [|ps more IH]; intros A rest out err Hok HA.
  - exists [], (World [] rest out err). split; [|repeat split; constructor].
    eapply run_end;
      [apply (IntListRead_value [] rest (World [] (0 :: rest) out err));
         [reflexivity|ints_ok|ints_ok|reflexivity]
      |reflexivity].
  - inversion Hok as [|? ? Hps Hmore]; subst.
    cbn [map List.concat]. rewrite <- app_assoc.
    set (rest' := List.concat (map intlist_of more) ++ 0 :: rest).
    destruct Hps as (Hnd & Hr & Hl).
    assert (Hn : n <= CInt.INT_MAX) by nia.
    assert (Hread : IntListRead (World [] (intlist_of ps ++ rest') out err)
                    = Ret (intlist_of ps) (World [] rest' out err)).
    { apply (IntListRead_value ps rest'
               (World [] (intlist_of ps ++ rest') out err));
        [reflexivity|lia| |reflexivity].
      revert Hr. apply Forall_impl. intros p Hp.
      unfold CInt.in_range, CInt.INT_MIN. lia. }
    destruct (trial_start n k ps A (repeat false (Z.to_nat n)) k_range HA
                (repeat_length _ _) Hnd Hr Hl)
      as (A1 & Hinit & _ & P1 & K1 & Hcall & Hcount & Hbound).
    pose proof (trial_start_length ps A _ HA A1 _ Hinit) as HA1.
    destruct (call_returns n k cosetreps adj comb k_range Hn tables fuel A1
                (repeat false (Z.to_nat n)) (hd 0 ps) (World [] rest' out err)
                eq_refl Hcall) as (res & A2 & Hres).
    { pose proof (count_upto_bounds (in_first k A1) (Z.to_nat n)). lia. }
    assert (Hroom : room_left n k A1 (repeat false (Z.to_nat n))).
    { unfold room_left.
      rewrite (proj2 (count_upto_zero (in_subset (repeat false (Z.to_nat n))) (Z.to_nat n)))
        by (intros i _; apply in_subset_repeat_false).
      rewrite Z.add_0_r. exact Hbound. }
    assert (Hps : trial_ok n k ps) by exact (conj Hnd (conj Hr Hl)).
    assert (Hwit : witnesses_covered k orb A1 (repeat false (Z.to_nat n)) (hd 0 ps))
      by (apply trial_witnesses; assumption).
    assert (Hq : guaranteed n k orb A1 (repeat false (Z.to_nat n))
                 <-> trial_guaranteed n k orb ps)
      by (apply trial_question; assumption).
    pose proof (call_decides n k cosetreps adj comb orb k_range nk_range tables orbit
                  fuel A1 _ _ _ _ _ _ Hcall Hwit Hroom Hres) as Hiff.
    rewrite Hq in Hiff.
    assert (Hfirst : geti (intlist_of ps) 1 = Some (hd 0 ps)).
    { destruct ps as [|p0 ps']; [simpl in Hl; lia|reflexivity]. }
    assert (Hlen : Length (intlist_of ps) = Some (Z.of_nat (List.length ps)))
      by reflexivity.
    destruct res.
    + pose proof (true_restores _ _ _ _ _ _ _ _ _ _ _ _ (proj1 (proj2 (proj2 Hcall))) Hres).
      subst A2.
      destruct (IH A1 rest out err Hmore HA1) as (results & w' & Hrun & Hm & Ho & He & Hall).
      exists (true :: results), w'. split; [|split; [exact Hm|split; [exact Ho|split; [exact He|]]]].
      * eapply run_true; [exact Hread|exact Hlen|lia|exact Hinit|exact Hfirst
                          |exact Hres|exact Hrun].
      * rewrite last_true_tail, Hall. split.
        -- intros H. constructor; [apply Hiff; reflexivity|exact H].
        -- intros H. inversion H; assumption.
    + exists [false], (World [] rest' out err).
      split; [|split; [reflexivity|split; [reflexivity|split; [reflexivity|]]]].
      * eapply run_false; [exact Hread|exact Hlen|lia|exact Hinit|exact Hfirst|exact Hres].
      * cbn [last]. split; [discriminate|]. intros H. inversion H; subst.
        apply Hiff. assumption.
Qed.

End Program.

(** ** The results *)

Lemma triangle_tables : tables_ok 3 2 (rotation_reps 3) [2; 2; 3] (singletons 3).
Proof.
  split.
  - intros p Hp. apply three_points in Hp.
    destruct Hp as [-> | [-> | -> ]]; (eexists; split; [reflexivity|]);
      intros q Hq; apply three_points in Hq; destruct Hq as [-> | [-> | -> ]];
      (eexists; split; [reflexivity|vm_compute; split; discriminate]).
  - exists 2. split; [reflexivity|]. intros i Hi. assert (Hc : i = 1 \/ i = 2) by lia.
    destruct Hc as [-> | -> ].
    + exists 2, [1; 2]. split; [reflexivity|]. split; [reflexivity|].
      intros j Hj. assert (j = 1) by lia. subst j. exists 2. split; [reflexivity|lia].
    + exists 3, [1; 3]. split; [reflexivity|]. split; [reflexivity|].
      intros j Hj. assert (j = 1) by lia. subst j. exists 3. split; [reflexivity|lia].
Qed.

Lemma triangle_represents :
  represents 3 2 (rotation_reps 3) [2; 2; 3] (singletons 3)
    (in_orbit (rotation_reps 3) [1; 2]).
Proof.
  apply (encoded_represents 3 2 (rotation_reps 3) [1; 2]); [lia| |].
  - apply rotations_3_group.
  - exact triangle_encoded.
Qed.

Lemma triangle_call_ok : call_ok 3 2 [3; 1; 2; 2] (repeat false 3) 1.
Proof.
  split; [|split; [|split; [|split]]].
  - intros i Hi. apply three_points in Hi.
    destruct Hi as [-> | [-> | -> ]]; (eexists; split; [reflexivity|lia]).
  - intros i Hi. apply three_points in Hi.
    destruct Hi as [-> | [-> | -> ]]; eexists; reflexivity.
  - apply subset_of_last_empty.
  - lia.
  - reflexivity.
Qed.

Lemma triangle_witnesses :
  witnesses_covered 2 (in_orbit (rotation_reps 3) [1; 2]) [3; 1; 2; 2] (repeat false 3) 1.
Proof.
  intros K HK Hout Ht. exfalso. apply Hout.
  destruct (Ht 1 ltac:(lia)) as (x & Hx & Hx1 & _).
  apply first_part_of_triangle in Hx1. subst x. exact Hx.
Qed.

(** X6: the test of a candidate (lines 185-206) finds it injective
    exactly when [newpoint] and the [k-1] images under [cosetrep] of the
    points of [c] lie in [k] different parts, and [kpoint] is then the one
    of them in the last part. *)
Theorem candidate_tests_distinct_parts (n k : Z) (A cosetrep c : intlist)
    (newpoint : Z) (kpoint : option Z) :
  1 <= k <= CInt.INT_MAX ->
  labelled n k A ->
  1 <= newpoint <= n ->
  (forall q, 1 <= q <= n -> exists q', geti cosetrep q = Some q' /\ 1 <= q' <= n) ->
  (forall j, 1 <= j <= k - 1 -> exists q, geti c j = Some q /\ 1 <= q <= n) ->
  exists injective kpoint',
    candidate k A cosetrep c newpoint kpoint = Some (injective, kpoint') /\
    (injective = true <-> NoDup (map (part_of A) (candidate_set k cosetrep c newpoint))) /\
    (injective = true ->
     forall x, In x (candidate_set k cosetrep c newpoint) -> part_of A x = k ->
               kpoint' = Some x).
Proof. intros. apply (candidate_spec n); assumption. Qed.

Lemma candidate_tests_distinct_parts_witness :
  exists injective kpoint',
    candidate 3 [5; 1; 3; 2; 3; 3] [5; 2; 3; 4; 5; 1] [2; 2; 3] 2 None
    = Some (injective, kpoint') /\
    (injective = true
     <-> NoDup (map (part_of [5; 1; 3; 2; 3; 3])
                  (candidate_set 3 [5; 2; 3; 4; 5; 1] [2; 2; 3] 2))) /\
    (injective = true ->
     forall x, In x (candidate_set 3 [5; 2; 3; 4; 5; 1] [2; 2; 3] 2) ->
               part_of [5; 1; 3; 2; 3; 3] x = 3 -> kpoint' = Some x).
Proof.
  apply (candidate_tests_distinct_parts 5 3 [5; 1; 3; 2; 3; 3] [5; 2; 3; 4; 5; 1]
           [2; 2; 3] 2 None).
  - unfold CInt.INT_MAX. lia.
  - intros i Hi. assert (Hc : i = 1 \/ i = 2 \/ i = 3 \/ i = 4 \/ i = 5) by lia.
    destruct Hc as [-> | [-> | [-> | [-> | -> ]]]]; (eexists; split; [reflexivity|lia]).
  - lia.
  - intros q Hq. assert (Hc : q = 1 \/ q = 2 \/ q = 3 \/ q = 4 \/ q = 5) by lia.
    destruct Hc as [-> | [-> | [-> | [-> | -> ]]]]; (eexists; split; [reflexivity|lia]).
  - intros j Hj. assert (Hc : j = 1 \/ j = 2) by lia.
    destruct Hc as [-> | -> ]; (eexists; split; [reflexivity|lia]).
Defined.

(** X7: a group [G], the coset representatives of the stabilizer of 1 and
    the adjacency of 1, as the comment of [TransversalProperty] describes
    them, give the orbit through the candidates of lines 176-206: the sets
    of the orbit with a point [p] are the sets of [p] and the images under
    [cosetreps[p]] of the [(k-1)]-subsets [comb[adj[i]]]. *)
Theorem encoded_orbit_represented (n k : Z) (G : list intlist) (K0 : list Z)
    (cosetreps : list intlist) (adj : intlist) (comb : list intlist) :
  2 <= k <= n -> group_on n G -> encodes n k G K0 cosetreps adj comb ->
  represents n k cosetreps adj comb (in_orbit G K0).
Proof. intros. apply encoded_represents; assumption. Qed.

Lemma encoded_orbit_represented_witness :
  represents 3 2 (rotation_reps 3) [2; 2; 3] (singletons 3)
    (in_orbit (rotation_reps 3) [1; 2]).
Proof.
  apply (encoded_orbit_represented 3 2 (rotation_reps 3) [1; 2]); [lia| |].
  - apply rotations_3_group.
  - exact triangle_encoded.
Defined.







(** ** The contract of [TransversalProperty], with the bound it needs *)

Lemma ascending_bounded (n : Z) (c : list Z) :
  ascending c -> Forall (fun x => 1 <= x <= n) c -> (List.length c <= Z.to_nat n)%nat.
Proof.
  intros Ha Hr. rewrite <- (positions_length (Z.to_nat n)).
  apply NoDup_incl_length; [apply ascending_NoDup; exact Ha|].
  intros x Hx. rewrite Forall_forall in Hr. apply In_positions.
  specialize (Hr x Hx). lia.
Qed.

Lemma covered_as_documented n k orb A R newpoint :
  no_uncovered_witness n k orb A R newpoint -> witnesses_covered k orb A R newpoint.
Proof.
  intros H K HK Hout Ht. apply (H K HK Hout). intros j Hj. apply Ht. lia.
Qed.

Lemma triangle_documented_empty :
  documented_input 3 2 (rotation_reps 3) [1; 2] (rotation_reps 3) [2; 2; 3]
    (singletons 3) [3; 1; 2; 2] (repeat false 3) 1.
Proof.
  destruct rotations_3_group as [HG HT].
  destruct triangle_call_ok as (HA & HR & Hsub & Hnp & Hin).
  split; [lia|]. split; [exact HG|]. split; [exact HT|].
  split; [exact triangle_encoded|]. split; [reflexivity|].
  split; [exact HA|]. split; [exact HR|]. split; [exact Hsub|].
  split; [exact Hnp|]. split; [exact Hin|]. split; [vm_compute; discriminate|].
  intros K HK Hnot Hmeet x Hx Hpart. exfalso.
  destruct (Hmeet 1 ltac:(lia)) as (y & Hy & Hy1 & _).
  apply first_part_of_triangle in Hy1. subst y. contradiction.
Qed.



(** ** The test of line 214 when [n*k] is not an [int] *)

Lemma get1_ext {T} (x y : list T) :
  List.length x = List.length y ->
  (forall i, 1 <= i <= Z.of_nat (List.length x) -> get1 x i = get1 y i) -> x = y.
Proof.
  intros Hl H. apply nth_error_ext. intros j.
  destruct (Nat.lt_ge_cases j (List.length x)) as [Hj|Hj].
  - specialize (H (Z.of_nat j + 1) ltac:(lia)). unfold get1 in H.
    replace (Z.of_nat j + 1 <? 1) with false in H by (symmetry; apply Z.ltb_ge; lia).
    replace (Z.to_nat (Z.of_nat j + 1 - 1)) with j in H by lia. exact H.
  - rewrite (proj2 (nth_error_None x j)) by exact Hj.
    rewrite (proj2 (nth_error_None y j)) by lia. reflexivity.
Qed.

Section Overflow.

Variable n : Z.
Hypothesis n_range : 2 <= n <= CInt.INT_MAX.

Let A := first_alone n.
Let R := from_three n.
Let tables := [identity_list n].
Let comb := map intlist_of [[1]; [2]].

Lemma first_alone_cells i :
  2 <= i <= n -> geti (first_alone n) i = Some 2.
Proof.
  intros Hi. unfold first_alone. rewrite geti_cons by lia.
  replace (Z.to_nat (i - 1)) with (S (Z.to_nat (i - 2))) by lia. cbn [nth_error].
  change (2 :: repeat 2 (Z.to_nat (n - 2))) with (repeat 2 (S (Z.to_nat (n - 2)))).
  apply nth_error_repeat. lia.
Qed.

Lemma from_three_cells i :
  1 <= i <= n -> get1 (from_three n) i = Some (3 <=? i).
Proof.
  intros Hi. unfold from_three, get1.
  replace (i <? 1) with false by (symmetry; apply Z.ltb_ge; lia).
  destruct (Z.leb_spec 3 i) as [H3|H3].
  - replace (Z.to_nat (i - 1)) with (S (S (Z.to_nat (i - 3)))) by lia. cbn [nth_error].
    apply nth_error_repeat. lia.
  - assert (Hc : i = 1 \/ i = 2) by lia. destruct Hc as [-> | -> ]; reflexivity.
Qed.

Lemma from_three_length : List.length (from_three n) = Z.to_nat n.
Proof. unfold from_three. cbn [List.length]. rewrite repeat_length. lia. Qed.

Lemma first_alone_count : count_upto (in_first 2 A) (Z.to_nat n) = 1.
Proof.
  change 1 with (Z.of_nat (List.length [1])). apply count_members.
  - repeat constructor. intros [].
  - repeat constructor; lia.
  - intros i Hi. unfold in_first, A. destruct (Z.eq_dec i 1) as [->|Hne].
    + split; [intros _; left; reflexivity|reflexivity].
    + rewrite first_alone_cells by lia. split; [discriminate|].
      intros [H|[]]. congruence.
Qed.

Lemma from_three_count : count_upto (in_subset R) (Z.to_nat n) = n - 2.
Proof.
  pose proof (count_upto_split (in_subset R) (fun i => negb (in_subset R i)) (Z.to_nat n)
                ltac:(reflexivity)) as Hs.
  assert (E : count_upto (fun i => negb (in_subset R i)) (Z.to_nat n)
              = Z.of_nat (List.length [1; 2])).
  { apply count_members.
    - repeat constructor; simpl; intuition lia.
    - repeat constructor; lia.
    - intros i Hi. unfold in_subset, R. rewrite from_three_cells by lia.
      destruct (Z.leb_spec 3 i); simpl; intuition lia. }
  rewrite E in Hs. cbn [List.length] in Hs. lia.
Qed.

(** Lines 166-175 on this partition and this subset. *)
Lemma counted :
  iter_up (Z.to_nat n) 1 (count_body 2 A R) (0, 0, repeat false (Z.to_nat n))
  = Some (1, n - 2, R).
Proof.
  destruct (count_defined n 2 A R) as [[[Ac Rc] Rn] Hcount].
  - intros i Hi. destruct (Z.eq_dec i 1) as [->|Hne]; [exists 1; reflexivity|].
    exists 2. apply first_alone_cells. lia.
  - intros i Hi. eexists. apply from_three_cells. exact Hi.
  - rewrite Hcount.
    pose proof (count_values _ _ _ _ _ _ _ (proj2 n_range) Hcount) as [HAc HRc].
    pose proof (count_copies _ _ _ _ _ _ _ Hcount) as [Hl Hcopy].
    rewrite first_alone_count in HAc. rewrite from_three_count in HRc.
    assert (Rn = R).
    { apply get1_ext; [rewrite Hl; symmetry; apply from_three_length|].
      intros i Hi. apply Hcopy. lia. }
    congruence.
Qed.

Lemma first_entry_forces kpoint :
  candidate 2 A (identity_list n) [1; 2] 1 kpoint = Some (true, Some 2).
Proof. reflexivity. Qed.

(** When the test of line 214 fails after the point 2 was added, the scan
    goes on to the entry after it. *)
Lemma scan_goes_on :
  early_success n 2 1 (n - 2 +i 1) = false ->
  scan n 2 tables [2; 2; 77] comb A R 1 = None.
Proof.
  intros Hes. unfold scan. rewrite counted. cbn [obind].
  change (get1 tables 1) with (Some (identity_list n)). cbn [obind].
  change (Length [2; 2; 77]) with (Some 2). cbn [obind].
  unfold for_up. change (Z.to_nat (2 - 1 + 1)) with 2%nat. cbn [loop_up].
  unfold scan_body at 1. change (geti [2; 2; 77] 1) with (Some 2). cbn [obind].
  change (get1 comb 2) with (Some [1; 2]). cbn [obind].
  rewrite first_entry_forces. cbn [obind].
  change (get1 R 2) with (Some false). cbn [obind negb].
  change (set1 R 2 true) with (Some (false :: true :: repeat true (Z.to_nat (n - 2)))).
  cbn [obind]. rewrite Hes. reflexivity.
Qed.

Lemma missed_early_return :
  early_success n 2 1 (n - 2 +i 1) = false ->
  labelled n 2 A /\ subset_of_last n 2 A R /\
  scanned n 2 tables [1; 2] comb A R 1 0 = Some (1, Next (R, n - 2, None)) /\
  forces 2 tables [1; 2] comb A 1 None 1 2 /\
  get1 R 2 = Some false /\
  forall fuel,
    TransversalProperty (S fuel) n 2 tables [2; 2; 77] comb A R 1 quiet = Undef.
Proof.
  intros Hes. split; [|split; [|split; [|split; [|split]]]].
  - intros i Hi. destruct (Z.eq_dec i 1) as [->|Hne];
      [exists 1; split; [reflexivity|lia]|].
    exists 2. split; [apply first_alone_cells; lia|lia].
  - intros i Hi Ht. unfold R in Ht. rewrite from_three_cells in Ht by exact Hi.
    inversion Ht as [E]. apply Z.leb_le in E. apply first_alone_cells. lia.
  - unfold scanned. rewrite counted. reflexivity.
  - exists (identity_list n), 2, [1; 2], (Some 2). repeat split.
  - reflexivity.
  - intros fuel. rewrite TransversalProperty_step by exact enough_memory_quiet.
    rewrite (scan_goes_on Hes). reflexivity.
Qed.

End Overflow.

(** C3 fails as stated when [n*k] is not in the range of [int]: for
    [n = 2^30] and [k = 2], with the point 1 alone in the first part and
    the points from 3 on in the subset, a subset of the second part,
    [(Acount+Rnewcount)*k > (k-1)*n]
    holds before any entry is examined, also as the code evaluates it; the
    first entry adds the point 2, and then the product [2^30 * 2] of line
    214 is not an [int]: as the code evaluates it the test fails, there is
    no early return, and the call goes on to the next entry of the
    adjacency (here one that is outside the table [comb]). *)
Theorem early_success_missed :
  (1 + (two_to_30 - 2)) * 2 > (2 - 1) * two_to_30 /\
  early_success two_to_30 2 1 (two_to_30 - 2) = true /\
  early_success two_to_30 2 1 (two_to_30 - 2 +i 1) = false /\
  labelled two_to_30 2 (first_alone two_to_30) /\
  subset_of_last two_to_30 2 (first_alone two_to_30) (from_three two_to_30) /\
  scanned two_to_30 2 [identity_list two_to_30] [1; 2] (map intlist_of [[1]; [2]])
    (first_alone two_to_30) (from_three two_to_30) 1 0
  = Some (1, Next (from_three two_to_30, two_to_30 - 2, None)) /\
  forces 2 [identity_list two_to_30] [1; 2] (map intlist_of [[1]; [2]])
    (first_alone two_to_30) 1 None 1 2 /\
  get1 (from_three two_to_30) 2 = Some false /\
  forall fuel,
    TransversalProperty (S fuel) two_to_30 2 [identity_list two_to_30] [2; 2; 77]
      (map intlist_of [[1]; [2]]) (first_alone two_to_30) (from_three two_to_30) 1 quiet
    = Undef.
Proof.
  assert (Hes : early_success two_to_30 2 1 (two_to_30 - 2 +i 1) = false)
    by (vm_compute; reflexivity).
  split; [unfold two_to_30; lia|]. split; [vm_compute; reflexivity|].
  split; [exact Hes|].
  apply (missed_early_return two_to_30); [|exact Hes].
  unfold two_to_30, CInt.INT_MAX. lia.
Qed.
